(** * Chatbot server: reply resolution, chat turns and message history

    A shallow embedding of [server/index.js]: the Express handlers
    ([POST /api/chat], [GET /api/messages], [DELETE /api/messages]), the
    helpers [initDb], [saveMessage], [searchUserData] and [findResponse],
    and the PostgreSQL statements they send through [pool.query].

    Conventions of the model.
    - Text is ASCII: a JavaScript or SQL string is a list of characters,
      [toLowerCase] and SQL [LOWER] act on the letters A-Z, whitespace is
      the ASCII whitespace that [String.prototype.trim] removes.
    - The store is explicit state; every [pool.query] call is recorded in a
      trace, advances the clock that gives [CURRENT_TIMESTAMP], and may fail
      according to a schedule of faults supplied by the environment.
    - An [async] function is a computation in a state-and-exception monad;
      [try]/[catch] is [try_catch]; [console.error] appends to a log.
    - A table that was never created is an empty table, so
      [CREATE TABLE IF NOT EXISTS] changes nothing; [SERIAL] ids come from a
      per-table sequence and are fresh; rows are kept in insertion order,
      which is the order a [SELECT] without [ORDER BY] scans them. *)

From Stdlib Require Import List Ascii String ZArith NArith Lia Bool.
From Stdlib Require Import DecimalString DecimalN Sorted Permutation.
Import ListNotations.

(* ================================================================== *)
(** * Text *)

Module Text.

Definition str := list ascii.

Definition lit (s : string) : str := list_ascii_of_string s.

Definition str_eqb (a b : str) : bool :=
  if list_eq_dec ascii_dec a b then true else false.

Definition lower_char (c : ascii) : ascii :=
  let n := N_of_ascii c in
  if ((65 <=? n) && (n <=? 90))%N then ascii_of_N (n + 32) else c.

(** [String.prototype.toLowerCase]. *)
Definition toLowerCase (s : str) : str := map lower_char s.

(** JavaScript WhiteSpace and LineTerminator characters within ASCII:
    TAB, LF, VT, FF, CR and SPACE. *)
Definition is_ws (c : ascii) : bool :=
  let n := N_of_ascii c in
  ((9 <=? n) && (n <=? 13) || (n =? 32))%N.

Fixpoint trimStart (s : str) : str :=
  match s with
  | c :: s' => if is_ws c then trimStart s' else s
  | [] => []
  end.

Definition trimEnd (s : str) : str := rev (trimStart (rev s)).

(** [String.prototype.trim]. *)
Definition trim (s : str) : str := trimEnd (trimStart s).

(** [k] is a prefix of [s]. *)
Fixpoint starts_with (k s : str) : bool :=
  match k, s with
  | [], _ => true
  | a :: k', c :: s' => Ascii.eqb a c && starts_with k' s'
  | _ :: _, [] => false
  end.

(** [k] occurs somewhere inside [s]. *)
Fixpoint includes (k s : str) : bool :=
  starts_with k s ||
  match s with
  | [] => false
  | _ :: s' => includes k s'
  end.

End Text.
Import Text.

(* ================================================================== *)
(** * The trigger-keyword regular expression

    [/search for|find|show|get|query/]: an alternation of five literals.
    At a given position the alternatives are tried from left to right. *)

Module TriggerRe.

Definition alternatives : list str :=
  [lit "search for"; lit "find"; lit "show"; lit "get"; lit "query"].

(** The alternative, if any, that matches at the start of [s]. *)
Definition match_at (s : str) : option str :=
  find (fun k => starts_with k s) alternatives.

(** [s.match(/search for|find|show|get|query/)]: the leftmost match,
    [None] for JavaScript's [null]. *)
Fixpoint re_match (s : str) : option str :=
  match match_at s with
  | Some k => Some k
  | None =>
      match s with
      | [] => None
      | _ :: s' => re_match s'
      end
  end.

(** The scan of the global replace.  [skip] counts the characters of the
    current match that are still to be dropped; with [skip = 0] the scan
    looks for a match at the current position, drops it when there is one
    and resumes right after it, and otherwise copies one character. *)
Fixpoint replace_from (skip : nat) (s : str) : str :=
  match s with
  | [] => []
  | c :: s' =>
      match skip with
      | S n => replace_from n s'
      | O =>
          match match_at s with
          | Some k => replace_from (List.length k - 1) s'
          | None => c :: replace_from 0 s'
          end
      end
  end.

(** [s.replace(/search for|find|show|get|query/g, '')]. *)
Definition re_replace_all (s : str) : str := replace_from 0 s.

End TriggerRe.

(* ================================================================== *)
(** * SQL pattern matching: LIKE and ILIKE

    In a LIKE pattern [%] matches any run of characters, [_] any single
    character, and a backslash makes the next character literal.  A
    pattern that ends in a lone backslash is refused by the store. *)

Module Like.

Inductive tok : Type :=
| TAny
| TOne
| TLit (c : ascii).

Definition percent : ascii := "%"%char.
Definition underscore : ascii := "_"%char.
Definition backslash : ascii := "\"%char.

Fixpoint parse (p : str) : option (list tok) :=
  match p with
  | [] => Some []
  | c :: p' =>
      if Ascii.eqb c backslash then
        match p' with
        | [] => None
        | d :: p'' => option_map (cons (TLit d)) (parse p'')
        end
      else if Ascii.eqb c percent then option_map (cons TAny) (parse p')
      else if Ascii.eqb c underscore then option_map (cons TOne) (parse p')
      else option_map (cons (TLit c)) (parse p')
  end.

Fixpoint match_toks (p : list tok) : str -> bool :=
  match p with
  | [] => fun s => match s with [] => true | _ :: _ => false end
  | TAny :: p' =>
      fix star (s : str) : bool :=
        match_toks p' s ||
        match s with
        | [] => false
        | _ :: s' => star s'
        end
  | TOne :: p' =>
      fun s => match s with [] => false | _ :: s' => match_toks p' s' end
  | TLit a :: p' =>
      fun s =>
        match s with
        | [] => false
        | c :: s' => Ascii.eqb a c && match_toks p' s'
        end
  end.

(** [text LIKE pat]; [None] when the store refuses the pattern. *)
Definition like (text pat : str) : option bool :=
  option_map (fun p => match_toks p text) (parse pat).

(** SQL [LOWER]. *)
Definition LOWER (s : str) : str := map lower_char s.

(** [text ILIKE pat]: LIKE on the lower-cased text and pattern. *)
Definition ilike (text pat : str) : option bool :=
  like (LOWER text) (LOWER pat).

(** The truth value of a LIKE that the store accepts. *)
Definition holds (r : option bool) : bool :=
  match r with
  | Some b => b
  | None => false
  end.

(** The token that an unescaped character of a pattern stands for. *)
Definition tok_of_char (c : ascii) : tok :=
  if Ascii.eqb c percent then TAny
  else if Ascii.eqb c underscore then TOne
  else TLit c.

End Like.

(* ================================================================== *)
(** * The store: tables, seeds and statements *)

Module Db.

(** [messages (id, content, sender, timestamp)]. *)
Record Message : Type := {
  m_id : N;
  content : str;
  sender : str;
  timestamp : N
}.

(** [responses (id, pattern UNIQUE, response)]. *)
Record ReplyPattern : Type := {
  r_id : N;
  pattern : str;
  response : str
}.

(** [user_data (id, category, data_key, data_value)]. *)
Record Fact : Type := {
  f_id : N;
  category : str;
  data_key : str;
  data_value : str
}.

Record Store : Type := {
  messages : list Message;
  responses : list ReplyPattern;
  user_data : list Fact;
  messages_id_seq : N;
  responses_id_seq : N;
  user_data_id_seq : N
}.

Definition empty : Store :=
  {| messages := []; responses := []; user_data := [];
     messages_id_seq := 1; responses_id_seq := 1; user_data_id_seq := 1 |}.

(** The VALUES lists of the two seeding statements of [initDb]. *)
Definition user_data_values : list (str * str * str) :=
  [ (lit "personal", lit "name", lit "John Doe");
    (lit "personal", lit "email", lit "john@example.com");
    (lit "preferences", lit "theme", lit "dark");
    (lit "preferences", lit "language", lit "english") ].

Definition responses_values : list (str * str) :=
  [ (lit "hello",
     lit "Hi there! I'm your chatbot assistant. How can I help you today?");
    (lit "help",
     lit "I can assist you with general questions, provide information, or just chat. What would you like to know?");
    (lit "bye",
     lit "Goodbye! Have a great day! Feel free to come back if you need anything.");
    (lit "show data", lit "Here's the data you requested: {data}");
    (lit "search", lit "I'll help you search for: {query}") ].

(** The statements that the server sends, with their parameters. *)
Inductive Query : Type :=
| createTables
| seedUserData
| seedResponses
| insertMessage (content sender : str)
| searchQuery (p : str)
| exactQuery (m : str)
| fuzzyQuery (m : str)
| selectMessages (limit offset : Z)
| countMessages
| truncateMessages.

(** What [result.rows] holds for each statement. *)
Definition rows_of (q : Query) : Type :=
  match q with
  | insertMessage _ _ => Message
  | searchQuery _ => list Fact
  | exactQuery _ => list str
  | fuzzyQuery _ => list str
  | selectMessages _ _ => list Message
  | countMessages => Z
  | _ => unit
  end.

(** [INSERT INTO user_data ... ON CONFLICT DO NOTHING], one VALUES row.
    The table's only unique constraint is the primary key on the serial
    [id]; the id is a fresh sequence value, so no conflict arises and the
    row is inserted. *)
Definition insert_user_data (s : Store) (v : str * str * str) : Store :=
  let '(c, k, d) := v in
  {| messages := messages s;
     responses := responses s;
     user_data := user_data s ++
       [{| f_id := user_data_id_seq s; category := c;
           data_key := k; data_value := d |}];
     messages_id_seq := messages_id_seq s;
     responses_id_seq := responses_id_seq s;
     user_data_id_seq := N.succ (user_data_id_seq s) |}.

Definition has_pattern (p : str) (row : ReplyPattern) : bool :=
  str_eqb (pattern row) p.

Definition set_response (r : str) (row : ReplyPattern) : ReplyPattern :=
  {| r_id := r_id row; pattern := pattern row; response := r |}.

(** [INSERT INTO responses ... ON CONFLICT (pattern) DO UPDATE SET
    response = EXCLUDED.response], one VALUES row; [None] when the store
    refuses the row.  The sequence value of the proposed row is drawn
    before the row is compared with the table, and is consumed whatever
    follows.  When a row of the table holds the pattern, that row is
    updated: it keeps its id, and its new version is written behind the
    rows of the table, so that a scan meets it after the rows that were
    not touched.  Otherwise the proposed row is inserted behind the rows
    of the table, unless a row of the table has its id already: the
    primary key then refuses it. *)
Definition upsert_response (s : Store) (v : str * str) : option Store :=
  let '(p, r) := v in
  let id := responses_id_seq s in
  let written (rows : list ReplyPattern) : Store :=
    {| messages := messages s;
       responses := rows;
       user_data := user_data s;
       messages_id_seq := messages_id_seq s;
       responses_id_seq := N.succ id;
       user_data_id_seq := user_data_id_seq s |} in
  if existsb (has_pattern p) (responses s)
  then Some (written
               (filter (fun row => negb (has_pattern p row)) (responses s) ++
                map (set_response r) (filter (has_pattern p) (responses s))))
  else if existsb (fun row => (r_id row =? id)%N) (responses s)
  then None
  else Some (written
               (responses s ++
                [{| r_id := id; pattern := p; response := r |}])).

(** The rows of a VALUES list with pairwise different patterns, one after
    the other; [inl n] when a row is refused, [n] being where the sequence
    stands by then. *)
Fixpoint seed_responses (vals : list (str * str)) (s : Store) : N + Store :=
  match vals with
  | [] => inr s
  | v :: rest =>
      match upsert_response s v with
      | Some s' => seed_responses rest s'
      | None => inl (N.succ (responses_id_seq s))
      end
  end.

(** [INSERT INTO messages (content, sender) VALUES ($1, $2) RETURNING *]. *)
Definition insert_message (now : N) (c sd : str) (s : Store)
  : Message * Store :=
  let row := {| m_id := messages_id_seq s; content := c; sender := sd;
                timestamp := now |} in
  (row,
   {| messages := messages s ++ [row];
      responses := responses s;
      user_data := user_data s;
      messages_id_seq := N.succ (messages_id_seq s);
      responses_id_seq := responses_id_seq s;
      user_data_id_seq := user_data_id_seq s |}).

(** [TRUNCATE TABLE messages]: the sequence is not restarted. *)
Definition truncate_messages (s : Store) : Store :=
  {| messages := [];
     responses := responses s;
     user_data := user_data s;
     messages_id_seq := messages_id_seq s;
     responses_id_seq := responses_id_seq s;
     user_data_id_seq := user_data_id_seq s |}.

(** A WHERE clause over every row; [None] when evaluating the condition
    fails on some row. *)
Fixpoint where_rows {R : Type} (cond : R -> option bool) (rows : list R)
  : option (list R) :=
  match rows with
  | [] => Some []
  | r :: rs =>
      match cond r with
      | None => None
      | Some b =>
          match where_rows cond rs with
          | None => None
          | Some out => Some (if b then r :: out else out)
          end
      end
  end.

(** A WHERE clause under [LIMIT 1]: the scan stops at the first row that
    satisfies the condition. *)
Fixpoint first_row {R : Type} (cond : R -> option bool) (rows : list R)
  : option (list R) :=
  match rows with
  | [] => Some []
  | r :: rs =>
      match cond r with
      | None => None
      | Some true => Some [r]
      | Some false => first_row cond rs
      end
  end.

Definition or3 (a b c : option bool) : option bool :=
  match a, b, c with
  | Some x, Some y, Some z => Some (x || y || z)
  | _, _, _ => None
  end.

(** [LOWER(category) LIKE LOWER($1) OR LOWER(data_key) LIKE LOWER($1) OR
    LOWER(data_value) LIKE LOWER($1)]. *)
Definition search_cond (p : str) (f : Fact) : option bool :=
  or3 (Like.like (Like.LOWER (category f)) (Like.LOWER p))
      (Like.like (Like.LOWER (data_key f)) (Like.LOWER p))
      (Like.like (Like.LOWER (data_value f)) (Like.LOWER p)).

(** [lower($1) LIKE lower(pattern) || '%']. *)
Definition exact_cond (m : str) (r : ReplyPattern) : option bool :=
  Like.like (Like.LOWER m) (Like.LOWER (pattern r) ++ [Like.percent]).

(** [$1 ILIKE '%' || pattern || '%']. *)
Definition fuzzy_cond (m : str) (r : ReplyPattern) : option bool :=
  Like.ilike m ([Like.percent] ++ pattern r ++ [Like.percent]).

(** [ORDER BY timestamp ASC]. *)
Fixpoint insert_by_timestamp (m : Message) (l : list Message)
  : list Message :=
  match l with
  | [] => [m]
  | x :: l' =>
      if (timestamp m <=? timestamp x)%N then m :: l
      else x :: insert_by_timestamp m l'
  end.

Definition order_by_timestamp (l : list Message) : list Message :=
  fold_right insert_by_timestamp [] l.

Definition invalid_pattern : str :=
  lit "LIKE pattern must not end with escape character".

Definition duplicate_key : str :=
  lit "duplicate key value violates unique constraint".

Definition lift_rows {R : Type} (s : Store) (r : option R)
  : str + (R * Store) :=
  match r with
  | Some rows => inr (rows, s)
  | None => inl invalid_pattern
  end.

(** The effect and the result of one statement run at time [now]; [inl]
    carries the message of the error that the store raises. *)
Definition exec (q : Query) (now : N) (s : Store)
  : str + (rows_of q * Store) :=
  match q return str + (rows_of q * Store) with
  | createTables => inr (tt, s)
  | seedUserData => inr (tt, fold_left insert_user_data user_data_values s)
  | seedResponses =>
      match seed_responses responses_values s with
      | inr s' => inr (tt, s')
      | inl _ => inl duplicate_key
      end
  | insertMessage c sd => inr (insert_message now c sd s)
  | searchQuery p => lift_rows s (where_rows (search_cond p) (user_data s))
  | exactQuery m =>
      lift_rows s
        (option_map (map response) (first_row (exact_cond m) (responses s)))
  | fuzzyQuery m =>
      lift_rows s
        (option_map (map response) (first_row (fuzzy_cond m) (responses s)))
  | selectMessages limit offset =>
      if (limit <? 0)%Z then inl (lit "LIMIT must not be negative")
      else if (offset <? 0)%Z then inl (lit "OFFSET must not be negative")
      else inr (firstn (Z.to_nat limit)
                  (skipn (Z.to_nat offset) (order_by_timestamp (messages s))),
                s)
  | countMessages => inr (Z.of_nat (List.length (messages s)), s)
  | truncateMessages => inr (tt, truncate_messages s)
  end.

(** What a statement that the store refuses leaves behind.  The statement
    is rolled back, so the tables are as they were before it; a value drawn
    from a sequence is not given back, so the sequence of the responses
    stays where the refused seeding left it. *)
Definition rolled_back (q : Query) (s : Store) : Store :=
  match q with
  | seedResponses =>
      match seed_responses responses_values s with
      | inl n =>
          {| messages := messages s;
             responses := responses s;
             user_data := user_data s;
             messages_id_seq := messages_id_seq s;
             responses_id_seq := n;
             user_data_id_seq := user_data_id_seq s |}
      | inr _ => s
      end
  | _ => s
  end.

(** The store accepts the seeding of the responses. *)
Definition seeds_accepted (s : Store) : bool :=
  match seed_responses responses_values s with
  | inr _ => true
  | inl _ => false
  end.

(** Every id of the responses table has been drawn from its sequence. *)
Definition ids_from_sequence (s : Store) : bool :=
  forallb (fun row => (r_id row <? responses_id_seq s)%N) (responses s).

End Db.
Import Db.

(* ================================================================== *)
(** * Asynchronous computations over the store *)

Module Js.

Record World : Type := {
  store : Store;
  clock : N;
  faults : list bool;
  trace : list Query;
  console : list str
}.

Inductive Outcome (A : Type) : Type :=
| Return (a : A)
| Throw (e : str).

Arguments Return {A} a.
Arguments Throw {A} e.

Definition Async (A : Type) : Type := World -> Outcome A * World.

Definition ret {A : Type} (a : A) : Async A := fun w => (Return a, w).

Definition throw {A : Type} (e : str) : Async A := fun w => (Throw e, w).

Definition bind {A B : Type} (c : Async A) (k : A -> Async B) : Async B :=
  fun w =>
    match c w with
    | (Return a, w') => k a w'
    | (Throw e, w') => (Throw e, w')
    end.

(** [try { c } catch (error) { h error.message }]. *)
Definition try_catch {A : Type} (c : Async A) (h : str -> Async A)
  : Async A :=
  fun w =>
    match c w with
    | (Return a, w') => (Return a, w')
    | (Throw e, w') => h e w'
    end.

(** [console.error(tag, error)]. *)
Definition console_error (tag : str) : Async unit :=
  fun w =>
    (Return tt,
     {| store := store w; clock := clock w; faults := faults w;
        trace := trace w; console := console w ++ [tag] |}).

Definition connection_error : str := lit "connection error".

(** The world after statement [q] has been sent and has left the store in
    state [s]: the call is recorded, the clock has advanced and one entry of
    the fault schedule is consumed. *)
Definition sent (w : World) (q : Query) (s : Store) : World :=
  {| store := s; clock := N.succ (clock w); faults := tl (faults w);
     trace := trace w ++ [q]; console := console w |}.

(** [await pool.query(q)].  A scheduled fault or an error raised by the
    store rejects the promise. *)
Definition pool_query (q : Query) : Async (rows_of q) :=
  fun w =>
    if hd false (faults w) then (Throw connection_error, sent w q (store w))
    else
      match exec q (clock w) (store w) with
      | inl e => (Throw e, sent w q (rolled_back q (store w)))
      | inr (rows, s') => (Return rows, sent w q s')
      end.

(** The next [n] statements meet no scheduled fault. *)
Definition no_fault_in (n : nat) (w : World) : bool :=
  forallb negb (firstn n (faults w)).

End Js.
Import Js.

Notation "x <- c1 ;; c2" := (bind c1 (fun x => c2))
  (at level 61, c1 at next level, right associativity).
Notation "c1 ;; c2" := (bind c1 (fun _ => c2))
  (at level 61, right associativity).

(* ================================================================== *)
(** * JSON.stringify of a reply *)

Module Json.

Definition dquote : ascii := ascii_of_nat 34.

Definition hex_digit (n : N) : ascii :=
  if (n <? 10)%N then ascii_of_N (48 + n) else ascii_of_N (87 + n).

Definition escape_char (c : ascii) : str :=
  let n := N_of_ascii c in
  if Ascii.eqb c dquote then [Like.backslash; dquote]
  else if Ascii.eqb c Like.backslash then [Like.backslash; Like.backslash]
  else if (n =? 8)%N then lit "\b"
  else if (n =? 12)%N then lit "\f"
  else if (n =? 10)%N then lit "\n"
  else if (n =? 13)%N then lit "\r"
  else if (n =? 9)%N then lit "\t"
  else if (n <? 32)%N
       then lit "\u00" ++ [hex_digit (n / 16); hex_digit (n mod 16)]
  else [c].

Definition of_string (s : str) : str :=
  [dquote] ++ flat_map escape_char s ++ [dquote].

Definition of_number (n : N) : str :=
  list_ascii_of_string (NilEmpty.string_of_uint (N.to_uint n)).

Definition member (k : string) (v : str) : str :=
  of_string (lit k) ++ lit ":" ++ v.

Fixpoint join (sep : str) (l : list str) : str :=
  match l with
  | [] => []
  | [x] => x
  | x :: l' => x ++ sep ++ join sep l'
  end.

Definition object (members : list str) : str :=
  lit "{" ++ join (lit ",") members ++ lit "}".

Definition array (items : list str) : str :=
  lit "[" ++ join (lit ",") items ++ lit "]".

(** A [user_data] row as the driver returns it. *)
Definition of_fact (f : Fact) : str :=
  object [ member "id" (of_number (f_id f));
           member "category" (of_string (category f));
           member "data_key" (of_string (data_key f));
           member "data_value" (of_string (data_value f)) ].

End Json.

(* ================================================================== *)
(** * The server *)

Module Server.

(** The object that [findResponse] returns and the handler sends:
    [{type: 'data', content: rows}] or [{type: 'text', content: text}]. *)
Inductive Answer : Type :=
| DataAnswer (rows : list Fact)
| TextAnswer (text : str).

Inductive Body : Type :=
| reply_body (reply : Answer)
| error_body (error : str) (message : option str)
| messages_body (rows : list Message)
    (currentPage totalPages totalMessages : Z)
| message_body (message : str).

Record Response : Type := {
  status : N;
  body : Body
}.

(** [res.json(b)] and [res.status(n).json(b)]. *)
Definition json (b : Body) : Response := {| status := 200; body := b |}.
Definition status_json (n : N) (b : Body) : Response :=
  {| status := n; body := b |}.

Definition fallback : str :=
  lit "I'm not sure how to respond to that. Could you please rephrase or ask something else?".

Definition JSON_stringify (reply : Answer) : str :=
  match reply with
  | DataAnswer rows =>
      Json.object [ Json.member "type" (Json.of_string (lit "data"));
                    Json.member "content"
                      (Json.array (map Json.of_fact rows)) ]
  | TextAnswer text =>
      Json.object [ Json.member "type" (Json.of_string (lit "text"));
                    Json.member "content" (Json.of_string text) ]
  end.

Definition initDb : Async unit :=
  try_catch
    (pool_query createTables ;;
     pool_query seedUserData ;;
     pool_query seedResponses ;;
     ret tt)
    (fun _ => console_error (lit "Database initialization error:")).

Definition saveMessage (content sender : str) : Async Message :=
  try_catch
    (pool_query (insertMessage content sender))
    (fun _ =>
       console_error (lit "Error saving message:") ;;
       throw (lit "Failed to save message")).

Definition searchUserData (query : str) : Async (list Fact) :=
  try_catch
    (pool_query (searchQuery ([Like.percent] ++ query ++ [Like.percent])))
    (fun _ =>
       console_error (lit "Error searching data:") ;;
       throw (lit "Failed to search data")).

(** The data-query part of [findResponse]: [Some] answer when the function
    returns from inside the [if (searchTerms)] block. *)
Definition dataQuery (message : str) : Async (option Answer) :=
  match TriggerRe.re_match (toLowerCase message) with
  | Some _ =>
      let query := trim (TriggerRe.re_replace_all (toLowerCase message)) in
      data <- searchUserData query ;;
      match data with
      | _ :: _ => ret (Some (DataAnswer data))
      | [] => ret None
      end
  | None => ret None
  end.

(** [result.rows[0]?.response || fallback]. *)
Definition response_or_fallback (rows : list str) : str :=
  match rows with
  | [] => fallback
  | [] :: _ => fallback
  | r :: _ => r
  end.

(** The regular chatbot response of [findResponse]. *)
Definition patternResponse (message : str) : Async Answer :=
  result <- pool_query (exactQuery (toLowerCase message)) ;;
  result <- match result with
            | [] => pool_query (fuzzyQuery (toLowerCase message))
            | _ :: _ => ret result
            end ;;
  ret (TextAnswer (response_or_fallback result)).

Definition findResponse (message : str) : Async Answer :=
  try_catch
    (found <- dataQuery message ;;
     match found with
     | Some answer => ret answer
     | None => patternResponse message
     end)
    (fun _ =>
       console_error (lit "Error finding response:") ;;
       throw (lit "Failed to process response")).

Definition internal_error (e : str) : Response :=
  status_json 500 (error_body (lit "Internal server error") (Some e)).

(** [!message] for a body whose [message] member is absent or a string. *)
Definition falsy (message : option str) : bool :=
  match message with
  | None => true
  | Some [] => true
  | Some (_ :: _) => false
  end.

(** [app.post('/api/chat', ...)]. *)
Definition post_api_chat (message : option str) : Async Response :=
  try_catch
    (match message with
     | None | Some [] =>
         ret (status_json 400 (error_body (lit "Message is required") None))
     | Some message =>
         saveMessage message (lit "user") ;;
         response <- findResponse message ;;
         let reply :=
           match response with
           | DataAnswer rows => DataAnswer rows
           | TextAnswer text => TextAnswer text
           end in
         saveMessage (JSON_stringify reply) (lit "bot") ;;
         ret (json (reply_body reply))
     end)
    (fun e =>
       console_error (lit "Error processing message:") ;;
       ret (internal_error e)).

(** [parseInt(x) || d], with [None] for [NaN]. *)
Definition or_default (x : option Z) (d : Z) : Z :=
  match x with
  | None => d
  | Some 0%Z => d
  | Some n => n
  end.

(** [Math.ceil(a / b)] for integers [a] and [b <> 0]. *)
Definition ceil_div (a b : Z) : Z := (- ((- a) / b))%Z.

(** [app.get('/api/messages', ...)]; the arguments are
    [parseInt(req.query.page)] and [parseInt(req.query.limit)]. *)
Definition get_api_messages (qpage qlimit : option Z) : Async Response :=
  try_catch
    (let page := or_default qpage 1 in
     let limit := or_default qlimit 50 in
     let offset := ((page - 1) * limit)%Z in
     result <- pool_query (selectMessages limit offset) ;;
     totalMessages <- pool_query countMessages ;;
     ret (json (messages_body result page
                  (ceil_div totalMessages limit) totalMessages)))
    (fun e =>
       console_error (lit "Error fetching messages:") ;;
       ret (internal_error e)).

(** [app.delete('/api/messages', ...)]. *)
Definition delete_api_messages : Async Response :=
  try_catch
    (pool_query truncateMessages ;;
     ret (json (message_body (lit "Chat history cleared successfully"))))
    (fun e =>
       console_error (lit "Error clearing messages:") ;;
       ret (internal_error e)).

End Server.
Import Server.

(* ================================================================== *)
(** * Worlds used in statements and examples *)

Arguments lit : simpl never.

(** The world with [tags] appended to the console log. *)
Definition logged (w : World) (tags : list str) : World :=
  {| store := store w; clock := clock w; faults := faults w;
     trace := trace w; console := console w ++ tags |}.

(** A server process that has not touched an empty store yet, and the
    worlds used in the examples: after start-up, and with a schedule of
    faults. *)
Definition fresh : World :=
  {| store := Db.empty; clock := 0; faults := []; trace := [];
     console := [] |}.

Definition seeded : World := snd (initDb fresh).

Definition with_faults (fs : list bool) (w : World) : World :=
  {| store := store w; clock := clock w; faults := fs;
     trace := trace w; console := console w |}.

Definition with_store (s : Store) (w : World) : World :=
  {| store := s; clock := clock w; faults := faults w;
     trace := trace w; console := console w |}.

Definition with_user_data (facts : list Fact) (w : World) : World :=
  with_store
    {| messages := messages (store w);
       responses := responses (store w);
       user_data := facts;
       messages_id_seq := messages_id_seq (store w);
       responses_id_seq := responses_id_seq (store w);
       user_data_id_seq := user_data_id_seq (store w) |} w.

Definition with_responses (rows : list ReplyPattern) (w : World) : World :=
  with_store
    {| messages := messages (store w);
       responses := rows;
       user_data := user_data (store w);
       messages_id_seq := messages_id_seq (store w);
       responses_id_seq := responses_id_seq (store w);
       user_data_id_seq := user_data_id_seq (store w) |} w.

(* ================================================================== *)
(** * Reply resolution *)

Module Resolver.

Import Like.

(** The pattern that [searchUserData] sends for a search term. *)
Definition search_pattern (term : str) : str :=
  [percent] ++ term ++ [percent].

(** The three WHERE conditions, as truth values on one row. *)
Definition fact_matches (term : str) (f : Fact) : bool :=
  holds (search_cond (search_pattern term) f).

Definition prefix_matches (m : str) (r : ReplyPattern) : bool :=
  holds (exact_cond m r).

Definition infix_matches (m : str) (r : ReplyPattern) : bool :=
  holds (fuzzy_cond m r).

(** The search term that [findResponse] extracts from a message. *)
Definition search_term (message : str) : str :=
  trim (TriggerRe.re_replace_all (toLowerCase message)).

(** The matching that the specification words describe: [term] is a
    case-insensitive substring of the category, the key or the value of a
    fact; a pattern is a case-insensitive prefix of a message. *)
Definition fact_contains (term : str) (f : Fact) : bool :=
  includes (LOWER term) (LOWER (category f)) ||
  includes (LOWER term) (LOWER (data_key f)) ||
  includes (LOWER term) (LOWER (data_value f)).

Definition pattern_is_prefix (m : str) (r : ReplyPattern) : bool :=
  starts_with (LOWER (pattern r)) (LOWER m).

(** What the prefix statement and the containment statement return. *)
Definition first_response (f : ReplyPattern -> bool) (s : Store) : list str :=
  match find f (responses s) with
  | Some r => [response r]
  | None => []
  end.

(** A term in which no character has a special meaning for LIKE. *)
Definition plain (term : str) : Prop :=
  forall c, In c term -> c <> percent /\ c <> underscore /\ c <> backslash.

(** On one text: the LIKE of [searchUserData] for a term. *)
Definition field_matches (term text : str) : bool :=
  holds (like (LOWER text) (LOWER (search_pattern term))).

End Resolver.
Import Resolver.

(* ================================================================== *)
(** * Vocabulary of the statements *)

(** A piece of a message that is a trigger keyword or one whitespace
    character. *)
Inductive keyword_or_space : str -> Prop :=
| is_keyword (k : str) : In k TriggerRe.alternatives -> keyword_or_space k
| is_space (c : ascii) : is_ws c = true -> keyword_or_space [c].

(** The statements of the pattern path. *)
Definition is_pattern_query (q : Query) : Prop :=
  exists m, q = exactQuery m \/ q = fuzzyQuery m.


(** Whatever its outcome, the computation takes the messages table from a
    state to an [R]-related one. *)
Definition respects (R : list Message -> list Message -> Prop)
    {A : Type} (c : Async A) : Prop :=
  forall w, R (messages (store w)) (messages (store (snd (c w)))).

Definition message_ok (m : Message) : Prop :=
  content m <> [] /\ (sender m = lit "user" \/ sender m = lit "bot").

Definition messages_ok (w : World) : Prop :=
  Forall message_ok (messages (store w)).

(** The table grows by well-formed messages only. *)
Definition grows_ok (before after : list Message) : Prop :=
  exists created, after = before ++ created /\ Forall message_ok created.

(** The table stays well formed. *)
Definition stays_ok (before after : list Message) : Prop :=
  Forall message_ok before -> Forall message_ok after.

(** The routes of the server that touch the store. *)
Inductive Request : Type :=
| POST_api_chat (message : option str)
| GET_api_messages (page limit : option Z)
| DELETE_api_messages.

Definition handle (req : Request) : Async Response :=
  match req with
  | POST_api_chat message => post_api_chat message
  | GET_api_messages page limit => get_api_messages page limit
  | DELETE_api_messages => delete_api_messages
  end.

(** The patterns held by the responses table. *)
Definition patterns_of (s : Store) : list str := map pattern (responses s).

(* ================================================================== *)
(** * Vocabulary of the further properties *)

(** The computation leaves the store as it found it, whatever its
    outcome. *)
Definition read_only {A : Type} (c : Async A) : Prop :=
  forall w, store (snd (c w)) = store w.

(** The rows of page [page] of the history, [limit] rows to a page. *)
Definition page_rows (limit page : Z) (s : Store) : list Message :=
  firstn (Z.to_nat limit)
    (skipn (Z.to_nat ((page - 1) * limit))
       (order_by_timestamp (messages s))).


(** The resolution algorithm as a function of the two tables it reads:
    the facts that satisfy the search condition when the message has a
    trigger keyword and some fact does, and otherwise the response of the
    first row of the prefix pass, else of the containment pass, else the
    fallback text. *)
Definition pattern_answer (message : str) (s : Store) : Answer :=
  let m := toLowerCase message in
  TextAnswer
    (response_or_fallback
       match first_response (prefix_matches m) s with
       | [] => first_response (infix_matches m) s
       | _ :: _ => first_response (prefix_matches m) s
       end).

Definition resolve (message : str) (s : Store) : Answer :=
  match TriggerRe.re_match (toLowerCase message) with
  | Some _ =>
      match filter (fact_matches (search_term message)) (user_data s) with
      | [] => pattern_answer message s
      | _ :: _ =>
          DataAnswer
            (filter (fact_matches (search_term message)) (user_data s))
      end
  | None => pattern_answer message s
  end.

(** The second store holds the reply patterns and the facts of the
    first. *)
Definition same_knowledge (s s' : Store) : Prop :=
  responses s' = responses s /\ user_data s' = user_data s.

(** Whatever its outcome, the computation leaves the reply patterns and
    the facts as they were. *)
Definition keeps_knowledge {A : Type} (c : Async A) : Prop :=
  forall w, same_knowledge (store w) (store (snd (c w))).

(* ================================================================== *)
(** * JSON.parse *)

Module JsonParse.

(** A parsed JSON text.  A string is a sequence of code units; a number is
    kept as its literal; the members of an object are in source order, so
    the value of a property is that of its last member with that name. *)
#[warnings="-register-all"] Inductive value : Type :=
| JNull
| JBool (b : bool)
| JNumber (literal : str)
| JString (units : list N)
| JArray (items : list value)
| JObject (members : list (list N * value)).

Inductive result (A : Type) : Type :=
| Parsed (a : A) (rest : str)
| SyntaxError
| OutOfFuel.

Arguments Parsed {A} a rest.
Arguments SyntaxError {A}.
Arguments OutOfFuel {A}.

Definition and_then {A B : Type} (r : result A) (k : A -> str -> result B)
  : result B :=
  match r with
  | Parsed a rest => k a rest
  | SyntaxError => SyntaxError
  | OutOfFuel => OutOfFuel
  end.

Definition units_of (s : str) : list N := map N_of_ascii s.

(** JSON whitespace: space, tab, line feed and carriage return. *)
Definition is_json_ws (c : ascii) : bool :=
  let n := N_of_ascii c in
  ((n =? 32) || (n =? 9) || (n =? 10) || (n =? 13))%N.

Fixpoint skip_ws (s : str) : str :=
  match s with
  | c :: r => if is_json_ws c then skip_ws r else s
  | [] => []
  end.

Definition is_digit (c : ascii) : bool :=
  let n := N_of_ascii c in ((48 <=? n) && (n <=? 57))%N.

Definition hex_value (c : ascii) : option N :=
  let n := N_of_ascii c in
  if ((48 <=? n) && (n <=? 57))%N then Some (n - 48)%N
  else if ((97 <=? n) && (n <=? 102))%N then Some (n - 87)%N
  else if ((65 <=? n) && (n <=? 70))%N then Some (n - 55)%N
  else None.

(** The code unit of a two-character escape. *)
Definition simple_escape (e : ascii) : option N :=
  match N_of_ascii e with
  | 34 => Some 34 | 92 => Some 92 | 47 => Some 47
  | 98 => Some 8 | 102 => Some 12 | 110 => Some 10
  | 114 => Some 13 | 116 => Some 9
  | _ => None
  end%N.

Definition cons_to {A : Type} (a : A) (r : result (list A))
  : result (list A) :=
  and_then r (fun l rest => Parsed (a :: l) rest).

(** The characters of a string, after its opening quote, up to and
    including the closing quote. *)
Fixpoint parse_chars (s : str) : result (list N) :=
  match s with
  | [] => SyntaxError
  | c :: r =>
      if Ascii.eqb c Json.dquote then Parsed [] r
      else if Ascii.eqb c Like.backslash then
        match r with
        | [] => SyntaxError
        | e :: r1 =>
            if Ascii.eqb e "u"%char then
              match r1 with
              | h1 :: h2 :: h3 :: h4 :: r2 =>
                  match hex_value h1, hex_value h2,
                        hex_value h3, hex_value h4 with
                  | Some a, Some b, Some c, Some d =>
                      cons_to (4096 * a + 256 * b + 16 * c + d)%N
                        (parse_chars r2)
                  | _, _, _, _ => SyntaxError
                  end
              | _ => SyntaxError
              end
            else
              match simple_escape e with
              | Some u => cons_to u (parse_chars r1)
              | None => SyntaxError
              end
        end
      else if (N_of_ascii c <? 32)%N then SyntaxError
      else cons_to (N_of_ascii c) (parse_chars r)
  end.

Fixpoint take_digits (s : str) : str * str :=
  match s with
  | c :: r =>
      if is_digit c then let (ds, rest) := take_digits r in (c :: ds, rest)
      else ([], s)
  | [] => ([], [])
  end.

(** The exponent part of a number, if any, after the literal [lex]. *)
Definition parse_exponent (lex s : str) : result str :=
  match s with
  | c :: r =>
      if Ascii.eqb c "e"%char || Ascii.eqb c "E"%char then
        let (sign, r1) :=
          match r with
          | g :: r' =>
              if Ascii.eqb g "+"%char || Ascii.eqb g "-"%char
              then ([g], r') else ([], r)
          | [] => ([], r)
          end in
        match take_digits r1 with
        | ([], _) => SyntaxError
        | (ds, rest) => Parsed (lex ++ [c] ++ sign ++ ds) rest
        end
      else Parsed lex s
  | [] => Parsed lex s
  end.

(** The fraction part of a number, if any, then the exponent part. *)
Definition parse_fraction (lex s : str) : result str :=
  match s with
  | c :: r =>
      if Ascii.eqb c "."%char then
        match take_digits r with
        | ([], _) => SyntaxError
        | (ds, rest) => parse_exponent (lex ++ [c] ++ ds) rest
        end
      else parse_exponent lex s
  | [] => Parsed lex s
  end.

(** A number: an optional minus sign, [0] or a digit from 1 to 9 followed
    by digits, an optional fraction, an optional exponent. *)
Definition parse_number (s : str) : result str :=
  let (sign, s1) :=
    match s with
    | c :: r => if Ascii.eqb c "-"%char then ([c], r) else ([], s)
    | [] => ([], s)
    end in
  match s1 with
  | c :: r =>
      if Ascii.eqb c "0"%char then parse_fraction (sign ++ [c]) r
      else if is_digit c then
        let (ds, rest) := take_digits r in
        parse_fraction (sign ++ c :: ds) rest
      else SyntaxError
  | [] => SyntaxError
  end.

Definition parse_literal (word : str) (v : value) (s : str) : result value :=
  if starts_with word s then Parsed v (skipn (List.length word) s)
  else SyntaxError.

(** A value, the elements of an array after its opening bracket, and the
    members of an object after its opening brace.  Every call spends one
    unit of fuel. *)
Fixpoint parse_value (fuel : nat) (s : str) : result value :=
  match fuel with
  | O => OutOfFuel
  | S fuel =>
      match skip_ws s with
      | [] => SyntaxError
      | c :: r =>
          if Ascii.eqb c "{"%char then
            match skip_ws r with
            | d :: r1 =>
                if Ascii.eqb d "}"%char then Parsed (JObject []) r1
                else and_then (parse_members fuel r)
                       (fun ms rest => Parsed (JObject ms) rest)
            | [] => SyntaxError
            end
          else if Ascii.eqb c "["%char then
            match skip_ws r with
            | d :: r1 =>
                if Ascii.eqb d "]"%char then Parsed (JArray []) r1
                else and_then (parse_elements fuel r)
                       (fun vs rest => Parsed (JArray vs) rest)
            | [] => SyntaxError
            end
          else if Ascii.eqb c Json.dquote then
            and_then (parse_chars r) (fun u rest => Parsed (JString u) rest)
          else if Ascii.eqb c "t"%char then
            parse_literal (lit "true") (JBool true) (c :: r)
          else if Ascii.eqb c "f"%char then
            parse_literal (lit "false") (JBool false) (c :: r)
          else if Ascii.eqb c "n"%char then
            parse_literal (lit "null") JNull (c :: r)
          else
            and_then (parse_number (c :: r))
              (fun lex rest => Parsed (JNumber lex) rest)
      end
  end

with parse_elements (fuel : nat) (s : str) : result (list value) :=
  match fuel with
  | O => OutOfFuel
  | S fuel =>
      and_then (parse_value fuel s)
        (fun v rest =>
           match skip_ws rest with
           | d :: r1 =>
               if Ascii.eqb d ","%char then cons_to v (parse_elements fuel r1)
               else if Ascii.eqb d "]"%char then Parsed [v] r1
               else SyntaxError
           | [] => SyntaxError
           end)
  end

with parse_members (fuel : nat) (s : str)
  : result (list (list N * value)) :=
  match fuel with
  | O => OutOfFuel
  | S fuel =>
      match skip_ws s with
      | q :: r =>
          if Ascii.eqb q Json.dquote then
            and_then (parse_chars r)
              (fun k rest =>
                 match skip_ws rest with
                 | d :: r1 =>
                     if Ascii.eqb d ":"%char then
                       and_then (parse_value fuel r1)
                         (fun v rest' =>
                            match skip_ws rest' with
                            | g :: r2 =>
                                if Ascii.eqb g ","%char
                                then cons_to (k, v) (parse_members fuel r2)
                                else if Ascii.eqb g "}"%char
                                then Parsed [(k, v)] r2
                                else SyntaxError
                            | [] => SyntaxError
                            end)
                     else SyntaxError
                 | [] => SyntaxError
                 end)
          else SyntaxError
      | [] => SyntaxError
      end
  end.

(** [JSON.parse(text)]; [None] when it throws a SyntaxError. *)
Definition JSON_parse (text : str) : option value :=
  match parse_value (2 * List.length text + 1) text with
  | Parsed v rest =>
      match skip_ws rest with
      | [] => Some v
      | _ :: _ => None
      end
  | _ => None
  end.

End JsonParse.
Import JsonParse.

(** The parser has answered, and what it has left is at most [n]
    characters long. *)
Definition within {A : Type} (n : nat) (r : result A) : Prop :=
  match r with
  | Parsed _ rest => List.length rest <= n
  | SyntaxError => True
  | OutOfFuel => False
  end.

(** The JavaScript values of a fact row and of a reply, as the route sends
    them and as [JSON.stringify] writes them. *)
Definition value_of_fact (f : Fact) : value :=
  JObject [ (units_of (lit "id"), JNumber (Json.of_number (f_id f)));
            (units_of (lit "category"), JString (units_of (category f)));
            (units_of (lit "data_key"), JString (units_of (data_key f)));
            (units_of (lit "data_value"),
             JString (units_of (data_value f))) ].

Definition value_of_reply (reply : Answer) : value :=
  match reply with
  | DataAnswer rows =>
      JObject [ (units_of (lit "type"), JString (units_of (lit "data")));
                (units_of (lit "content"),
                 JArray (map value_of_fact rows)) ]
  | TextAnswer text =>
      JObject [ (units_of (lit "type"), JString (units_of (lit "text")));
                (units_of (lit "content"), JString (units_of text)) ]
  end.

(** The characters with which a JSON value can start. *)
Definition json_start (c : ascii) : bool :=
  is_digit c ||
  existsb (Ascii.eqb c) (Json.dquote :: lit "{[-tfn").

(* ================================================================== *)
(** * The page: the state of [App] and its three requests

    The component's state is explicit; [axios] runs the route of the
    server on the server's world.  A JavaScript value held in a message is
    a [value]; a time stamp is the clock reading, on the server as in the
    page, where the source writes it as an ISO string.  The two readings
    of the page's clock that [sendMessage] makes are its arguments. *)

Module Client.

(** An entry of the [messages] state: a row of the history with its
    content parsed, or a message that the page made itself, without id. *)
Record ChatMessage : Type := {
  c_id : option N;
  c_content : value;
  c_sender : str;
  c_timestamp : N
}.

Record Ui : Type := {
  messages : list ChatMessage;
  inputMessage : str;
  loading : bool;
  error : option str
}.

Record Browser : Type := {
  ui : Ui;
  server : World;
  online : bool;
  log : list str
}.

(** What [axios] rejects with: a response whose status is not 2xx, or no
    response at all. *)
Inductive AxiosError : Type :=
| BadStatus (response : Response)
| NoResponse (message : str).

Definition with_ui (u : Ui) (b : Browser) : Browser :=
  {| ui := u; server := server b; online := online b; log := log b |}.

Definition with_server (w : World) (b : Browser) : Browser :=
  {| ui := ui b; server := w; online := online b; log := log b |}.

Definition console_error (tag : str) (b : Browser) : Browser :=
  {| ui := ui b; server := server b; online := online b;
     log := log b ++ [tag] |}.

(** [axios.get], [axios.post] and [axios.delete] on the routes of the
    server.  No route of the server throws, so the last case does not
    arise. *)
Definition axios (req : Request) (b : Browser)
  : (Response + AxiosError) * Browser :=
  if online b then
    match handle req (server b) with
    | (Return resp, w) =>
        (if ((200 <=? status resp) && (status resp <? 300))%N
         then inl resp else inr (BadStatus resp),
         with_server w b)
    | (Throw e, w) => (inr (NoResponse e), with_server w b)
    end
  else (inr (NoResponse (lit "Network Error")), b).

(** A decimal literal of an integer. *)
Definition z_literal (z : Z) : str :=
  match z with
  | Z0 => Json.of_number 0
  | Zpos p => Json.of_number (Npos p)
  | Zneg p => "-"%char :: Json.of_number (Npos p)
  end.

Definition value_of_message (m : Message) : value :=
  JObject [ (units_of (lit "id"), JNumber (Json.of_number (m_id m)));
            (units_of (lit "content"), JString (units_of (Db.content m)));
            (units_of (lit "sender"), JString (units_of (Db.sender m)));
            (units_of (lit "timestamp"),
             JNumber (Json.of_number (Db.timestamp m))) ].

(** [response.data]: the body that the route passed to [res.json]. *)
Definition data_of (b : Body) : value :=
  match b with
  | reply_body reply => value_of_reply reply
  | error_body e None => JObject [ (units_of (lit "error"),
                                    JString (units_of e)) ]
  | error_body e (Some m) =>
      JObject [ (units_of (lit "error"), JString (units_of e));
                (units_of (lit "message"), JString (units_of m)) ]
  | messages_body rows page total count =>
      JObject [ (units_of (lit "messages"),
                 JArray (map value_of_message rows));
                (units_of (lit "pagination"),
                 JObject [ (units_of (lit "currentPage"),
                            JNumber (z_literal page));
                           (units_of (lit "totalPages"),
                            JNumber (z_literal total));
                           (units_of (lit "totalMessages"),
                            JNumber (z_literal count)) ]) ]
  | message_body m => JObject [ (units_of (lit "message"),
                                 JString (units_of m)) ]
  end.

(** [error.message] of what [axios] rejects with. *)
Definition error_message (e : AxiosError) : str :=
  match e with
  | BadStatus resp =>
      lit "Request failed with status code " ++ Json.of_number (status resp)
  | NoResponse m => m
  end.

(** [error.response?.data?.error], when it is a string. *)
Definition response_error (e : AxiosError) : option str :=
  match e with
  | BadStatus {| status := _; body := error_body text _ |} => Some text
  | _ => None
  end.

(** [a || b] on strings that may be undefined. *)
Definition or_else (a : option str) (b : str) : str :=
  match a with
  | Some (c :: s) => c :: s
  | _ => b
  end.

(** [error.response?.data?.error || error.message || 'Sorry, ...']. *)
Definition errorMsg (e : AxiosError) : str :=
  or_else (response_error e)
    (or_else (Some (error_message e))
       (lit "Sorry, I encountered an error. Please try again.")).

Definition typed (text sender : str) (now : N) : ChatMessage :=
  {| c_id := None; c_content := JString (units_of text);
     c_sender := sender; c_timestamp := now |}.

(** [sendMessage]; [now1] and [now2] are the readings of the clock for the
    user message and for the message that follows it. *)
Definition sendMessage (now1 now2 : N) (b : Browser) : Browser :=
  let input := inputMessage (ui b) in
  match trim input with
  | [] => b
  | _ :: _ =>
      let userMessage := typed input (lit "user") now1 in
      let sent_ui (last : ChatMessage) (err : option str) : Ui :=
        {| messages := messages (ui b) ++ [userMessage; last];
           inputMessage := []; loading := false; error := err |} in
      match axios (POST_api_chat (Some input)) b with
      | (inl response, b') =>
          let botMessage :=
            {| c_id := None; c_content := data_of (body response);
               c_sender := lit "bot"; c_timestamp := now2 |} in
          with_ui (sent_ui botMessage None) b'
      | (inr e, b') =>
          let errorMessage := typed (errorMsg e) (lit "bot") now2 in
          with_ui (sent_ui errorMessage (Some (errorMsg e))) b'
      end
  end.

(** [{...msg, content: JSON.parse(msg.content)}] for every row; [None]
    when [JSON.parse] throws on one of them. *)
Fixpoint parse_rows (rows : list Message) : option (list ChatMessage) :=
  match rows with
  | [] => Some []
  | msg :: rest =>
      match JSON_parse (Db.content msg) with
      | None => None
      | Some v =>
          match parse_rows rest with
          | None => None
          | Some out =>
              Some ({| c_id := Some (m_id msg); c_content := v;
                       c_sender := Db.sender msg;
                       c_timestamp := Db.timestamp msg |} :: out)
          end
      end
  end.

Definition set_loaded (msgs : option (list ChatMessage)) (b : Browser)
  : Browser :=
  match msgs with
  | Some l =>
      with_ui {| messages := l; inputMessage := inputMessage (ui b);
                 loading := false; error := error (ui b) |} b
  | None =>
      console_error (lit "Error loading chat history:")
        (with_ui {| messages := messages (ui b);
                    inputMessage := inputMessage (ui b);
                    loading := false;
                    error := Some (lit "Failed to load chat history") |} b)
  end.

(** [loadChatHistory]. *)
Definition loadChatHistory (b : Browser) : Browser :=
  match axios (GET_api_messages None None) b with
  | (inl {| status := _; body := messages_body rows _ _ _ |}, b') =>
      set_loaded (parse_rows rows) b'
  | (_, b') => set_loaded None b'
  end.

(** [clearHistory]. *)
Definition clearHistory (b : Browser) : Browser :=
  match axios DELETE_api_messages b with
  | (inl _, b') =>
      with_ui {| messages := []; inputMessage := inputMessage (ui b');
                 loading := loading (ui b'); error := error (ui b') |} b'
  | (inr _, b') =>
      console_error (lit "Error clearing chat history:")
        (with_ui {| messages := messages (ui b');
                    inputMessage := inputMessage (ui b');
                    loading := loading (ui b');
                    error := Some (lit "Failed to clear chat history") |} b')
  end.

(** The page as it is first rendered, in front of a server. *)
Definition opened (w : World) : Browser :=
  {| ui := {| messages := []; inputMessage := []; loading := false;
              error := None |};
     server := w; online := true; log := [] |}.

Definition type_input (text : str) (b : Browser) : Browser :=
  with_ui {| messages := messages (ui b); inputMessage := text;
             loading := loading (ui b); error := error (ui b) |} b.

(** The elements that a message content is rendered as: a paragraph with
    its child, or the table with the children of the three cells of each
    of its rows.  A child is a JavaScript value, or undefined ([None]). *)
Inductive Element : Type :=
| Paragraph (child : option value)
| Table (rows : list (option value * option value * option value)).

(** [v.name] for one of the names that the page reads ([type], [content],
    [category], [data_key], [data_value]), on a value other than null: the
    value of the last member with that name of an object, and undefined on
    anything else. *)
Definition property (name : str) (v : value) : option value :=
  match v with
  | JObject members =>
      fold_left
        (fun found member =>
           if list_eq_dec N.eq_dec (fst member) (units_of name)
           then Some (snd member) else found)
        members None
  | _ => None
  end.

(** The row of one item of [data.map]; [None] is the TypeError of reading
    a property of null. *)
Definition render_item (item : value)
  : option (option value * option value * option value) :=
  match item with
  | JNull => None
  | _ => Some (property (lit "category") item,
               property (lit "data_key") item,
               property (lit "data_value") item)
  end.

Fixpoint render_items (items : list value)
  : option (list (option value * option value * option value)) :=
  match items with
  | [] => Some []
  | item :: rest =>
      match render_item item with
      | None => None
      | Some row =>
          match render_items rest with
          | None => None
          | Some rows => Some (row :: rows)
          end
      end
  end.

(** [renderDataTable]; [None] is the TypeError of [data.map] on what is
    not an array, or of an item that is null. *)
Definition renderDataTable (data : option value) : option Element :=
  match data with
  | Some (JArray items) =>
      match render_items items with
      | Some rows => Some (Table rows)
      | None => None
      end
  | _ => None
  end.

(** [renderMessageContent]; [None] is a TypeError. *)
Definition renderMessageContent (message : ChatMessage) : option Element :=
  match c_content message with
  | JString units => Some (Paragraph (Some (JString units)))
  | JNull => None
  | content =>
      match property (lit "type") content with
      | Some (JString units) =>
          if list_eq_dec N.eq_dec units (units_of (lit "data"))
          then renderDataTable (property (lit "content") content)
          else Some (Paragraph (property (lit "content") content))
      | _ => Some (Paragraph (property (lit "content") content))
      end
  end.

(** The cells that the table shows for a fact. *)
Definition cells_of_fact (f : Fact)
  : option value * option value * option value :=
  (Some (JString (units_of (category f))),
   Some (JString (units_of (data_key f))),
   Some (JString (units_of (data_value f)))).

(** What a reply is to be shown as. *)
Definition element_of_reply (reply : Answer) : Element :=
  match reply with
  | DataAnswer rows => Table (map cells_of_fact rows)
  | TextAnswer text => Paragraph (Some (JString (units_of text)))
  end.

(** Every message of the page can be rendered. *)
Definition renderable (u : Ui) : Prop :=
  Forall (fun m => renderMessageContent m <> None) (messages u).

End Client.

(* ================================================================== *)
(** * Facts about text *)

Section TextFacts.

Lemma starts_with_app (k s : str) : starts_with k (k ++ s) = true.
Proof.
  induction k as [|a k IH]; simpl; [reflexivity|].
  now rewrite Ascii.eqb_refl.
Qed.

Lemma starts_with_split (k s : str) :
  starts_with k s = true -> exists t, s = k ++ t.
Proof.
  revert s; induction k as [|a k IH]; intros s H.
  - now exists s.
  - destruct s as [|c s]; simpl in H; [discriminate|].
    apply andb_true_iff in H as [Hc Hk].
    apply Ascii.eqb_eq in Hc; subst c.
    destruct (IH _ Hk) as [t ->].
    now exists t.
Qed.

Lemma includes_split (k s : str) :
  includes k s = true -> exists s1 s2, s = s1 ++ k ++ s2.
Proof.
  induction s as [|c s IH]; simpl; intro H.
  - apply orb_true_iff in H as [H|H]; [|discriminate].
    apply starts_with_split in H as [t Ht].
    now exists [], t.
  - apply orb_true_iff in H as [H|H].
    + apply starts_with_split in H as [t Ht].
      now exists [], t.
    + destruct (IH H) as (s1 & s2 & ->).
      now exists (c :: s1), s2.
Qed.

Lemma lower_char_backslash (c : ascii) :
  lower_char c = Like.backslash -> c = Like.backslash.
Proof.
  destruct c as [[] [] [] [] [] [] [] []]; vm_compute; congruence.
Qed.

Lemma lower_keeps_backslash_out (s : str) :
  ~ In Like.backslash s -> ~ In Like.backslash (Like.LOWER s).
Proof.
  intros H Hin.
  apply in_map_iff in Hin as (c & Hc & Hin).
  apply lower_char_backslash in Hc; subst c.
  exact (H Hin).
Qed.

Lemma LOWER_app (a b : str) :
  Like.LOWER (a ++ b) = Like.LOWER a ++ Like.LOWER b.
Proof. apply map_app. Qed.

End TextFacts.

(* ================================================================== *)
(** * Facts about LIKE *)

Section LikeFacts.

Import Like.

Lemma match_any_unfold (p : list tok) (s : str) :
  match_toks (TAny :: p) s =
  match_toks p s ||
  match s with
  | [] => false
  | _ :: s' => match_toks (TAny :: p) s'
  end.
Proof. destruct s; reflexivity. Qed.

(** [%] can swallow any run of characters. *)
Lemma match_any_skip (p : list tok) (s1 s2 : str) :
  match_toks p s2 = true -> match_toks (TAny :: p) (s1 ++ s2) = true.
Proof.
  intro H; induction s1 as [|c s1 IH].
  - rewrite match_any_unfold; simpl; now rewrite H.
  - change ((c :: s1) ++ s2) with (c :: (s1 ++ s2)).
    rewrite match_any_unfold, IH.
    apply orb_true_r.
Qed.

Lemma match_any_inv (p : list tok) (s : str) :
  match_toks (TAny :: p) s = true ->
  exists s1 s2, s = s1 ++ s2 /\ match_toks p s2 = true.
Proof.
  induction s as [|c s IH]; rewrite match_any_unfold; intro H.
  - rewrite orb_false_r in H. now exists [], [].
  - apply orb_true_iff in H as [H|H].
    + now exists [], (c :: s).
    + destruct (IH H) as (s1 & s2 & -> & Hm).
      now exists (c :: s1), s2.
Qed.

Lemma match_any_all (s : str) : match_toks [TAny] s = true.
Proof.
  rewrite <- (app_nil_r s).
  now apply match_any_skip.
Qed.

Lemma parse_plain (q r : str) :
  ~ In backslash q ->
  parse (q ++ r) = option_map (app (map tok_of_char q)) (parse r).
Proof.
  induction q as [|c q IH]; intro H.
  - simpl. now destruct (parse r).
  - assert (Hc : Ascii.eqb c backslash = false).
    { apply Ascii.eqb_neq. intro E. apply H. now left. }
    assert (Hq : ~ In backslash q) by (intro; apply H; now right).
    simpl app. cbn [parse]. rewrite Hc, (IH Hq).
    unfold tok_of_char.
    destruct (Ascii.eqb c percent); [|destruct (Ascii.eqb c underscore)];
      now destruct (parse r).
Qed.

(** Every unescaped character is matched by its own token: a literal by
    itself, [_] as any one character, [%] as a run of length one. *)
Lemma match_self (q : str) (p : list tok) (s : str) :
  match_toks p s = true ->
  match_toks (map tok_of_char q ++ p) (q ++ s) = true.
Proof.
  intro H; induction q as [|c q IH]; [exact H|].
  simpl map. simpl app. unfold tok_of_char at 1.
  destruct (Ascii.eqb c percent) eqn:E1.
  - change (c :: q ++ s) with ([c] ++ (q ++ s)).
    now apply match_any_skip.
  - destruct (Ascii.eqb c underscore) eqn:E2; cbn [match_toks].
    + exact IH.
    + now rewrite Ascii.eqb_refl.
Qed.

(** A pattern that ends in [%] is never refused. *)
Lemma parse_percent_end_aux (n : nat) :
  forall x : str, List.length x <= n -> parse (x ++ [percent]) <> None.
Proof.
  induction n as [|n IH]; intros x Hn.
  - destruct x; [|simpl in Hn; lia]. vm_compute; discriminate.
  - destruct x as [|c x]; [vm_compute; discriminate|].
    simpl in Hn. simpl app. cbn [parse].
    assert (Hx : parse (x ++ [percent]) <> None) by (apply IH; lia).
    destruct (Ascii.eqb c backslash).
    + destruct x as [|d x]; [vm_compute; discriminate|].
      simpl app.
      assert (Hy : parse (x ++ [percent]) <> None)
        by (apply IH; simpl in Hn; lia).
      cbv iota.
      destruct (parse (x ++ [percent])); [simpl; discriminate|congruence].
    + destruct (Ascii.eqb c percent); [|destruct (Ascii.eqb c underscore)];
        (destruct (parse (x ++ [percent]));
         [simpl; discriminate|congruence]).
Qed.

Lemma parse_percent_end (x : str) : parse (x ++ [percent]) <> None.
Proof. now apply (parse_percent_end_aux (List.length x)). Qed.

Lemma like_percent_end (text x : str) :
  like text (x ++ [percent]) = Some (holds (like text (x ++ [percent]))).
Proof.
  unfold like.
  destruct (parse (x ++ [percent])) eqn:E; [reflexivity|].
  now apply parse_percent_end in E.
Qed.

(** [text LIKE '%' || q || '%'] holds when [q], free of backslashes,
    occurs in [text]. *)
Lemma like_infix (q s1 s2 : str) :
  ~ In backslash q ->
  like (s1 ++ q ++ s2) ([percent] ++ q ++ [percent]) = Some true.
Proof.
  intro H. unfold like.
  change ([percent] ++ q ++ [percent]) with (percent :: (q ++ [percent])).
  cbn [parse]. change (Ascii.eqb percent backslash) with false.
  change (Ascii.eqb percent percent) with true. cbv iota.
  rewrite (parse_plain q [percent] H).
  change (parse [percent]) with (Some [TAny]). cbn [option_map].
  f_equal. apply match_any_skip. apply match_self. apply match_any_all.
Qed.

(** [text LIKE q || '%'] holds when [text] starts with [q], free of
    backslashes. *)
Lemma like_prefix (q s2 : str) :
  ~ In backslash q ->
  like (q ++ s2) (q ++ [percent]) = Some true.
Proof.
  intro H. unfold like.
  rewrite (parse_plain q [percent] H).
  change (parse [percent]) with (Some [TAny]). cbn [option_map].
  f_equal. apply match_self. apply match_any_all.
Qed.

(** The empty search term gives the pattern [%%], which matches any text. *)
Lemma like_percent_percent (text : str) :
  like text ([percent] ++ [] ++ [percent]) = Some true.
Proof.
  unfold like. change (parse ([percent] ++ [] ++ [percent]))
    with (Some [TAny; TAny]).
  cbn [option_map]. f_equal.
  rewrite <- (app_nil_l text). apply match_any_skip. apply match_any_all.
Qed.

End LikeFacts.

(* ================================================================== *)
(** * Running statements and helpers *)

Section Running.

Lemma pool_query_fault (q : Query) (w : World) :
  hd false (faults w) = true ->
  pool_query q w = (Throw connection_error, sent w q (store w)).
Proof. intro H; unfold pool_query; now rewrite H. Qed.

Lemma pool_query_run (q : Query) (w : World) :
  hd false (faults w) = false ->
  pool_query q w =
  match exec q (clock w) (store w) with
  | inl e => (Throw e, sent w q (rolled_back q (store w)))
  | inr (rows, s') => (Return rows, sent w q s')
  end.
Proof. intro H; unfold pool_query; now rewrite H. Qed.

(** The seeding of the responses touches neither the messages nor the
    facts. *)
Lemma upsert_response_frame (s s' : Store) (v : str * str) :
  upsert_response s v = Some s' ->
  messages s' = messages s /\ user_data s' = user_data s /\
  responses_id_seq s' = N.succ (responses_id_seq s).
Proof.
  destruct v as [p r]. unfold upsert_response.
  destruct (existsb (has_pattern p) (responses s)).
  - intro H. injection H as <-. now repeat split.
  - destruct (existsb _ (responses s)); [discriminate|].
    intro H. injection H as <-. now repeat split.
Qed.

Lemma seed_responses_frame (vals : list (str * str)) (s s' : Store) :
  seed_responses vals s = inr s' ->
  messages s' = messages s /\ user_data s' = user_data s.
Proof.
  revert s; induction vals as [|v vals IH]; intro s; cbn [seed_responses].
  - intro H. injection H as <-. now split.
  - destruct (upsert_response s v) as [s1|] eqn:E; [|discriminate].
    intro H. destruct (IH _ H) as [-> ->].
    now destruct (upsert_response_frame _ _ _ E) as (-> & -> & _).
Qed.

Lemma exec_seedResponses_frame (now : N) (s s' : Store) (rows : unit) :
  exec seedResponses now s = inr (rows, s') ->
  messages s' = messages s /\ user_data s' = user_data s.
Proof.
  cbn [exec].
  destruct (seed_responses responses_values s) as [n|s1] eqn:E;
    [discriminate|].
  intro H. injection H as _ <-. exact (seed_responses_frame _ _ _ E).
Qed.

(** A refused statement leaves the three tables as they were. *)
Lemma rolled_back_tables (q : Query) (s : Store) :
  messages (rolled_back q s) = messages s /\
  responses (rolled_back q s) = responses s /\
  user_data (rolled_back q s) = user_data s.
Proof.
  destruct q; try (now repeat split).
  unfold rolled_back. now destruct (seed_responses responses_values s).
Qed.

Lemma no_fault_in_S (n : nat) (w : World) :
  no_fault_in (S n) w = true ->
  hd false (faults w) = false /\
  forall q s, no_fault_in n (sent w q s) = true.
Proof.
  unfold no_fault_in, sent; cbn [faults].
  destruct (faults w) as [|b l]; simpl.
  - intros _; split; [reflexivity|]. intros _ _. now rewrite firstn_nil.
  - intro H. apply andb_true_iff in H as [Hb Hl].
    split; [now destruct b|]. intros _ _. exact Hl.
Qed.

Lemma no_fault_in_pred (n : nat) (w : World) :
  no_fault_in (S n) w = true -> no_fault_in n w = true.
Proof.
  unfold no_fault_in. generalize (faults w) as l.
  induction n as [|n IH]; intros l H; [reflexivity|].
  destruct l as [|a l]; [reflexivity|].
  change (firstn (S (S n)) (a :: l)) with (a :: firstn (S n) l) in H.
  change (firstn (S n) (a :: l)) with (a :: firstn n l).
  cbn [forallb] in *. apply andb_true_iff in H as [Ha Hl].
  now rewrite Ha, (IH _ Hl).
Qed.

Lemma saveMessage_fault (c sd : str) (w : World) :
  hd false (faults w) = true ->
  saveMessage c sd w =
  (Throw (lit "Failed to save message"),
   logged (sent w (insertMessage c sd) (store w))
     [lit "Error saving message:"]).
Proof.
  intro H. unfold saveMessage, try_catch.
  now rewrite (pool_query_fault _ _ H).
Qed.

Lemma saveMessage_run (c sd : str) (w : World) :
  hd false (faults w) = false ->
  saveMessage c sd w =
  (Return (fst (insert_message (clock w) c sd (store w))),
   sent w (insertMessage c sd)
     (snd (insert_message (clock w) c sd (store w)))).
Proof.
  intro H. unfold saveMessage, try_catch.
  now rewrite (pool_query_run _ _ H).
Qed.

End Running.

(* ================================================================== *)
(** * Chat turns *)

(** C6.  A request whose [message] is missing or empty is answered with
    status 400 and the error [Message is required], and nothing else
    happens: the world is unchanged, so no statement reaches the store (no
    Message is persisted) and [findResponse] is not run. *)
Theorem C6_missing_message_rejected (message : option str) (w : World) :
  falsy message = true ->
  post_api_chat message w =
  (Return (status_json 400 (error_body (lit "Message is required") None)), w).
Proof.
  destruct message as [[|c s]|]; intro H;
    [reflexivity | discriminate H | reflexivity].
Qed.

Lemma C6_missing_message_rejected_witness :
  post_api_chat (Some []) seeded =
  (Return (status_json 400 (error_body (lit "Message is required") None)),
   seeded) /\
  post_api_chat None seeded =
  (Return (status_json 400 (error_body (lit "Message is required") None)),
   seeded).
Proof.
  split.
  - apply (C6_missing_message_rejected (Some []) seeded). reflexivity.
  - apply (C6_missing_message_rejected None seeded). reflexivity.
Defined.

(** C1, as stated, fails.  On the seeded store with a fault scheduled for the
    third statement, the turn for [hello] persists the user message, computes
    its answer, fails to persist the bot message, and answers with status 500
    instead of the reply. *)
Lemma C1_reply_lost_counterexample :
  let w := with_faults [false; false; true] seeded in
  let hello := lit "hello" in
  let answer :=
    TextAnswer
      (lit "Hi there! I'm your chatbot assistant. How can I help you today?") in
  exists (m : Message) (w1 w2 w3 : World),
    saveMessage hello (lit "user") w = (Return m, w1) /\
    findResponse hello w1 = (Return answer, w2) /\
    saveMessage (JSON_stringify answer) (lit "bot") w2 =
      (Throw (lit "Failed to save message"), w3) /\
    fst (post_api_chat (Some hello) w) =
      Return (internal_error (lit "Failed to save message")) /\
    fst (post_api_chat (Some hello) w) <> Return (json (reply_body answer)).
Proof.
  do 4 eexists.
  split; [vm_compute; reflexivity|].
  split; [vm_compute; reflexivity|].
  split; [vm_compute; reflexivity|].
  split; [vm_compute; reflexivity|].
  vm_compute; discriminate.
Qed.

(** C1, amended.  When the user message has been persisted and the answer
    computed, a failure of the statement that persists the bot message is
    logged by [saveMessage] and by the handler, and the turn fails: the
    caller receives status 500 with the message [Failed to save message]
    and not the reply; the store is left as it was after the answer was
    computed, with the user message and without the bot message. *)
Theorem C1_bot_persist_failure_fails_turn
    (message : str) (w w1 w2 : World) (m : Message) (answer : Answer) :
  message <> [] ->
  saveMessage message (lit "user") w = (Return m, w1) ->
  findResponse message w1 = (Return answer, w2) ->
  hd false (faults w2) = true ->
  post_api_chat (Some message) w =
  (Return (internal_error (lit "Failed to save message")),
   logged
     (sent w2 (insertMessage (JSON_stringify answer) (lit "bot")) (store w2))
     [lit "Error saving message:"; lit "Error processing message:"]).
Proof.
  intros Hne Hsave Hfind Hfault.
  destruct message as [|c message]; [congruence|].
  unfold post_api_chat, try_catch, bind.
  rewrite Hsave, Hfind.
  assert (Hreply : match answer with
                   | DataAnswer rows => DataAnswer rows
                   | TextAnswer text => TextAnswer text
                   end = answer) by now destruct answer.
  rewrite Hreply, (saveMessage_fault _ _ _ Hfault).
  unfold console_error, ret, logged, sent; cbn.
  now rewrite <- app_assoc.
Qed.

Lemma C1_bot_persist_failure_fails_turn_witness :
  let w := with_faults [false; false; true] seeded in
  let w1 := snd (saveMessage (lit "hello") (lit "user") w) in
  let w2 := snd (findResponse (lit "hello") w1) in
  let answer :=
    TextAnswer
      (lit "Hi there! I'm your chatbot assistant. How can I help you today?") in
  post_api_chat (Some (lit "hello")) w =
  (Return (internal_error (lit "Failed to save message")),
   logged
     (sent w2 (insertMessage (JSON_stringify answer) (lit "bot")) (store w2))
     [lit "Error saving message:"; lit "Error processing message:"]).
Proof.
  intros w w1 w2 answer.
  apply (C1_bot_persist_failure_fails_turn (lit "hello") w w1 w2
           (fst (insert_message (clock w) (lit "hello") (lit "user")
                   (store w)))
           answer).
  - discriminate.
  - vm_compute; reflexivity.
  - vm_compute; reflexivity.
  - vm_compute; reflexivity.
Defined.

Section Statements.

Import Like.

Lemma LOWER_search_pattern (term : str) :
  LOWER (search_pattern term) = ([percent] ++ LOWER term) ++ [percent].
Proof.
  unfold search_pattern. rewrite !LOWER_app, app_assoc. reflexivity.
Qed.

Lemma search_cond_total (term : str) (f : Fact) :
  search_cond (search_pattern term) f = Some (fact_matches term f).
Proof.
  unfold fact_matches, search_cond.
  rewrite LOWER_search_pattern.
  rewrite (like_percent_end (LOWER (category f))),
          (like_percent_end (LOWER (data_key f))),
          (like_percent_end (LOWER (data_value f))).
  reflexivity.
Qed.

Lemma exact_cond_total (m : str) (r : ReplyPattern) :
  exact_cond m r = Some (prefix_matches m r).
Proof. unfold prefix_matches, exact_cond. apply like_percent_end. Qed.

Lemma fuzzy_cond_total (m : str) (r : ReplyPattern) :
  fuzzy_cond m r = Some (infix_matches m r).
Proof.
  unfold infix_matches, fuzzy_cond, ilike.
  rewrite !LOWER_app, app_assoc.
  change (LOWER [percent]) with [percent].
  apply like_percent_end.
Qed.

Lemma where_rows_filter {R : Type} (cond : R -> option bool)
    (f : R -> bool) (rows : list R) :
  (forall r, cond r = Some (f r)) ->
  where_rows cond rows = Some (filter f rows).
Proof.
  intro H; induction rows as [|r rows IH]; [reflexivity|].
  simpl. now rewrite H, IH.
Qed.

Lemma first_row_find {R : Type} (cond : R -> option bool)
    (f : R -> bool) (rows : list R) :
  (forall r, cond r = Some (f r)) ->
  first_row cond rows =
  Some (match find f rows with Some r => [r] | None => [] end).
Proof.
  intro H; induction rows as [|r rows IH]; [reflexivity|].
  simpl. rewrite H. now destruct (f r).
Qed.

Lemma exec_searchQuery (term : str) (now : N) (s : Store) :
  exec (searchQuery (search_pattern term)) now s =
  inr (filter (fact_matches term) (user_data s), s).
Proof.
  cbn [exec].
  now rewrite (where_rows_filter _ _ _ (search_cond_total term)).
Qed.

Lemma exec_exactQuery (m : str) (now : N) (s : Store) :
  exec (exactQuery m) now s = inr (first_response (prefix_matches m) s, s).
Proof.
  cbn [exec]. unfold first_response.
  rewrite (first_row_find _ _ _ (exact_cond_total m)).
  now destruct (find (prefix_matches m) (responses s)).
Qed.

Lemma exec_fuzzyQuery (m : str) (now : N) (s : Store) :
  exec (fuzzyQuery m) now s = inr (first_response (infix_matches m) s, s).
Proof.
  cbn [exec]. unfold first_response.
  rewrite (first_row_find _ _ _ (fuzzy_cond_total m)).
  now destruct (find (infix_matches m) (responses s)).
Qed.

Lemma filter_none {A : Type} (f : A -> bool) (l : list A) :
  (forall x, In x l -> f x = false) -> filter f l = [].
Proof.
  induction l as [|a l IH]; intro H; [reflexivity|].
  simpl. rewrite (H a (or_introl eq_refl)).
  apply IH. intros x Hx. apply H. now right.
Qed.

Lemma filter_all {A : Type} (f : A -> bool) (l : list A) :
  (forall x, f x = true) -> filter f l = l.
Proof.
  intro H; induction l as [|a l IH]; [reflexivity|].
  simpl. now rewrite H, IH.
Qed.

Lemma find_none_iff {A : Type} (f : A -> bool) (l : list A) :
  (forall x, In x l -> f x = false) -> find f l = None.
Proof.
  induction l as [|a l IH]; intro H; [reflexivity|].
  simpl. rewrite (H a (or_introl eq_refl)).
  apply IH. intros x Hx. apply H. now right.
Qed.

Lemma find_exists {A : Type} (f : A -> bool) (l : list A) (x : A) :
  In x l -> f x = true -> exists y, find f l = Some y.
Proof.
  induction l as [|a l IH]; intros Hin Hf; [destruct Hin|].
  simpl. destruct (f a) eqn:E; [now exists a|].
  destruct Hin as [->|Hin]; [congruence|].
  now apply IH.
Qed.

End Statements.

Section ResolverRuns.

Lemma searchUserData_run (term : str) (w : World) :
  hd false (faults w) = false ->
  searchUserData term w =
  (Return (filter (fact_matches term) (user_data (store w))),
   sent w (searchQuery (search_pattern term)) (store w)).
Proof.
  intro H. unfold searchUserData, try_catch.
  fold (search_pattern term).
  now rewrite (pool_query_run _ _ H), exec_searchQuery.
Qed.

Lemma dataQuery_no_trigger (message : str) (w : World) :
  TriggerRe.re_match (toLowerCase message) = None ->
  dataQuery message w = (Return None, w).
Proof. intro H. unfold dataQuery. now rewrite H. Qed.

Lemma dataQuery_trigger (message : str) (w : World) :
  TriggerRe.re_match (toLowerCase message) <> None ->
  hd false (faults w) = false ->
  dataQuery message w =
  (let data :=
     filter (fact_matches (search_term message)) (user_data (store w)) in
   Return
     match data with
     | [] => None
     | _ :: _ => Some (DataAnswer data)
     end,
   sent w (searchQuery (search_pattern (search_term message))) (store w)).
Proof.
  intros Ht Hf. unfold dataQuery.
  destruct (TriggerRe.re_match (toLowerCase message)); [|congruence].
  fold (search_term message). unfold bind.
  rewrite (searchUserData_run _ _ Hf).
  now destruct (filter _ _).
Qed.

Lemma findResponse_data (message : str) (w w1 : World) (a : Answer) :
  dataQuery message w = (Return (Some a), w1) ->
  findResponse message w = (Return a, w1).
Proof.
  intro H. unfold findResponse, try_catch, bind. now rewrite H.
Qed.

Lemma patternResponse_prefix (message : str) (w : World) (r : ReplyPattern) :
  hd false (faults w) = false ->
  find (prefix_matches (toLowerCase message)) (responses (store w)) = Some r ->
  patternResponse message w =
  (Return (TextAnswer (response_or_fallback [response r])),
   sent w (exactQuery (toLowerCase message)) (store w)).
Proof.
  intros Hf Hr. unfold patternResponse, bind.
  rewrite (pool_query_run _ _ Hf), exec_exactQuery.
  unfold first_response. now rewrite Hr.
Qed.

Lemma patternResponse_infix (message : str) (w : World) :
  no_fault_in 2 w = true ->
  find (prefix_matches (toLowerCase message)) (responses (store w)) = None ->
  patternResponse message w =
  (Return (TextAnswer (response_or_fallback
             (first_response (infix_matches (toLowerCase message))
                (store w)))),
   sent (sent w (exactQuery (toLowerCase message)) (store w))
     (fuzzyQuery (toLowerCase message)) (store w)).
Proof.
  intros Hf Hr. unfold patternResponse, bind.
  apply no_fault_in_S in Hf as [Hf1 Hf2].
  rewrite (pool_query_run _ _ Hf1), exec_exactQuery.
  unfold first_response at 1. rewrite Hr.
  specialize (Hf2 (exactQuery (toLowerCase message)) (store w)).
  apply no_fault_in_S in Hf2 as [Hf2 _].
  rewrite (pool_query_run _ _ Hf2), exec_fuzzyQuery.
  reflexivity.
Qed.

Lemma findResponse_pattern (message : str) (w w1 w2 : World) (a : Answer) :
  dataQuery message w = (Return None, w1) ->
  patternResponse message w1 = (Return a, w2) ->
  findResponse message w = (Return a, w2).
Proof.
  intros H1 H2. unfold findResponse, try_catch, bind. now rewrite H1, H2.
Qed.

End ResolverRuns.

(* ================================================================== *)
(** * The LIKE search against the substring search *)

Section LikeAgainstSubstring.

Import Like.

Lemma lower_char_special (c : ascii) :
  (lower_char c = percent -> c = percent) /\
  (lower_char c = underscore -> c = underscore).
Proof.
  destruct c as [[] [] [] [] [] [] [] []]; vm_compute; split; congruence.
Qed.

Lemma plain_LOWER (term : str) : plain term -> plain (LOWER term).
Proof.
  intros H c Hc.
  apply in_map_iff in Hc as (d & <- & Hd).
  destruct (H d Hd) as (H1 & H2 & H3).
  repeat split; intro E.
  - apply H1. now apply lower_char_special.
  - apply H2. now apply lower_char_special.
  - apply H3. now apply lower_char_backslash.
Qed.

Lemma plain_no_backslash (term : str) : plain term -> ~ In backslash term.
Proof. intros H Hin. now destruct (H _ Hin) as (_ & _ & E). Qed.

Lemma plain_toks (q : str) : plain q -> map tok_of_char q = map TLit q.
Proof.
  intro H. apply map_ext_in. intros c Hc.
  destruct (H c Hc) as (H1 & H2 & _).
  unfold tok_of_char.
  apply Ascii.eqb_neq in H1, H2. now rewrite H1, H2.
Qed.

Lemma match_literals_inv (q : str) (p : list tok) (s : str) :
  match_toks (map TLit q ++ p) s = true ->
  exists t, s = q ++ t /\ match_toks p t = true.
Proof.
  revert s; induction q as [|a q IH]; intros s H.
  - now exists s.
  - destruct s as [|c s]; cbn in H; [discriminate|].
    apply andb_true_iff in H as [Hc Hm].
    apply Ascii.eqb_eq in Hc; subst c.
    destruct (IH _ Hm) as (t & -> & Ht).
    now exists t.
Qed.

Lemma includes_infix (k s1 s2 : str) : includes k (s1 ++ k ++ s2) = true.
Proof.
  induction s1 as [|c s1 IH].
  - destruct (k ++ s2) eqn:E; simpl.
    + destruct k; [reflexivity|discriminate].
    + rewrite <- E, starts_with_app. reflexivity.
  - simpl. rewrite IH. apply orb_true_r.
Qed.

Lemma fact_matches_fields (term : str) (f : Fact) :
  fact_matches term f =
  field_matches term (category f) ||
  field_matches term (data_key f) ||
  field_matches term (data_value f).
Proof.
  unfold fact_matches, search_cond, field_matches.
  rewrite LOWER_search_pattern.
  rewrite (like_percent_end (LOWER (category f))),
          (like_percent_end (LOWER (data_key f))),
          (like_percent_end (LOWER (data_value f))).
  reflexivity.
Qed.

Lemma includes_field_matches (term text : str) :
  ~ In backslash term ->
  includes (LOWER term) (LOWER text) = true ->
  field_matches term text = true.
Proof.
  intros Hb Hi.
  apply includes_split in Hi as (s1 & s2 & E).
  unfold field_matches, search_pattern.
  rewrite E, !LOWER_app. change (LOWER [percent]) with [percent].
  now rewrite (like_infix _ s1 s2 (lower_keeps_backslash_out _ Hb)).
Qed.

Lemma field_matches_includes (term text : str) :
  plain term ->
  field_matches term text = true ->
  includes (LOWER term) (LOWER text) = true.
Proof.
  intros Hp Hm.
  apply plain_LOWER in Hp.
  unfold field_matches, search_pattern, like in Hm.
  rewrite !LOWER_app in Hm. change (LOWER [percent]) with [percent] in Hm.
  change ([percent] ++ LOWER term ++ [percent])
    with (percent :: (LOWER term ++ [percent])) in Hm.
  cbn [parse] in Hm.
  change (Ascii.eqb percent backslash) with false in Hm.
  change (Ascii.eqb percent percent) with true in Hm. cbv iota in Hm.
  rewrite (parse_plain _ [percent] (plain_no_backslash _ Hp)) in Hm.
  change (parse [percent]) with (Some [TAny]) in Hm.
  cbn [option_map holds] in Hm.
  rewrite (plain_toks _ Hp) in Hm.
  apply match_any_inv in Hm as (s1 & s' & E & Hm).
  apply match_literals_inv in Hm as (s2 & -> & _).
  rewrite E. apply includes_infix.
Qed.

Lemma field_matches_plain (term text : str) :
  plain term ->
  field_matches term text = includes (LOWER term) (LOWER text).
Proof.
  intro Hp.
  destruct (includes (LOWER term) (LOWER text)) eqn:Ei.
  - now apply includes_field_matches; [apply plain_no_backslash|].
  - destruct (field_matches term text) eqn:Em; [|reflexivity].
    now rewrite (field_matches_includes _ _ Hp Em) in Ei.
Qed.

Lemma contains_matches (term : str) (f : Fact) :
  ~ In backslash term ->
  fact_contains term f = true -> fact_matches term f = true.
Proof.
  intros Hb Hc. rewrite fact_matches_fields.
  unfold fact_contains in Hc.
  apply orb_true_iff in Hc as [Hc|Hc];
    [apply orb_true_iff in Hc as [Hc|Hc]|];
    rewrite (includes_field_matches _ _ Hb Hc);
    now rewrite ?orb_true_r.
Qed.

Lemma matches_contains_plain (term : str) (f : Fact) :
  plain term -> fact_matches term f = fact_contains term f.
Proof.
  intro Hp. rewrite fact_matches_fields. unfold fact_contains.
  now rewrite !(field_matches_plain _ _ Hp).
Qed.

Lemma prefix_matches_of_prefix (m : str) (r : ReplyPattern) :
  ~ In backslash (pattern r) ->
  pattern_is_prefix m r = true -> prefix_matches m r = true.
Proof.
  intros Hb Hp. unfold pattern_is_prefix in Hp.
  apply starts_with_split in Hp as (t & E).
  unfold prefix_matches, exact_cond. rewrite E.
  now rewrite (like_prefix _ t (lower_keeps_backslash_out _ Hb)).
Qed.

End LikeAgainstSubstring.

(* ================================================================== *)
(** * The data-query path of [findResponse] *)

(** C2, as stated, fails.  The store holds one fact whose value contains
    the search term [c:\users] literally.  In the LIKE pattern the
    backslash escapes the next character, so the fact is not found, and
    [findResponse] falls through to both pattern statements and returns
    the fallback text. *)
Lemma C2_backslash_term_counterexample :
  let f := {| f_id := 1; category := lit "paths"; data_key := lit "home";
              data_value := lit "c:\users\john" |} in
  let w := with_user_data [f] seeded in
  let message := lit "find c:\users" in
  TriggerRe.re_match (toLowerCase message) = Some (lit "find") /\
  search_term message = lit "c:\users" /\
  fact_contains (search_term message) f = true /\
  fst (findResponse message w) = Return (TextAnswer fallback) /\
  trace (snd (findResponse message w)) =
    trace w ++ [searchQuery (lit "%c:\users%");
                exactQuery (lit "find c:\users");
                fuzzyQuery (lit "find c:\users")].
Proof. vm_compute. repeat split. Qed.

(** C2, amended.  For a message that contains a trigger keyword,
    [findResponse] removes the keywords, trims, and sends the remainder as
    the LIKE pattern [%term%], compared case-insensitively with category,
    key and value of every fact.  When at least one fact satisfies that
    condition the answer is a [DataAnswer] with exactly the satisfying facts
    in store order, and the search statement is the only one sent: no
    pattern statement follows.  Every fact that contains a backslash-free
    term as a case-insensitive substring satisfies the condition, and for a
    term without [%], [_] and backslash the condition is that substring
    test. *)
Theorem C2_trigger_search_returns_matches (message : str) (w : World) :
  let term := search_term message in
  let facts := user_data (store w) in
  let rows := filter (fact_matches term) facts in
  TriggerRe.re_match (toLowerCase message) <> None ->
  hd false (faults w) = false ->
  (rows <> [] ->
   findResponse message w =
   (Return (DataAnswer rows),
    sent w (searchQuery (search_pattern term)) (store w))) /\
  (~ In Like.backslash term ->
   forall f, In f facts -> fact_contains term f = true -> In f rows) /\
  (plain term -> forall f, fact_matches term f = fact_contains term f).
Proof.
  intros term facts rows Ht Hf. split; [|split].
  - intro Hrows. apply findResponse_data.
    rewrite (dataQuery_trigger _ _ Ht Hf).
    fold term facts rows. cbv zeta.
    destruct rows; [congruence|reflexivity].
  - intros Hb f Hin Hc. apply filter_In. split; [exact Hin|].
    now apply contains_matches.
  - intros Hp f. now apply matches_contains_plain.
Qed.

Lemma C2_trigger_search_returns_matches_witness :
  findResponse (lit "Find JOHN") seeded =
  (Return (DataAnswer (firstn 2 (user_data (store seeded)))),
   sent seeded (searchQuery (lit "%john%")) (store seeded)).
Proof.
  assert (Ht : TriggerRe.re_match (toLowerCase (lit "Find JOHN")) <> None)
    by (vm_compute; discriminate).
  assert (Hf : hd false (faults seeded) = false) by reflexivity.
  destruct (C2_trigger_search_returns_matches (lit "Find JOHN") seeded Ht Hf)
    as [H _].
  apply H. vm_compute. discriminate.
Defined.

(** Messages made only of trigger keywords and whitespace. *)
Section OnlyKeywords.

Lemma match_at_keyword (k rest : str) :
  In k TriggerRe.alternatives -> TriggerRe.match_at (k ++ rest) = Some k.
Proof.
  intro H. repeat (destruct H as [<-|H]; [reflexivity|]). destruct H.
Qed.

Lemma match_at_space (c : ascii) (rest : str) :
  is_ws c = true -> TriggerRe.match_at (c :: rest) = None.
Proof.
  intro H. unfold TriggerRe.match_at, TriggerRe.alternatives.
  destruct c as [[] [] [] [] [] [] [] []]; try discriminate H; reflexivity.
Qed.

Lemma replace_from_skip (k rest : str) :
  TriggerRe.replace_from (List.length k) (k ++ rest) =
  TriggerRe.replace_from 0 rest.
Proof. induction k as [|a k IH]; [reflexivity|exact IH]. Qed.

Lemma replace_keyword (k rest : str) :
  In k TriggerRe.alternatives ->
  TriggerRe.replace_from 0 (k ++ rest) = TriggerRe.replace_from 0 rest.
Proof.
  intro H. pose proof (match_at_keyword k rest H) as Hm.
  destruct k as [|a k].
  - repeat (destruct H as [H|H]; [discriminate H|]). destruct H.
  - change ((a :: k) ++ rest) with (a :: (k ++ rest)) in *.
    cbn [TriggerRe.replace_from]. rewrite Hm.
    replace (List.length (a :: k) - 1) with (List.length k)
      by (cbn [List.length]; lia).
    apply replace_from_skip.
Qed.

Lemma replace_items_spaces (items : list str) :
  Forall keyword_or_space items ->
  forallb is_ws (TriggerRe.re_replace_all (List.concat items)) = true.
Proof.
  unfold TriggerRe.re_replace_all.
  induction 1 as [|item items Hi _ IH]; [reflexivity|].
  cbn [List.concat]. destruct Hi as [k Hk|c Hc].
  - now rewrite replace_keyword.
  - change ([c] ++ List.concat items) with (c :: List.concat items).
    cbn [TriggerRe.replace_from].
    rewrite (match_at_space _ _ Hc). cbn [forallb].
    now rewrite Hc, IH.
Qed.

Lemma trimStart_spaces (s : str) : forallb is_ws s = true -> trimStart s = [].
Proof.
  induction s as [|c s IH]; [reflexivity|].
  cbn [forallb trimStart]. intro H.
  apply andb_true_iff in H as [Hc Hs]. rewrite Hc. now apply IH.
Qed.

Lemma trim_spaces (s : str) : forallb is_ws s = true -> trim s = [].
Proof.
  intro H. unfold trim, trimEnd. now rewrite (trimStart_spaces _ H).
Qed.

Lemma re_match_keyword (pre k post : str) :
  In k TriggerRe.alternatives ->
  TriggerRe.re_match (pre ++ k ++ post) <> None.
Proof.
  intro H. induction pre as [|c pre IH].
  - cbn [app]. destruct (k ++ post) eqn:E;
      cbn [TriggerRe.re_match]; rewrite <- E, (match_at_keyword _ _ H);
      discriminate.
  - change ((c :: pre) ++ k ++ post) with (c :: (pre ++ k ++ post)).
    cbn [TriggerRe.re_match].
    now destruct (TriggerRe.match_at (c :: pre ++ k ++ post)).
Qed.

Lemma re_match_items (items : list str) :
  Exists (fun k => In k TriggerRe.alternatives) items ->
  TriggerRe.re_match (List.concat items) <> None.
Proof.
  intro H. apply Exists_exists in H as (k & Hin & Hk).
  apply in_split in Hin as (l1 & l2 & ->).
  rewrite concat_app. cbn [List.concat].
  now apply re_match_keyword.
Qed.

Lemma fact_matches_empty_term (f : Fact) : fact_matches [] f = true.
Proof.
  unfold fact_matches, search_cond, search_pattern.
  change (Like.LOWER ([Like.percent] ++ [] ++ [Like.percent]))
    with ([Like.percent] ++ [] ++ [Like.percent]).
  now rewrite !like_percent_percent.
Qed.

End OnlyKeywords.

(** C10.  A message made only of trigger keywords and whitespace, with at
    least one keyword, has the empty search term; the pattern [%%] built
    from it is satisfied by every fact; so on a non-empty fact table the
    answer is a [DataAnswer] with all the facts, after the search statement
    alone. *)
Theorem C10_only_keywords_returns_all_facts
    (message : str) (items : list str) (w : World) :
  toLowerCase message = List.concat items ->
  Forall keyword_or_space items ->
  Exists (fun k => In k TriggerRe.alternatives) items ->
  hd false (faults w) = false ->
  search_term message = [] /\
  (forall f, fact_matches (search_term message) f = true) /\
  (user_data (store w) <> [] ->
   findResponse message w =
   (Return (DataAnswer (user_data (store w))),
    sent w (searchQuery (lit "%%")) (store w))).
Proof.
  intros Hitems Hall Hex Hf.
  assert (Hterm : search_term message = []).
  { unfold search_term. rewrite Hitems.
    apply trim_spaces. now apply replace_items_spaces. }
  assert (Ht : TriggerRe.re_match (toLowerCase message) <> None).
  { rewrite Hitems. now apply re_match_items. }
  split; [exact Hterm|]. split.
  - intro f. rewrite Hterm. apply fact_matches_empty_term.
  - intro Hne. apply findResponse_data.
    rewrite (dataQuery_trigger _ _ Ht Hf), Hterm. cbv zeta.
    rewrite (filter_all _ _ fact_matches_empty_term).
    destruct (user_data (store w)); [congruence|reflexivity].
Qed.

Lemma C10_only_keywords_returns_all_facts_witness :
  search_term (lit "Find  get") = [] /\
  findResponse (lit "Find  get") seeded =
  (Return (DataAnswer (user_data (store seeded))),
   sent seeded (searchQuery (lit "%%")) (store seeded)).
Proof.
  assert (H1 : toLowerCase (lit "Find  get") =
               List.concat [lit "find"; lit " "; lit " "; lit "get"])
    by reflexivity.
  assert (H2 : Forall keyword_or_space
                 [lit "find"; lit " "; lit " "; lit "get"]).
  { repeat constructor; vm_compute; tauto. }
  assert (H3 : Exists (fun k => In k TriggerRe.alternatives)
                 [lit "find"; lit " "; lit " "; lit "get"]).
  { apply Exists_cons_hd. vm_compute; tauto. }
  assert (H4 : hd false (faults seeded) = false) by reflexivity.
  destruct (C10_only_keywords_returns_all_facts
              (lit "Find  get") _ seeded H1 H2 H3 H4) as (Ha & _ & Hb).
  split; [exact Ha|]. apply Hb. vm_compute. discriminate.
Defined.

(* ================================================================== *)
(** * The pattern path of [findResponse] *)

(** C3, as stated, fails.  The message starts with the first pattern,
    [c:\temp], but in the LIKE pattern built from it the backslash escapes
    the [t], so the prefix statement finds no row; the containment
    statement runs and answers with the second row. *)
Lemma C3_backslash_pattern_counterexample :
  let r1 := {| r_id := 1; pattern := lit "c:\temp";
               response := lit "That is a scratch folder." |} in
  let r2 := {| r_id := 2; pattern := lit "temp";
               response := lit "Temperature is not available." |} in
  let w := with_responses [r1; r2] fresh in
  let message := lit "c:\temp is full" in
  TriggerRe.re_match (toLowerCase message) = None /\
  pattern_is_prefix (toLowerCase message) r1 = true /\
  prefix_matches (toLowerCase message) r1 = false /\
  fst (findResponse message w) = Return (TextAnswer (response r2)) /\
  trace (snd (findResponse message w)) =
    [exactQuery (toLowerCase message); fuzzyQuery (toLowerCase message)].
Proof. vm_compute. repeat split. Qed.

(** C3, amended.  When the data-query part has not produced an answer and
    some stored pattern without a backslash is a case-insensitive prefix of
    the lower-cased message, the prefix statement finds a row: the answer is
    the response of the first row, in store order, that satisfies the prefix
    condition (the fallback text when that response is empty), and the
    prefix statement is the last one sent, so the containment statement does
    not run, whatever other patterns occur inside the message. *)
Theorem C3_prefix_pass_wins
    (message : str) (w w1 : World) (r : ReplyPattern) :
  dataQuery message w = (Return None, w1) ->
  hd false (faults w1) = false ->
  In r (responses (store w1)) ->
  ~ In Like.backslash (pattern r) ->
  pattern_is_prefix (toLowerCase message) r = true ->
  exists r0,
    find (prefix_matches (toLowerCase message)) (responses (store w1)) =
      Some r0 /\
    findResponse message w =
    (Return (TextAnswer (response_or_fallback [response r0])),
     sent w1 (exactQuery (toLowerCase message)) (store w1)).
Proof.
  intros Hd Hf Hin Hb Hp.
  destruct (find_exists (prefix_matches (toLowerCase message)) _ r Hin
              (prefix_matches_of_prefix _ _ Hb Hp)) as [r0 Hr0].
  exists r0. split; [exact Hr0|].
  apply (findResponse_pattern _ _ _ _ _ Hd).
  now apply patternResponse_prefix.
Qed.

Lemma C3_prefix_pass_wins_witness :
  findResponse (lit "Help me search") seeded =
  (Return (TextAnswer (lit "I can assist you with general questions, provide information, or just chat. What would you like to know?")),
   sent seeded (exactQuery (lit "help me search")) (store seeded)).
Proof.
  destruct (C3_prefix_pass_wins (lit "Help me search") seeded seeded
              {| r_id := 2; pattern := lit "help";
                 response := lit "I can assist you with general questions, provide information, or just chat. What would you like to know?" |})
    as (r0 & Hfind & Hrun).
  - reflexivity.
  - reflexivity.
  - vm_compute. tauto.
  - vm_compute. intuition discriminate.
  - reflexivity.
  - rewrite Hrun. vm_compute in Hfind.
    injection Hfind as <-. reflexivity.
Defined.

(** C5.  When no fact satisfies the search condition (or the message has
    no trigger keyword, so that the search is not made) and no stored
    pattern satisfies the prefix condition or the containment condition,
    [findResponse] returns the fixed fallback text. *)
Theorem C5_no_match_gives_fallback (message : str) (w : World) :
  no_fault_in 3 w = true ->
  (TriggerRe.re_match (toLowerCase message) = None \/
   forall f, In f (user_data (store w)) ->
             fact_matches (search_term message) f = false) ->
  (forall r, In r (responses (store w)) ->
             prefix_matches (toLowerCase message) r = false /\
             infix_matches (toLowerCase message) r = false) ->
  fst (findResponse message w) =
  Return (TextAnswer (lit "I'm not sure how to respond to that. Could you please rephrase or ask something else?")).
Proof.
  intros Hf Hdata Hpat.
  assert (Hp : forall w1 : World,
             store w1 = store w -> no_fault_in 2 w1 = true ->
             fst (patternResponse message w1) = Return (TextAnswer fallback)).
  { intros w1 Hs Hf1.
    rewrite (patternResponse_infix _ _ Hf1);
      rewrite Hs.
    - unfold first_response.
      rewrite find_none_iff; [reflexivity|].
      intros r Hr. now apply Hpat.
    - apply find_none_iff. intros r Hr. now apply Hpat. }
  destruct (TriggerRe.re_match (toLowerCase message)) eqn:Ht.
  - destruct Hdata as [Hdata|Hdata]; [discriminate|].
    apply no_fault_in_S in Hf as [Hf1 Hf2].
    assert (Hd := dataQuery_trigger message w).
    rewrite Ht in Hd. specialize (Hd ltac:(discriminate) Hf1).
    cbv zeta in Hd. rewrite (filter_none _ _ Hdata) in Hd.
    specialize (Hp (sent w (searchQuery
                              (search_pattern (search_term message)))
                      (store w))
                   eq_refl
                   (Hf2 (searchQuery (search_pattern (search_term message)))
                      (store w))).
    destruct (patternResponse message _) as [o w2] eqn:E.
    cbn [fst] in Hp. subst o.
    now rewrite (findResponse_pattern _ _ _ _ _ Hd E).
  - assert (Hf2 : no_fault_in 2 w = true).
    { now apply no_fault_in_pred. }
    specialize (Hp w eq_refl Hf2).
    destruct (patternResponse message w) as [o w2] eqn:E.
    cbn [fst] in Hp. subst o.
    now rewrite (findResponse_pattern _ _ _ _ _
                   (dataQuery_no_trigger _ _ Ht) E).
Qed.

Lemma C5_no_match_gives_fallback_witness :
  fst (findResponse (lit "What is the weather?") seeded) =
  Return (TextAnswer (lit "I'm not sure how to respond to that. Could you please rephrase or ask something else?")) /\
  fst (findResponse (lit "find my keys") seeded) =
  Return (TextAnswer (lit "I'm not sure how to respond to that. Could you please rephrase or ask something else?")).
Proof.
  split.
  - apply (C5_no_match_gives_fallback (lit "What is the weather?") seeded).
    + reflexivity.
    + left. reflexivity.
    + intros r Hr. vm_compute in Hr.
      repeat (destruct Hr as [<-|Hr]; [split; reflexivity|]). destruct Hr.
  - apply (C5_no_match_gives_fallback (lit "find my keys") seeded).
    + reflexivity.
    + right. intros f Hf. vm_compute in Hf.
      repeat (destruct Hf as [<-|Hf]; [reflexivity|]). destruct Hf.
    + intros r Hr. vm_compute in Hr.
      repeat (destruct Hr as [<-|Hr]; [split; reflexivity|]). destruct Hr.
Defined.

Lemma findResponse_no_trigger_cases (message : str) (w : World) :
  TriggerRe.re_match (toLowerCase message) = None ->
  exists (out : Outcome Answer) (w' : World) (qs : list Query),
    findResponse message w = (out, w') /\
    trace w' = trace w ++ qs /\
    Forall is_pattern_query qs /\
    store w' = store w /\
    (out = Throw (lit "Failed to process response") \/
     exists text, out = Return (TextAnswer text)).
Proof.
  intro Ht.
  set (m := toLowerCase message).
  assert (Q1 : is_pattern_query (exactQuery m)) by (exists m; now left).
  assert (Q2 : is_pattern_query (fuzzyQuery m)) by (exists m; now right).
  unfold findResponse, try_catch, bind.
  rewrite (dataQuery_no_trigger _ _ Ht).
  unfold patternResponse, bind. fold m.
  destruct (hd false (faults w)) eqn:E1.
  - rewrite (pool_query_fault _ _ E1).
    do 2 eexists. exists [exactQuery m].
    split; [reflexivity|]. cbn. repeat split; auto.
  - rewrite (pool_query_run _ _ E1), exec_exactQuery.
    destruct (first_response (prefix_matches m) (store w)) as [|x l] eqn:E2.
    + set (w1 := sent w (exactQuery m) (store w)).
      destruct (hd false (faults w1)) eqn:E3.
      * rewrite (pool_query_fault _ _ E3).
        do 2 eexists. exists [exactQuery m; fuzzyQuery m].
        split; [reflexivity|]. cbn. rewrite <- app_assoc.
        repeat split; auto.
      * rewrite (pool_query_run _ _ E3), exec_fuzzyQuery.
        do 2 eexists. exists [exactQuery m; fuzzyQuery m].
        split; [reflexivity|]. cbn. rewrite <- app_assoc.
        repeat split; auto. right. eexists; reflexivity.
    + do 2 eexists. exists [exactQuery m].
      split; [reflexivity|]. cbn.
      repeat split; auto. right. eexists; reflexivity.
Qed.

(** C7.  For a message without a trigger keyword, [findResponse] sends
    only pattern statements, so the fact table is never queried, and any
    answer it returns is a [TextAnswer]; when the store answers the (at most
    two) statements, it does return one. *)
Theorem C7_no_trigger_no_fact_query (message : str) (w : World) :
  TriggerRe.re_match (toLowerCase message) = None ->
  (exists qs,
     trace (snd (findResponse message w)) = trace w ++ qs /\
     forall q, In q qs -> forall p, q <> searchQuery p) /\
  (forall a, fst (findResponse message w) = Return a ->
             exists text, a = TextAnswer text) /\
  (no_fault_in 2 w = true ->
   exists text, fst (findResponse message w) = Return (TextAnswer text)).
Proof.
  intro Ht.
  destruct (findResponse_no_trigger_cases message w Ht)
    as (out & w' & qs & Hrun & Htrace & Hqs & _ & Hout).
  rewrite Hrun. cbn [fst snd]. split; [|split].
  - exists qs. split; [exact Htrace|].
    intros q Hq p ->.
    rewrite Forall_forall in Hqs.
    destruct (Hqs _ Hq) as [m [E|E]]; discriminate E.
  - intros a ->. destruct Hout as [E|[text E]]; [discriminate E|].
    injection E as ->. now exists text.
  - intro Hf.
    pose proof (dataQuery_no_trigger message w Ht) as Hd.
    destruct (find (prefix_matches (toLowerCase message))
                (responses (store w))) as [r|] eqn:Ef.
    + apply no_fault_in_S in Hf as [Hf _].
      pose proof (findResponse_pattern _ _ _ _ _ Hd
                    (patternResponse_prefix _ _ _ Hf Ef)) as E.
      rewrite E in Hrun. injection Hrun as <- _. eexists; reflexivity.
    + pose proof (findResponse_pattern _ _ _ _ _ Hd
                    (patternResponse_infix _ _ Hf Ef)) as E.
      rewrite E in Hrun. injection Hrun as <- _. eexists; reflexivity.
Qed.

Lemma C7_no_trigger_no_fact_query_witness :
  (exists qs,
     trace (snd (findResponse (lit "Good morning") seeded)) =
       trace seeded ++ qs /\
     forall q, In q qs -> forall p, q <> searchQuery p) /\
  exists text,
    fst (findResponse (lit "Good morning") seeded) = Return (TextAnswer text).
Proof.
  destruct (C7_no_trigger_no_fact_query (lit "Good morning") seeded)
    as (H1 & _ & H3).
  - reflexivity.
  - split; [exact H1|]. apply H3. reflexivity.
Defined.

(* ================================================================== *)
(** * Message history *)

Section History.




Lemma insert_by_timestamp_perm (m : Message) (l : list Message) :
  Permutation (m :: l) (insert_by_timestamp m l).
Proof.
  induction l as [|x l IH]; cbn; [reflexivity|].
  destruct (timestamp m <=? timestamp x)%N; [reflexivity|].
  rewrite perm_swap. now constructor.
Qed.

Lemma order_by_timestamp_perm (l : list Message) :
  Permutation l (order_by_timestamp l).
Proof.
  induction l as [|m l IH]; [constructor|].
  change (order_by_timestamp (m :: l))
    with (insert_by_timestamp m (order_by_timestamp l)).
  rewrite <- insert_by_timestamp_perm. now constructor.
Qed.






Lemma delete_api_messages_run (w : World) :
  hd false (faults w) = false ->
  delete_api_messages w =
  (Return (json (message_body (lit "Chat history cleared successfully"))),
   sent w truncateMessages (truncate_messages (store w))).
Proof.
  intro H. unfold delete_api_messages, try_catch, bind.
  now rewrite (pool_query_run _ _ H).
Qed.

End History.



(* ================================================================== *)
(** * What a computation does to the messages table *)

Section Frames.

Variable R : list Message -> list Message -> Prop.
Hypothesis R_refl : forall l, R l l.
Hypothesis R_trans : forall a b c, R a b -> R b c -> R a c.

Lemma respects_ret {A : Type} (a : A) : respects R (ret a).
Proof. intro w. apply R_refl. Qed.

Lemma respects_throw {A : Type} (e : str) : respects R (@throw A e).
Proof. intro w. apply R_refl. Qed.

Lemma respects_console_error (tag : str) : respects R (console_error tag).
Proof. intro w. apply R_refl. Qed.

Lemma respects_bind {A B : Type} (c : Async A) (k : A -> Async B) :
  respects R c -> (forall a, respects R (k a)) -> respects R (bind c k).
Proof.
  intros Hc Hk w. unfold bind.
  specialize (Hc w). destruct (c w) as [[a|e] w1]; cbn [snd] in *.
  - exact (R_trans _ _ _ Hc (Hk a w1)).
  - exact Hc.
Qed.

Lemma respects_try_catch {A : Type} (c : Async A) (h : str -> Async A) :
  respects R c -> (forall e, respects R (h e)) -> respects R (try_catch c h).
Proof.
  intros Hc Hh w. unfold try_catch.
  specialize (Hc w). destruct (c w) as [[a|e] w1]; cbn [snd] in *.
  - exact Hc.
  - exact (R_trans _ _ _ Hc (Hh e w1)).
Qed.

Lemma respects_pool_query (q : Query) :
  (forall now s rows s',
     exec q now s = inr (rows, s') -> R (messages s) (messages s')) ->
  respects R (pool_query q).
Proof.
  intros H w. unfold pool_query.
  destruct (hd false (faults w)); [apply R_refl|].
  destruct (exec q (clock w) (store w)) as [e|[rows s']] eqn:E; cbn.
  - destruct (rolled_back_tables q (store w)) as (-> & _). apply R_refl.
  - exact (H _ _ _ _ E).
Qed.

Lemma respects_findResponse (message : str) : respects R (findResponse message).
Proof.
  assert (Hsearch : forall p, respects R (pool_query (searchQuery p))).
  { intro p. apply respects_pool_query. intros now s rows s'. cbn [exec].
    destruct (where_rows _ _); cbn; intro H; [|discriminate].
    injection H as _ <-. apply R_refl. }
  assert (Hexact : forall m, respects R (pool_query (exactQuery m))).
  { intro m. apply respects_pool_query. intros now s rows s'. cbn [exec].
    destruct (first_row _ _); cbn; intro H; [|discriminate].
    injection H as _ <-. apply R_refl. }
  assert (Hfuzzy : forall m, respects R (pool_query (fuzzyQuery m))).
  { intro m. apply respects_pool_query. intros now s rows s'. cbn [exec].
    destruct (first_row _ _); cbn; intro H; [|discriminate].
    injection H as _ <-. apply R_refl. }
  unfold findResponse. apply respects_try_catch.
  - apply respects_bind.
    + unfold dataQuery.
      destruct (TriggerRe.re_match (toLowerCase message));
        [|apply respects_ret].
      apply respects_bind.
      * unfold searchUserData. apply respects_try_catch; [apply Hsearch|].
        intro e. apply respects_bind;
          [apply respects_console_error|intro; apply respects_throw].
      * intros [|f data]; apply respects_ret.
    + intros [a|]; [apply respects_ret|].
      unfold patternResponse. apply respects_bind; [apply Hexact|].
      intros [|x l]; (apply respects_bind; [|intro; apply respects_ret]);
        [apply Hfuzzy|apply respects_ret].
  - intro e. apply respects_bind;
      [apply respects_console_error|intro; apply respects_throw].
Qed.

Lemma respects_saveMessage (c sd : str) :
  (forall now s,
     R (messages s) (messages (snd (insert_message now c sd s)))) ->
  respects R (saveMessage c sd).
Proof.
  intro H. unfold saveMessage. apply respects_try_catch.
  - apply (respects_pool_query (insertMessage c sd)).
    intros now s rows s'. cbn [exec].
    intro E. injection E as _ <-. apply H.
  - intro e. apply respects_bind;
      [apply respects_console_error|intro; apply respects_throw].
Qed.

End Frames.

Section WellFormed.

Lemma grows_ok_refl (l : list Message) : grows_ok l l.
Proof. exists []. now rewrite app_nil_r. Qed.

Lemma grows_ok_trans (a b c : list Message) :
  grows_ok a b -> grows_ok b c -> grows_ok a c.
Proof.
  intros (x & -> & Hx) (y & -> & Hy).
  exists (x ++ y). rewrite app_assoc. split; [reflexivity|].
  apply Forall_app. now split.
Qed.

Lemma grows_stays (a b : list Message) : grows_ok a b -> stays_ok a b.
Proof.
  intros (x & -> & Hx) Ha. apply Forall_app. now split.
Qed.

Lemma stays_ok_refl (l : list Message) : stays_ok l l.
Proof. now intro. Qed.

Lemma stays_ok_trans (a b c : list Message) :
  stays_ok a b -> stays_ok b c -> stays_ok a c.
Proof. unfold stays_ok. auto. Qed.

Lemma JSON_stringify_nonempty (reply : Answer) : JSON_stringify reply <> [].
Proof. destruct reply; discriminate. Qed.

Lemma insert_message_grows (now : N) (c sd : str) (s : Store) :
  c <> [] -> sd = lit "user" \/ sd = lit "bot" ->
  grows_ok (messages s) (messages (snd (insert_message now c sd s))).
Proof.
  intros Hc Hsd. eexists. split; [reflexivity|].
  constructor; [|constructor]. now split.
Qed.

Lemma post_api_chat_grows (message : option str) :
  respects grows_ok (post_api_chat message).
Proof.
  pose proof grows_ok_refl as Hr. pose proof grows_ok_trans as Ht.
  unfold post_api_chat. apply respects_try_catch; try assumption.
  - destruct message as [[|c message]|]; try (now apply respects_ret).
    apply respects_bind; try assumption.
    + apply respects_saveMessage; try assumption.
      intros now s. apply insert_message_grows; [discriminate|now left].
    + intro. apply respects_bind; try assumption.
      * now apply respects_findResponse.
      * intro response. apply respects_bind; try assumption.
        -- apply respects_saveMessage; try assumption.
           intros now s. apply insert_message_grows;
             [apply JSON_stringify_nonempty|now right].
        -- intro. now apply respects_ret.
  - intro e. apply respects_bind; try assumption.
    + now apply respects_console_error.
    + intro. now apply respects_ret.
Qed.

Lemma get_api_messages_stays (qpage qlimit : option Z) :
  respects stays_ok (get_api_messages qpage qlimit).
Proof.
  pose proof stays_ok_refl as Hr. pose proof stays_ok_trans as Ht.
  unfold get_api_messages. apply respects_try_catch; try assumption.
  - apply respects_bind; try assumption.
    + apply (respects_pool_query _ Hr (selectMessages _ _)).
      intros now s rows s'. cbn [exec].
      destruct (_ <? 0)%Z; [discriminate|].
      destruct (_ <? 0)%Z; [discriminate|].
      intro E. injection E as _ <-. apply Hr.
    + intro. apply respects_bind; try assumption.
      * apply (respects_pool_query _ Hr countMessages).
        intros now s rows s'. cbn [exec].
        intro E. injection E as _ <-. apply Hr.
      * intro. now apply respects_ret.
  - intro e. apply respects_bind; try assumption.
    + now apply respects_console_error.
    + intro. now apply respects_ret.
Qed.

Lemma delete_api_messages_stays : respects stays_ok delete_api_messages.
Proof.
  pose proof stays_ok_refl as Hr. pose proof stays_ok_trans as Ht.
  unfold delete_api_messages. apply respects_try_catch; try assumption.
  - apply respects_bind; try assumption.
    + apply (respects_pool_query _ Hr truncateMessages).
      intros now s rows s'. cbn [exec].
      intro E. injection E as _ <-. intro. constructor.
    + intro. now apply respects_ret.
  - intro e. apply respects_bind; try assumption.
    + now apply respects_console_error.
    + intro. now apply respects_ret.
Qed.

Lemma initDb_stays : respects stays_ok initDb.
Proof.
  pose proof stays_ok_refl as Hr. pose proof stays_ok_trans as Ht.
  unfold initDb. apply respects_try_catch; try assumption.
  - repeat (apply respects_bind; try assumption; [|intro]);
      try (now apply respects_ret).
    + apply (respects_pool_query _ Hr createTables).
      intros now s rows s'. cbn [exec]. intro E. injection E as _ <-.
      apply Hr.
    + apply (respects_pool_query _ Hr seedUserData).
      intros now s rows s'. cbn [exec]. intro E. injection E as _ <-.
      apply Hr.
    + apply (respects_pool_query _ Hr seedResponses).
      intros now s rows s' E.
      destruct (exec_seedResponses_frame _ _ _ _ E) as [-> _]. apply Hr.
  - intro e. now apply respects_console_error.
Qed.

End WellFormed.

Section Turns.

Lemma no_fault_in_le (k n : nat) (w : World) :
  no_fault_in (k + n) w = true -> no_fault_in n w = true.
Proof.
  induction k as [|k IH]; intro H; [exact H|].
  apply IH. now apply no_fault_in_pred.
Qed.

(** With the store answering, the pattern path returns a text. *)
Lemma patternResponse_run (n : nat) (message : str) (w : World) :
  no_fault_in (2 + n) w = true ->
  exists text w',
    patternResponse message w = (Return (TextAnswer text), w') /\
    store w' = store w /\ no_fault_in n w' = true.
Proof.
  intro Hf.
  pose proof (no_fault_in_le n 2 w) as H2.
  rewrite Nat.add_comm in H2. specialize (H2 Hf).
  destruct (no_fault_in_S _ _ Hf) as [Hf1 Hrest].
  destruct (find (prefix_matches (toLowerCase message))
              (responses (store w))) as [r|] eqn:Ef.
  - do 2 eexists. split; [exact (patternResponse_prefix _ _ r Hf1 Ef)|].
    split; [reflexivity|].
    apply no_fault_in_pred. apply Hrest.
  - do 2 eexists. split; [exact (patternResponse_infix _ _ H2 Ef)|].
    split; [reflexivity|].
    specialize (Hrest (exactQuery (toLowerCase message)) (store w)).
    apply no_fault_in_S in Hrest as [_ Hrest]. apply Hrest.
Qed.

(** With the store answering, [findResponse] returns an answer and leaves
    the store as it was. *)
Lemma findResponse_run (n : nat) (message : str) (w : World) :
  no_fault_in (3 + n) w = true ->
  exists answer w',
    findResponse message w = (Return answer, w') /\
    store w' = store w /\ no_fault_in n w' = true.
Proof.
  intro Hf.
  destruct (TriggerRe.re_match (toLowerCase message)) as [k|] eqn:Et.
  - destruct (no_fault_in_S _ _ Hf) as [Hf1 Hrest].
    pose proof (dataQuery_trigger message w) as Hd.
    rewrite Et in Hd. specialize (Hd ltac:(discriminate) Hf1).
    cbv zeta in Hd.
    set (q := searchQuery (search_pattern (search_term message))) in *.
    specialize (Hrest q (store w)).
    destruct (filter (fact_matches (search_term message))
                (user_data (store w))) as [|f data].
    + destruct (patternResponse_run n message _ Hrest)
        as (text & w' & Hp & Hs & Hn).
      exists (TextAnswer text), w'. split; [|now split].
      exact (findResponse_pattern _ _ _ _ _ Hd Hp).
    + do 2 eexists. split; [exact (findResponse_data _ _ _ _ Hd)|].
      split; [reflexivity|]. now apply (no_fault_in_le 2).
  - apply no_fault_in_pred in Hf.
    destruct (patternResponse_run n message _ Hf)
      as (text & w' & Hp & Hs & Hn).
    exists (TextAnswer text), w'. split; [|now split].
    exact (findResponse_pattern _ _ _ _ _
             (dataQuery_no_trigger _ _ Et) Hp).
Qed.

Lemma post_api_chat_nonempty (message : str) (w : World) :
  message <> [] ->
  post_api_chat (Some message) w =
  try_catch
    (saveMessage message (lit "user") ;;
     response <- findResponse message ;;
     let reply :=
       match response with
       | DataAnswer rows => DataAnswer rows
       | TextAnswer text => TextAnswer text
       end in
     saveMessage (JSON_stringify reply) (lit "bot") ;;
     ret (json (reply_body reply)))
    (fun e =>
       console_error (lit "Error processing message:") ;;
       ret (internal_error e)) w.
Proof. destruct message; [congruence|reflexivity]. Qed.

(** With the store answering, a turn persists the user message, then the
    serialized reply, and sends the reply. *)
Lemma post_api_chat_run (message : str) (w : World) :
  message <> [] ->
  no_fault_in 5 w = true ->
  exists reply m1 m2,
    fst (post_api_chat (Some message) w) = Return (json (reply_body reply)) /\
    messages (store (snd (post_api_chat (Some message) w))) =
      messages (store w) ++ [m1; m2] /\
    content m1 = message /\ sender m1 = lit "user" /\
    content m2 = JSON_stringify reply /\ sender m2 = lit "bot".
Proof.
  intros Hne Hf.
  pose (msg := message).
  destruct (no_fault_in_S _ _ Hf) as [Hf1 Hrest].
  pose proof (saveMessage_run msg (lit "user") w Hf1) as Hsave.
  set (w1 := sent w (insertMessage msg (lit "user"))
               (snd (insert_message (clock w) msg (lit "user") (store w))))
    in *.
  specialize (Hrest (insertMessage msg (lit "user")) (store w1)).
  change (sent w (insertMessage msg (lit "user")) (store w1)) with w1
    in Hrest.
  destruct (findResponse_run 1 msg w1 Hrest)
    as (answer & w2 & Hfind & Hstore & Hf2).
  apply no_fault_in_S in Hf2 as [Hf2 _].
  pose proof (saveMessage_run (JSON_stringify answer) (lit "bot") w2 Hf2)
    as Hbot.
  assert (Hreply : match answer with
                   | DataAnswer rows => DataAnswer rows
                   | TextAnswer text => TextAnswer text
                   end = answer) by now destruct answer.
  assert (Hrun : post_api_chat (Some message) w =
                 (Return (json (reply_body answer)),
                  sent w2 (insertMessage (JSON_stringify answer) (lit "bot"))
                    (snd (insert_message (clock w2) (JSON_stringify answer)
                            (lit "bot") (store w2))))).
  { rewrite (post_api_chat_nonempty _ _ Hne). unfold try_catch, bind.
    subst msg. now rewrite Hsave, Hfind, Hreply, Hbot. }
  rewrite Hrun. cbn [fst snd].
  exists answer. do 2 eexists. split; [reflexivity|].
  split; [cbn; rewrite Hstore; cbn; rewrite <- app_assoc; reflexivity|].
  repeat split.
Qed.

End Turns.

(** C9.  A turn adds to the messages table only messages with a non-empty
    content and the sender [user] or [bot]; when the store answers, it adds
    the user message with the validated text and then the bot message whose
    content is the serialized reply, which is never empty.  Every route and
    the start-up seeding keep a well-formed table well formed. *)
Theorem C9_messages_well_formed :
  (forall message w,
     grows_ok (messages (store w))
       (messages (store (snd (post_api_chat message w))))) /\
  (forall message w,
     message <> [] -> no_fault_in 5 w = true ->
     exists reply m1 m2,
       fst (post_api_chat (Some message) w) =
         Return (json (reply_body reply)) /\
       messages (store (snd (post_api_chat (Some message) w))) =
         messages (store w) ++ [m1; m2] /\
       content m1 = message /\ sender m1 = lit "user" /\
       content m2 = JSON_stringify reply /\ sender m2 = lit "bot") /\
  (forall reply, JSON_stringify reply <> []) /\
  (forall req w, messages_ok w -> messages_ok (snd (handle req w))) /\
  (forall w, messages_ok w -> messages_ok (snd (initDb w))).
Proof.
  split; [|split; [|split; [|split]]].
  - intros message w. apply post_api_chat_grows.
  - apply post_api_chat_run.
  - apply JSON_stringify_nonempty.
  - intros [message|page limit|] w; cbn [handle].
    + apply grows_stays, post_api_chat_grows.
    + apply get_api_messages_stays.
    + apply delete_api_messages_stays.
  - intro w. apply initDb_stays.
Qed.

Lemma C9_messages_well_formed_witness :
  messages_ok (snd (handle (POST_api_chat (Some (lit "show"))) seeded)) /\
  exists reply m1 m2,
    fst (post_api_chat (Some (lit "show")) seeded) =
      Return (json (reply_body reply)) /\
    messages (store (snd (post_api_chat (Some (lit "show")) seeded))) =
      messages (store seeded) ++ [m1; m2] /\
    content m1 = lit "show" /\ sender m1 = lit "user" /\
    content m2 = JSON_stringify reply /\ sender m2 = lit "bot".
Proof.
  destruct C9_messages_well_formed as (_ & Hrun & _ & Hkeep & _).
  split.
  - apply Hkeep. constructor.
  - apply Hrun; [discriminate|reflexivity].
Defined.

(* ================================================================== *)
(** * Start-up seeding *)

Section Seeding.

Lemma str_eqb_eq (a b : str) : str_eqb a b = true <-> a = b.
Proof.
  unfold str_eqb. destruct (list_eq_dec ascii_dec a b); split;
    congruence.
Qed.

Lemma has_pattern_eq (p : str) (row : ReplyPattern) :
  has_pattern p row = true <-> pattern row = p.
Proof. apply str_eqb_eq. Qed.

Lemma has_pattern_exists (p : str) (rows : list ReplyPattern) :
  existsb (has_pattern p) rows = true <-> In p (map pattern rows).
Proof.
  rewrite existsb_exists, in_map_iff. split.
  - intros (row & Hin & Hp). exists row. split; [|exact Hin].
    now apply has_pattern_eq.
  - intros (row & Hp & Hin). exists row. split; [exact Hin|].
    now apply has_pattern_eq.
Qed.

(** After the upsert every row with the pattern carries the new response. *)
Lemma upsert_sets_response (s s' : Store) (p r : str) (row : ReplyPattern) :
  upsert_response s (p, r) = Some s' ->
  In row (responses s') ->
  pattern row = p -> response row = r.
Proof.
  unfold upsert_response. cbv beta iota zeta.
  destruct (existsb (has_pattern p) (responses s)) eqn:E.
  - intro H. injection H as <-. cbn [responses]. intros Hin Hp.
    apply in_app_or in Hin as [Hin|Hin].
    + apply filter_In in Hin as [_ Hn]. apply negb_true_iff in Hn.
      apply has_pattern_eq in Hp. congruence.
    + now apply in_map_iff in Hin as (row0 & <- & _).
  - destruct (existsb (fun row0 => (r_id row0 =? responses_id_seq s)%N)
                (responses s)); [discriminate|].
    intro H. injection H as <-. cbn [responses]. intros Hin Hp.
    apply in_app_or in Hin as [Hin|[<-|[]]]; [|reflexivity].
    assert (Hex : existsb (has_pattern p) (responses s) = true).
    { apply has_pattern_exists, in_map_iff. now exists row. }
    congruence.
Qed.

Lemma upsert_keeps_present (s s' : Store) (v : str * str) (q : str) :
  upsert_response s v = Some s' ->
  In q (patterns_of s) -> In q (patterns_of s').
Proof.
  destruct v as [p r]. unfold patterns_of, upsert_response. cbv beta iota zeta.
  destruct (existsb (has_pattern p) (responses s)).
  - intro H. injection H as <-. cbn [responses]. intro Hin.
    apply in_map_iff in Hin as (row & <- & Hin).
    rewrite map_app. apply in_or_app.
    destruct (has_pattern p row) eqn:Hp.
    + right. apply in_map_iff. exists (set_response r row).
      split; [reflexivity|]. apply in_map, filter_In. now split.
    + left. apply in_map, filter_In. split; [exact Hin|].
      now rewrite Hp.
  - destruct (existsb _ (responses s)); [discriminate|].
    intro H. injection H as <-. cbn [responses]. intro Hin.
    rewrite map_app. apply in_or_app. now left.
Qed.

Lemma upsert_makes_present (s s' : Store) (p r : str) :
  upsert_response s (p, r) = Some s' -> In p (patterns_of s').
Proof.
  unfold patterns_of, upsert_response. cbv beta iota zeta.
  destruct (existsb (has_pattern p) (responses s)) eqn:E.
  - intro H. injection H as <-. cbn [responses].
    apply existsb_exists in E as (row & Hrow & Hp).
    rewrite map_app. apply in_or_app. right.
    apply in_map_iff. exists (set_response r row). split.
    + now apply has_pattern_eq.
    + apply in_map, filter_In. now split.
  - destruct (existsb (fun row0 => (r_id row0 =? responses_id_seq s)%N)
                (responses s)); [discriminate|].
    intro H. injection H as <-. cbn [responses].
    rewrite map_app. apply in_or_app. right. now left.
Qed.

(** An upsert of another pattern leaves the rows of a pattern alone. *)
Lemma upsert_other_keeps (s s' : Store) (p r p' r' : str) :
  p' <> p ->
  (forall row, In row (responses s) -> pattern row = p -> response row = r) ->
  upsert_response s (p', r') = Some s' ->
  forall row, In row (responses s') -> pattern row = p -> response row = r.
Proof.
  intros Hneq H. unfold upsert_response. cbv beta iota zeta.
  destruct (existsb (has_pattern p') (responses s)).
  - intro E. injection E as <-. cbn [responses]. intros row Hin Hp.
    apply in_app_or in Hin as [Hin|Hin].
    + apply filter_In in Hin as [Hin _]. now apply H.
    + apply in_map_iff in Hin as (row0 & <- & Hin).
      apply filter_In in Hin as [_ Hp']. apply has_pattern_eq in Hp'.
      cbn in Hp. congruence.
  - destruct (existsb _ (responses s)); [discriminate|].
    intro E. injection E as <-. cbn [responses]. intros row Hin Hp.
    apply in_app_or in Hin as [Hin|[<-|[]]]; [now apply H|].
    cbn in Hp. congruence.
Qed.

(** Rows whose pattern is not the upserted one are kept as they are. *)
Lemma upsert_keeps_other_rows (s s' : Store) (p r : str)
    (row : ReplyPattern) :
  pattern row <> p ->
  upsert_response s (p, r) = Some s' ->
  In row (responses s) -> In row (responses s').
Proof.
  intros Hneq. unfold upsert_response. cbv beta iota zeta.
  destruct (existsb (has_pattern p) (responses s)).
  - intro E. injection E as <-. cbn [responses]. intro Hin.
    apply in_or_app. left. apply filter_In. split; [exact Hin|].
    apply negb_true_iff.
    destruct (has_pattern p row) eqn:Hp; [|reflexivity].
    apply has_pattern_eq in Hp. congruence.
  - destruct (existsb _ (responses s)); [discriminate|].
    intro E. injection E as <-. cbn [responses]. intro Hin.
    apply in_or_app. now left.
Qed.

(** One step of an accepted seeding. *)
Lemma seed_responses_cons (v : str * str) (vals : list (str * str))
    (s s' : Store) :
  seed_responses (v :: vals) s = inr s' ->
  exists s1, upsert_response s v = Some s1 /\ seed_responses vals s1 = inr s'.
Proof.
  cbn [seed_responses].
  destruct (upsert_response s v) as [s1|]; [|discriminate].
  intro H. now exists s1.
Qed.

Lemma seeding_keeps_present (vals : list (str * str)) (s s' : Store)
    (q : str) :
  seed_responses vals s = inr s' ->
  In q (patterns_of s) -> In q (patterns_of s').
Proof.
  revert s; induction vals as [|v vals IH]; intros s E H.
  - cbn in E. now injection E as <-.
  - apply seed_responses_cons in E as (s1 & E1 & E).
    apply (IH _ E). exact (upsert_keeps_present _ _ _ _ E1 H).
Qed.

Lemma seeding_makes_present (vals : list (str * str)) (s s' : Store)
    (p : str) :
  seed_responses vals s = inr s' ->
  In p (map fst vals) -> In p (patterns_of s').
Proof.
  revert s; induction vals as [|[p0 r0] vals IH]; intros s E H;
    [destruct H|].
  apply seed_responses_cons in E as (s1 & E1 & E).
  destruct H as [<-|H].
  - apply (seeding_keeps_present _ _ _ _ E).
    exact (upsert_makes_present _ _ _ _ E1).
  - now apply (IH _ E).
Qed.

Lemma seeding_other_keeps (vals : list (str * str)) (s s' : Store)
    (p r : str) :
  ~ In p (map fst vals) ->
  (forall row, In row (responses s) -> pattern row = p -> response row = r) ->
  seed_responses vals s = inr s' ->
  forall row, In row (responses s') -> pattern row = p -> response row = r.
Proof.
  revert s; induction vals as [|[p' r'] vals IH]; intros s Hnot H E.
  - cbn in E. now injection E as <-.
  - apply seed_responses_cons in E as (s1 & E1 & E).
    apply (IH s1); [| |exact E].
    + intro Hin. apply Hnot. now right.
    + apply (upsert_other_keeps s s1 p r p' r'); [|exact H|exact E1].
      intro Heq. apply Hnot. now left.
Qed.

(** An accepted seeding with values whose patterns are pairwise different
    leaves every seed pattern present, carried only by rows with the seed
    response. *)
Lemma seeding_sets_responses (vals : list (str * str)) (s s' : Store) :
  NoDup (map fst vals) ->
  seed_responses vals s = inr s' ->
  forall p r, In (p, r) vals ->
    In p (patterns_of s') /\
    forall row, In row (responses s') -> pattern row = p -> response row = r.
Proof.
  revert s; induction vals as [|[p0 r0] vals IH]; intros s Hnd E p r Hin;
    [destruct Hin|].
  cbn [map fst] in Hnd. inversion Hnd as [|? ? Hnot Hnd']; subst.
  apply seed_responses_cons in E as (s1 & E1 & E).
  destruct Hin as [Heq|Hin].
  - injection Heq as -> ->. split.
    + apply (seeding_keeps_present _ _ _ _ E).
      exact (upsert_makes_present _ _ _ _ E1).
    + apply (seeding_other_keeps vals s1); [exact Hnot| |exact E].
      intro row. exact (upsert_sets_response _ _ _ _ _ E1).
  - now apply (IH s1).
Qed.

(** Rows whose pattern is not seeded are kept as they are. *)
Lemma seeding_keeps_other_rows (vals : list (str * str)) (s s' : Store)
    (row : ReplyPattern) :
  ~ In (pattern row) (map fst vals) ->
  seed_responses vals s = inr s' ->
  In row (responses s) -> In row (responses s').
Proof.
  revert s; induction vals as [|[p r] vals IH]; intros s Hnot E Hin.
  - cbn in E. now injection E as <-.
  - apply seed_responses_cons in E as (s1 & E1 & E).
    apply (IH s1); [|exact E|].
    + intro H. apply Hnot. now right.
    + apply (upsert_keeps_other_rows s s1 p r); [|exact E1|exact Hin].
      intro Heq. apply Hnot. now left.
Qed.

(** A table whose ids have all been drawn from the sequence refuses no
    row, and stays such a table. *)
Lemma upsert_ids_from_sequence (s : Store) (v : str * str) :
  ids_from_sequence s = true ->
  exists s', upsert_response s v = Some s' /\ ids_from_sequence s' = true.
Proof.
  destruct v as [p r]. unfold ids_from_sequence. intro H.
  assert (Hlt : forall row, In row (responses s) ->
                  (r_id row < N.succ (responses_id_seq s))%N).
  { intros row Hin. apply (proj1 (forallb_forall _ _) H) in Hin.
    apply N.ltb_lt in Hin. lia. }
  unfold upsert_response. cbv beta iota zeta.
  destruct (existsb (has_pattern p) (responses s)).
  - eexists. split; [reflexivity|]. cbn [responses responses_id_seq].
    apply forallb_forall. intros row Hin. apply N.ltb_lt.
    apply in_app_or in Hin as [Hin|Hin].
    + apply filter_In in Hin as [Hin _]. now apply Hlt.
    + apply in_map_iff in Hin as (row0 & <- & Hin).
      apply filter_In in Hin as [Hin _]. cbn [set_response r_id].
      now apply Hlt.
  - destruct (existsb _ (responses s)) eqn:E.
    + apply existsb_exists in E as (row & Hin & Hid).
      apply N.eqb_eq in Hid.
      apply (proj1 (forallb_forall _ _) H) in Hin.
      apply N.ltb_lt in Hin. lia.
    + eexists. split; [reflexivity|]. cbn [responses responses_id_seq].
      apply forallb_forall. intros row Hin. apply N.ltb_lt.
      apply in_app_or in Hin as [Hin|[<-|[]]]; [now apply Hlt|].
      cbn [r_id]. lia.
Qed.

Lemma seeding_ids_from_sequence (vals : list (str * str)) (s : Store) :
  ids_from_sequence s = true ->
  exists s', seed_responses vals s = inr s' /\ ids_from_sequence s' = true.
Proof.
  revert s; induction vals as [|v vals IH]; intros s H.
  - now exists s.
  - destruct (upsert_ids_from_sequence s v H) as (s1 & E1 & H1).
    cbn [seed_responses]. rewrite E1. now apply IH.
Qed.

(** The seeding of the responses looks at the responses and at their
    sequence only. *)
Lemma upsert_response_reads (s t : Store) (v : str * str) :
  responses s = responses t ->
  responses_id_seq s = responses_id_seq t ->
  match upsert_response s v, upsert_response t v with
  | Some s', Some t' =>
      responses s' = responses t' /\
      responses_id_seq s' = responses_id_seq t'
  | None, None => True
  | _, _ => False
  end.
Proof.
  destruct v as [p r]. unfold upsert_response. cbv beta iota zeta.
  intros -> ->.
  destruct (existsb (has_pattern p) (responses t)); [now split|].
  destruct (existsb _ (responses t)); [exact I|now split].
Qed.

Lemma seed_responses_reads (vals : list (str * str)) (s t : Store) :
  responses s = responses t ->
  responses_id_seq s = responses_id_seq t ->
  match seed_responses vals s, seed_responses vals t with
  | inr s', inr t' => responses s' = responses t'
  | inl n, inl m => n = m
  | _, _ => False
  end.
Proof.
  revert s t; induction vals as [|v vals IH]; intros s t Hr Hq;
    cbn [seed_responses]; [exact Hr|].
  pose proof (upsert_response_reads s t v Hr Hq) as H.
  destruct (upsert_response s v) as [s1|], (upsert_response t v) as [t1|];
    try contradiction.
  - destruct H as [Hr1 Hq1]. now apply IH.
  - now rewrite Hq.
Qed.

Lemma seeding_facts_frame (vals : list (str * str * str)) (s : Store) :
  responses (fold_left insert_user_data vals s) = responses s /\
  messages (fold_left insert_user_data vals s) = messages s /\
  List.length (user_data (fold_left insert_user_data vals s)) =
    List.length (user_data s) + List.length vals.
Proof.
  revert s; induction vals as [|[[c k] d] vals IH]; intro s.
  - cbn. repeat split. lia.
  - cbn [fold_left]. destruct (IH (insert_user_data s (c, k, d)))
      as (-> & -> & ->).
    cbn [insert_user_data responses messages user_data List.length].
    rewrite length_app. cbn [List.length]. repeat split. lia.
Qed.

Lemma seeding_facts_sequence (vals : list (str * str * str)) (s : Store) :
  responses_id_seq (fold_left insert_user_data vals s) = responses_id_seq s.
Proof.
  revert s; induction vals as [|[[c k] d] vals IH]; intro s;
    [reflexivity|].
  cbn [fold_left]. now rewrite IH.
Qed.

(** Whether the responses can be seeded does not depend on the facts. *)
Lemma seeds_accepted_facts (s : Store) :
  seeds_accepted (fold_left insert_user_data user_data_values s) =
  seeds_accepted s.
Proof.
  unfold seeds_accepted.
  pose proof (seed_responses_reads responses_values
                (fold_left insert_user_data user_data_values s) s
                (proj1 (seeding_facts_frame _ _))
                (seeding_facts_sequence _ _)) as H.
  now destruct (seed_responses responses_values (fold_left _ _ s)),
               (seed_responses responses_values s).
Qed.

Lemma ids_from_sequence_facts (s : Store) :
  ids_from_sequence (fold_left insert_user_data user_data_values s) =
  ids_from_sequence s.
Proof.
  unfold ids_from_sequence.
  rewrite seeding_facts_sequence.
  now destruct (seeding_facts_frame user_data_values s) as (-> & _).
Qed.

(** A start-up that meets no fault, on a store that accepts the seeding. *)
Lemma initDb_run (w : World) (s2 : Store) :
  no_fault_in 3 w = true ->
  seed_responses responses_values
    (fold_left insert_user_data user_data_values (store w)) = inr s2 ->
  initDb w =
  (Return tt,
   sent (sent (sent w createTables (store w)) seedUserData
           (fold_left insert_user_data user_data_values (store w)))
     seedResponses s2).
Proof.
  intros Hf Hs. unfold initDb, try_catch, bind.
  apply no_fault_in_S in Hf as [Hf1 Hf2].
  rewrite (pool_query_run _ _ Hf1). cbn [exec].
  specialize (Hf2 createTables (store w)).
  apply no_fault_in_S in Hf2 as [Hf2 Hf3].
  rewrite (pool_query_run _ _ Hf2). cbn [exec].
  specialize (Hf3 seedUserData
                (fold_left insert_user_data user_data_values (store w))).
  apply no_fault_in_S in Hf3 as [Hf3 _].
  rewrite (pool_query_run _ _ Hf3). cbn [exec sent store clock].
  now rewrite Hs.
Qed.

(** A start-up that meets no fault, on a store that refuses the seeding
    of the responses. *)
Lemma initDb_refused (w : World) (n : N) :
  no_fault_in 3 w = true ->
  seed_responses responses_values
    (fold_left insert_user_data user_data_values (store w)) = inl n ->
  initDb w =
  (Return tt,
   logged
     (sent (sent (sent w createTables (store w)) seedUserData
              (fold_left insert_user_data user_data_values (store w)))
        seedResponses
        (rolled_back seedResponses
           (fold_left insert_user_data user_data_values (store w))))
     [lit "Database initialization error:"]).
Proof.
  intros Hf Hs. unfold initDb, try_catch, bind.
  apply no_fault_in_S in Hf as [Hf1 Hf2].
  rewrite (pool_query_run _ _ Hf1). cbn [exec].
  specialize (Hf2 createTables (store w)).
  apply no_fault_in_S in Hf2 as [Hf2 Hf3].
  rewrite (pool_query_run _ _ Hf2). cbn [exec].
  specialize (Hf3 seedUserData
                (fold_left insert_user_data user_data_values (store w))).
  apply no_fault_in_S in Hf3 as [Hf3 _].
  rewrite (pool_query_run _ _ Hf3). cbn [exec sent store clock].
  now rewrite Hs.
Qed.

Lemma partition_perm {A : Type} (f : A -> bool) (l : list A) :
  Permutation l (filter (fun x => negb (f x)) l ++ filter f l).
Proof.
  induction l as [|x l IH]; [constructor|].
  cbn [filter]. destruct (f x); cbn [negb app].
  - now apply Permutation_cons_app.
  - now constructor.
Qed.

(** An upsert of a pattern that the table holds is never refused and adds
    no row. *)
Lemma upsert_present (s : Store) (p r : str) :
  In p (patterns_of s) ->
  exists s', upsert_response s (p, r) = Some s' /\
             Permutation (patterns_of s) (patterns_of s').
Proof.
  intro Hin. unfold upsert_response. cbv beta iota zeta.
  apply has_pattern_exists in Hin. rewrite Hin.
  eexists. split; [reflexivity|].
  unfold patterns_of. cbn [responses].
  rewrite map_app, map_map.
  change (map (fun x : ReplyPattern => pattern (set_response r x)))
    with (map pattern).
  rewrite <- map_app. apply Permutation_map, partition_perm.
Qed.

(** Seeding a table that already holds every seed pattern is accepted and
    adds no row. *)
Lemma reseeding_keeps_patterns (vals : list (str * str)) (s : Store) :
  (forall p, In p (map fst vals) -> In p (patterns_of s)) ->
  exists s', seed_responses vals s = inr s' /\
             Permutation (patterns_of s) (patterns_of s').
Proof.
  revert s; induction vals as [|[p r] vals IH]; intros s H.
  - now exists s.
  - destruct (upsert_present s p r) as (s1 & E1 & P1);
      [apply H; now left|].
    destruct (IH s1) as (s' & E & P).
    + intros q Hq. apply (Permutation_in _ P1). apply H. now right.
    + exists s'. cbn [seed_responses]. rewrite E1.
      split; [exact E|]. now rewrite P1.
Qed.

(** Every start-up that meets no fault adds the four seed facts again,
    also when the store refuses the seeding of the responses; while a
    start-up on a store that has been seeded is accepted and adds no
    pattern. *)
Lemma initDb_grows_facts_not_patterns (w : World) :
  no_fault_in 3 w = true ->
  let once := snd (initDb w) in
  List.length (user_data (store once)) =
    List.length (user_data (store w)) + 4 /\
  (seeds_accepted (store w) = true ->
   forall w2, store w2 = store once -> no_fault_in 3 w2 = true ->
     console (snd (initDb w2)) = console w2 /\
     Permutation (patterns_of (store once))
       (patterns_of (store (snd (initDb w2))))).
Proof.
  intros Hf once. subst once.
  assert (Hlen : List.length
                   (user_data
                      (fold_left insert_user_data user_data_values (store w)))
                 = List.length (user_data (store w)) + 4).
  { now destruct (seeding_facts_frame user_data_values (store w))
      as (_ & _ & ->). }
  rewrite <- (seeds_accepted_facts (store w)). unfold seeds_accepted.
  destruct (seed_responses responses_values
              (fold_left insert_user_data user_data_values (store w)))
    as [n|s2] eqn:E.
  - rewrite (initDb_refused _ _ Hf E). cbn [snd logged store sent].
    split; [|discriminate].
    now destruct (rolled_back_tables seedResponses
                    (fold_left insert_user_data user_data_values (store w)))
      as (_ & _ & ->).
  - rewrite (initDb_run _ _ Hf E). cbn [snd store sent].
    split; [now destruct (seed_responses_frame _ _ _ E) as [_ ->]|].
    intros _ w2 Hs Hf2.
    destruct (reseeding_keeps_patterns responses_values
                (fold_left insert_user_data user_data_values (store w2)))
      as (s3 & E3 & P3).
    + intros p Hp. unfold patterns_of.
      destruct (seeding_facts_frame user_data_values (store w2))
        as (-> & _).
      rewrite Hs. exact (seeding_makes_present _ _ _ _ E Hp).
    + rewrite (initDb_run _ _ Hf2 E3). cbn [snd store sent console].
      split; [reflexivity|]. rewrite <- P3. unfold patterns_of.
      destruct (seeding_facts_frame user_data_values (store w2))
        as (-> & _).
      now rewrite Hs.
Qed.

End Seeding.

(** C4.  Two start-ups on an empty store.  The responses table is seeded
    idempotently: after the second [initDb] it holds the same five rows,
    one per pattern, with the seed responses, and the messages table stays
    empty.  The facts are not: [ON CONFLICT DO NOTHING] finds no conflict on
    a table whose only unique column is the serial id, so the second
    [initDb] inserts the four seed facts again and the table holds eight
    rows, each seed fact twice. *)
Theorem C4_second_bootstrap_duplicates_facts :
  let once := snd (initDb fresh) in
  let twice := snd (initDb once) in
  responses (store twice) = responses (store once) /\
  map (fun r => (pattern r, response r)) (responses (store once)) =
    responses_values /\
  NoDup (patterns_of (store twice)) /\
  messages (store twice) = [] /\
  map (fun f => (category f, data_key f, data_value f))
    (user_data (store once)) = user_data_values /\
  map (fun f => (category f, data_key f, data_value f))
    (user_data (store twice)) = user_data_values ++ user_data_values /\
  List.length (user_data (store twice)) = 8 /\
  console twice = [].
Proof.
  cbv zeta.
  repeat split; try (vm_compute; reflexivity).
  vm_compute.
  repeat (constructor; [cbn; intuition discriminate|]). constructor.
Qed.

(* ================================================================== *)
(** * Pages of the history *)

Section Pages.

Lemma insert_by_timestamp_length (m : Message) (l : list Message) :
  List.length (insert_by_timestamp m l) = S (List.length l).
Proof.
  induction l as [|x l IH]; [reflexivity|].
  cbn. destruct (timestamp m <=? timestamp x)%N; cbn; congruence.
Qed.

Lemma order_by_timestamp_length (l : list Message) :
  List.length (order_by_timestamp l) = List.length l.
Proof.
  induction l as [|m l IH]; [reflexivity|].
  change (order_by_timestamp (m :: l))
    with (insert_by_timestamp m (order_by_timestamp l)).
  now rewrite insert_by_timestamp_length, IH.
Qed.

Lemma ceil_div_bounds (n limit : Z) :
  (0 < limit)%Z ->
  ((ceil_div n limit - 1) * limit < n <= ceil_div n limit * limit)%Z.
Proof.
  intro H. unfold ceil_div.
  pose proof (Z.div_mod (- n) limit ltac:(lia)) as E.
  pose proof (Z.mod_pos_bound (- n) limit H) as B.
  nia.
Qed.

Lemma get_api_messages_run (qpage qlimit : option Z) (w : World) :
  let page := or_default qpage 1 in
  let limit := or_default qlimit 50 in
  let offset := ((page - 1) * limit)%Z in
  no_fault_in 2 w = true ->
  (0 <= limit)%Z -> (0 <= offset)%Z ->
  get_api_messages qpage qlimit w =
  (Return (json (messages_body (page_rows limit page (store w)) page
                   (ceil_div (Z.of_nat (List.length (messages (store w))))
                      limit)
                   (Z.of_nat (List.length (messages (store w)))))),
   sent (sent w (selectMessages limit offset) (store w)) countMessages
     (store w)).
Proof.
  intros page limit offset Hf Hl Ho.
  apply no_fault_in_S in Hf as [Hf1 Hf2].
  unfold get_api_messages, try_catch, bind. fold page limit offset.
  rewrite (pool_query_run _ _ Hf1). cbn [exec].
  apply Z.ltb_ge in Hl, Ho. rewrite Hl, Ho.
  specialize (Hf2 (selectMessages limit offset) (store w)).
  apply no_fault_in_S in Hf2 as [Hf2 _].
  rewrite (pool_query_run _ _ Hf2). reflexivity.
Qed.

Lemma or_default_positive (x : option Z) (d : Z) :
  (0 < d)%Z -> (0 <= or_default x d)%Z -> (0 < or_default x d)%Z.
Proof.
  intros Hd H. destruct x as [[|p|p]|]; cbn in *; lia.
Qed.



End Pages.

(** X1.  A fetch that the store answers, for a page number of at least 1
    and a positive page size, returns at most [limit] rows, and the page
    has rows exactly when its number is at most [totalPages]; [totalPages]
    is the least number of pages of that size that hold [totalMessages]
    messages. *)
Theorem X1_page_nonempty_iff_within_total
    (qpage qlimit : option Z) (w : World) :
  let page := or_default qpage 1 in
  let limit := or_default qlimit 50 in
  no_fault_in 2 w = true ->
  (1 <= page)%Z -> (0 < limit)%Z ->
  exists rows totalPages totalMessages,
    fst (get_api_messages qpage qlimit w) =
      Return (json (messages_body rows page totalPages totalMessages)) /\
    totalMessages = Z.of_nat (List.length (messages (store w))) /\
    (Z.of_nat (List.length rows) <= limit)%Z /\
    ((totalPages - 1) * limit < totalMessages <= totalPages * limit)%Z /\
    (rows <> [] <-> (page <= totalPages)%Z).
Proof.
  intros page limit Hf Hp Hl.
  rewrite (get_api_messages_run qpage qlimit w Hf);
    fold page limit; [|lia|nia].
  cbn [fst].
  set (n := Z.of_nat (List.length (messages (store w)))).
  pose proof (ceil_div_bounds n limit Hl) as Hb.
  do 3 eexists. split; [reflexivity|]. split; [reflexivity|].
  unfold page_rows.
  set (sorted := order_by_timestamp (messages (store w))).
  assert (Hn : Z.of_nat (List.length sorted) = n).
  { subst sorted n. now rewrite order_by_timestamp_length. }
  split; [|split; [exact Hb|]].
  - rewrite length_firstn. lia.
  - rewrite <- length_zero_iff_nil, length_firstn, length_skipn.
    split; intro H; nia.
Qed.

Lemma X1_page_nonempty_iff_within_total_witness :
  let w := snd (post_api_chat (Some (lit "hello")) seeded) in
  exists rows totalPages totalMessages,
    fst (get_api_messages (Some 2%Z) (Some 1%Z) w) =
      Return (json (messages_body rows 2 totalPages totalMessages)) /\
    totalMessages = Z.of_nat (List.length (messages (store w))) /\
    (Z.of_nat (List.length rows) <= 1)%Z /\
    ((totalPages - 1) * 1 < totalMessages <= totalPages * 1)%Z /\
    (rows <> [] <-> (2 <= totalPages)%Z).
Proof.
  intro w.
  apply (X1_page_nonempty_iff_within_total (Some 2%Z) (Some 1%Z) w).
  - reflexivity.
  - vm_compute; discriminate.
  - reflexivity.
Defined.



(** X3.  A negative page size, or a negative page number with a positive
    page size, is not refused as a client error: when the statement
    reaches the store, the store refuses it and the route answers with
    status 500, logs the failure, sends no count statement and leaves the
    store as it was. *)
Theorem X3_negative_paging_is_internal_error
    (qpage qlimit : option Z) (w : World) :
  let page := or_default qpage 1 in
  let limit := or_default qlimit 50 in
  let offset := ((page - 1) * limit)%Z in
  hd false (faults w) = false ->
  (limit < 0)%Z \/ (page < 0 /\ 0 < limit)%Z ->
  exists e,
    get_api_messages qpage qlimit w =
    (Return (internal_error e),
     logged (sent w (selectMessages limit offset) (store w))
       [lit "Error fetching messages:"]).
Proof.
  intros page limit offset Hf Hneg.
  unfold get_api_messages, try_catch, bind. fold page limit offset.
  rewrite (pool_query_run _ _ Hf). cbn [exec].
  destruct (limit <? 0)%Z eqn:El; [eexists; reflexivity|].
  apply Z.ltb_ge in El.
  destruct Hneg as [Hneg|[Hp Hl]]; [lia|].
  assert (Eo : (offset <? 0)%Z = true) by (apply Z.ltb_lt; subst offset; nia).
  rewrite Eo. eexists; reflexivity.
Qed.

Lemma X3_negative_paging_is_internal_error_witness :
  (exists e,
     fst (get_api_messages None (Some (-5)%Z) seeded) =
     Return (internal_error e)) /\
  (exists e,
     fst (get_api_messages (Some (-1)%Z) None seeded) =
     Return (internal_error e)).
Proof.
  split.
  - destruct (X3_negative_paging_is_internal_error None (Some (-5)%Z)
                seeded) as [e He];
      [reflexivity | left; reflexivity |].
    exists e. now rewrite He.
  - destruct (X3_negative_paging_is_internal_error (Some (-1)%Z) None
                seeded) as [e He];
      [reflexivity | right; split; reflexivity |].
    exists e. now rewrite He.
Defined.

(* ================================================================== *)
(** * Computations that only read the store *)

Section ReadOnly.

Lemma read_only_ret {A : Type} (a : A) : read_only (ret a).
Proof. now intro w. Qed.

Lemma read_only_throw {A : Type} (e : str) : read_only (@throw A e).
Proof. now intro w. Qed.

Lemma read_only_console_error (tag : str) : read_only (console_error tag).
Proof. now intro w. Qed.

Lemma read_only_bind {A B : Type} (c : Async A) (k : A -> Async B) :
  read_only c -> (forall a, read_only (k a)) -> read_only (bind c k).
Proof.
  intros Hc Hk w. unfold bind. specialize (Hc w).
  destruct (c w) as [[a|e] w1]; cbn [snd] in *; [|exact Hc].
  now rewrite (Hk a w1).
Qed.

Lemma read_only_try_catch {A : Type} (c : Async A) (h : str -> Async A) :
  read_only c -> (forall e, read_only (h e)) -> read_only (try_catch c h).
Proof.
  intros Hc Hh w. unfold try_catch. specialize (Hc w).
  destruct (c w) as [[a|e] w1]; cbn [snd] in *; [exact Hc|].
  now rewrite (Hh e w1).
Qed.

Lemma read_only_pool_query (q : Query) :
  q <> seedResponses ->
  (forall now s rows s', exec q now s = inr (rows, s') -> s' = s) ->
  read_only (pool_query q).
Proof.
  intros Hq H w. unfold pool_query.
  destruct (hd false (faults w)); [reflexivity|].
  destruct (exec q (clock w) (store w)) as [e|[rows s']] eqn:E.
  - cbn. now destruct q.
  - cbn. exact (H _ _ _ _ E).
Qed.

Lemma read_only_log_throw {A : Type} (tag e : str) :
  read_only (console_error tag ;; @throw A e).
Proof.
  apply read_only_bind; [apply read_only_console_error|].
  intro. apply read_only_throw.
Qed.

Lemma read_only_searchQuery (p : str) : read_only (pool_query (searchQuery p)).
Proof.
  apply read_only_pool_query; [discriminate|]. intros now s rows s'.
  cbn [exec].
  destruct (where_rows _ _); cbn; intro H; [|discriminate].
  now injection H as _ <-.
Qed.

Lemma read_only_exactQuery (m : str) : read_only (pool_query (exactQuery m)).
Proof.
  apply read_only_pool_query; [discriminate|]. intros now s rows s'.
  cbn [exec].
  destruct (first_row _ _); cbn; intro H; [|discriminate].
  now injection H as _ <-.
Qed.

Lemma read_only_fuzzyQuery (m : str) : read_only (pool_query (fuzzyQuery m)).
Proof.
  apply read_only_pool_query; [discriminate|]. intros now s rows s'.
  cbn [exec].
  destruct (first_row _ _); cbn; intro H; [|discriminate].
  now injection H as _ <-.
Qed.

Lemma read_only_searchUserData (term : str) : read_only (searchUserData term).
Proof.
  unfold searchUserData. apply read_only_try_catch.
  - apply read_only_searchQuery.
  - intro. apply read_only_log_throw.
Qed.

End ReadOnly.

Lemma read_only_get_api_messages (qpage qlimit : option Z) :
  read_only (get_api_messages qpage qlimit).
Proof.
  unfold get_api_messages. apply read_only_try_catch.
  - apply read_only_bind.
    + apply (read_only_pool_query (selectMessages _ _)); [discriminate|].
      intros now s rows s'. cbn [exec].
      destruct (_ <? 0)%Z; [discriminate|].
      destruct (_ <? 0)%Z; [discriminate|].
      intro E. now injection E as _ <-.
    + intro. apply read_only_bind.
      * apply (read_only_pool_query countMessages); [discriminate|].
        intros now s rows s'. cbn [exec].
        intro E. now injection E as _ <-.
      * intro. apply read_only_ret.
  - intro e. apply read_only_bind;
      [apply read_only_console_error|intro; apply read_only_ret].
Qed.

Lemma read_only_findResponse (message : str) :
  read_only (findResponse message).
Proof.
  unfold findResponse. apply read_only_try_catch.
  - apply read_only_bind.
    + unfold dataQuery.
      destruct (TriggerRe.re_match (toLowerCase message));
        [|apply read_only_ret].
      apply read_only_bind; [apply read_only_searchUserData|].
      intros [|f data]; apply read_only_ret.
    + intros [a|]; [apply read_only_ret|].
      unfold patternResponse.
      apply read_only_bind; [apply read_only_exactQuery|].
      intros [|x l]; (apply read_only_bind; [|intro; apply read_only_ret]);
        [apply read_only_fuzzyQuery|apply read_only_ret].
  - intro. apply read_only_log_throw.
Qed.

(** X4.  Reply resolution only reads: whatever the message and whether or
    not statements fail, [searchUserData] and [findResponse] leave the
    messages, the reply patterns, the facts and the id sequences exactly
    as they found them. *)
Theorem X4_findResponse_reads_only (message : str) :
  read_only (searchUserData message) /\ read_only (findResponse message).
Proof.
  split; [apply read_only_searchUserData|apply read_only_findResponse].
Qed.

(** X5.  The history route only reads: for every page and page size, and
    whether or not its statements fail, [GET /api/messages] leaves the
    store exactly as it found it. *)
Theorem X5_get_api_messages_reads_only (qpage qlimit : option Z) :
  read_only (get_api_messages qpage qlimit).
Proof. apply read_only_get_api_messages. Qed.

(* ================================================================== *)
(** * Failures of a chat turn *)

Section TurnFailures.

(** A helper that logs and rethrows a fixed error either returns or throws
    that error. *)
Lemma try_catch_log_throw {A : Type} (c : Async A) (tag e : str) (w : World) :
  (exists a, fst (try_catch c (fun _ => console_error tag ;; throw e) w)
             = Return a) \/
  fst (try_catch c (fun _ => console_error tag ;; throw e) w) = Throw e.
Proof.
  unfold try_catch. destruct (c w) as [[a|e0] w1].
  - left. now exists a.
  - right. reflexivity.
Qed.

Lemma saveMessage_outcome (c sd : str) (w : World) :
  (exists m, fst (saveMessage c sd w) = Return m) \/
  fst (saveMessage c sd w) = Throw (lit "Failed to save message").
Proof. apply try_catch_log_throw. Qed.

Lemma findResponse_outcome (message : str) (w : World) :
  (exists a, fst (findResponse message w) = Return a) \/
  fst (findResponse message w) = Throw (lit "Failed to process response").
Proof. apply try_catch_log_throw. Qed.

Lemma findResponse_first_fault (message : str) (w : World) :
  hd false (faults w) = true ->
  fst (findResponse message w) = Throw (lit "Failed to process response").
Proof.
  intro Hf. unfold findResponse, try_catch, bind, dataQuery.
  destruct (TriggerRe.re_match (toLowerCase message)).
  - unfold bind, searchUserData, try_catch.
    now rewrite (pool_query_fault _ _ Hf).
  - cbn. unfold patternResponse, bind.
    now rewrite (pool_query_fault _ _ Hf).
Qed.

End TurnFailures.

(** X6.  When the statement that persists the user message fails, the turn
    stops there: the caller receives status 500 with the message [Failed
    to save message], the failure is logged by [saveMessage] and by the
    route, the insert is the only statement sent (the resolver is not
    run) and the store is unchanged. *)
Theorem X6_user_persist_failure_stops_turn (message : str) (w : World) :
  message <> [] ->
  hd false (faults w) = true ->
  post_api_chat (Some message) w =
  (Return (internal_error (lit "Failed to save message")),
   logged (sent w (insertMessage message (lit "user")) (store w))
     [lit "Error saving message:"; lit "Error processing message:"]).
Proof.
  intros Hne Hf.
  rewrite (post_api_chat_nonempty _ _ Hne). unfold try_catch, bind.
  rewrite (saveMessage_fault _ _ _ Hf).
  unfold console_error, ret, logged, sent; cbn.
  now rewrite <- app_assoc.
Qed.

Lemma X6_user_persist_failure_stops_turn_witness :
  let w := with_faults [true] seeded in
  post_api_chat (Some (lit "hello")) w =
  (Return (internal_error (lit "Failed to save message")),
   logged (sent w (insertMessage (lit "hello") (lit "user")) (store w))
     [lit "Error saving message:"; lit "Error processing message:"]).
Proof.
  intro w.
  apply (X6_user_persist_failure_stops_turn (lit "hello") w);
    [discriminate|reflexivity].
Defined.

(** X7.  When the user message has been persisted and the first statement
    of the resolver fails, the caller receives status 500 with the message
    [Failed to process response], and the user message stays in the table
    without a bot message after it. *)
Theorem X7_resolver_failure_keeps_user_message (message : str) (w : World) :
  message <> [] ->
  hd false (faults w) = false ->
  hd false (tl (faults w)) = true ->
  fst (post_api_chat (Some message) w) =
    Return (internal_error (lit "Failed to process response")) /\
  messages (store (snd (post_api_chat (Some message) w))) =
    messages (store w) ++
    [{| m_id := messages_id_seq (store w); content := message;
        sender := lit "user"; timestamp := clock w |}].
Proof.
  intros Hne Hf1 Hf2.
  rewrite (post_api_chat_nonempty _ _ Hne). unfold try_catch, bind.
  rewrite (saveMessage_run _ _ _ Hf1).
  set (w1 := sent w _ _).
  assert (Hw1 : hd false (faults w1) = true) by exact Hf2.
  pose proof (findResponse_first_fault message w1 Hw1) as Hthrow.
  pose proof (read_only_findResponse message w1) as Hstore.
  destruct (findResponse message w1) as [o w2].
  cbn [fst snd] in Hthrow, Hstore. subst o.
  cbn. split; [reflexivity|]. now rewrite Hstore.
Qed.

Lemma X7_resolver_failure_keeps_user_message_witness :
  let w := with_faults [false; true] seeded in
  fst (post_api_chat (Some (lit "find john")) w) =
    Return (internal_error (lit "Failed to process response")) /\
  List.length (messages (store (snd (post_api_chat (Some (lit "find john"))
                                       w)))) = 1.
Proof.
  intro w.
  destruct (X7_resolver_failure_keeps_user_message (lit "find john") w)
    as [H1 H2]; [discriminate|reflexivity|reflexivity|].
  split; [exact H1|]. now rewrite H2.
Defined.

Lemma post_api_chat_answers_nonempty (msg : str) (w : World) :
  msg <> [] ->
  exists resp,
    fst (post_api_chat (Some msg) w) = Return resp /\
    ((exists reply, resp = json (reply_body reply)) \/
     resp = internal_error (lit "Failed to save message") \/
     resp = internal_error (lit "Failed to process response")).
Proof.
  intro Hne.
  rewrite (post_api_chat_nonempty msg w Hne).
  unfold try_catch, bind.
  pose proof (saveMessage_outcome msg (lit "user") w) as H1.
  destruct (saveMessage msg (lit "user") w) as [[m|e] w1]; cbn [fst] in H1.
  - pose proof (findResponse_outcome msg w1) as H2.
    destruct (findResponse msg w1) as [[a|e] w2]; cbn [fst] in H2.
    + assert (Hreply : match a with
                       | DataAnswer rows => DataAnswer rows
                       | TextAnswer text => TextAnswer text
                       end = a) by now destruct a.
      rewrite Hreply.
      pose proof (saveMessage_outcome (JSON_stringify a) (lit "bot") w2)
        as H3.
      destruct (saveMessage (JSON_stringify a) (lit "bot") w2)
        as [[m3|e] w3]; cbn [fst] in H3.
      * eexists; split; [reflexivity|]. left. now exists a.
      * destruct H3 as [[? H3]|H3]; [discriminate|].
        injection H3 as ->.
        eexists; split; [reflexivity|]. right; now left.
    + destruct H2 as [[? H2]|H2]; [discriminate|].
      injection H2 as ->.
      eexists; split; [reflexivity|]. right; now right.
  - destruct H1 as [[? H1]|H1]; [discriminate|].
    injection H1 as ->.
    eexists; split; [reflexivity|]. right; now left.
Qed.

Lemma post_api_chat_answers (message : option str) (w : World) :
  exists resp,
    fst (post_api_chat message w) = Return resp /\
    (resp = status_json 400 (error_body (lit "Message is required") None) \/
     (exists reply, resp = json (reply_body reply)) \/
     resp = internal_error (lit "Failed to save message") \/
     resp = internal_error (lit "Failed to process response")).
Proof.
  destruct message as [[|c message]|];
    [eexists; split; [reflexivity|now left] | |
     eexists; split; [reflexivity|now left]].
  destruct (post_api_chat_answers_nonempty (c :: message) w
              ltac:(discriminate)) as (resp & H & Hcases).
  exists resp. split; [exact H|]. now right.
Qed.

(** X8.  The chat route never throws and has four kinds of answers only:
    status 400 with [Message is required], the reply, status 500 with
    [Failed to save message], or status 500 with [Failed to process
    response].  The text of an error raised by the store never reaches the
    caller of this route. *)
Theorem X8_chat_route_answers (message : option str) (w : World) :
  exists resp,
    fst (post_api_chat message w) = Return resp /\
    (resp = status_json 400 (error_body (lit "Message is required") None) \/
     (exists reply, resp = json (reply_body reply)) \/
     resp = internal_error (lit "Failed to save message") \/
     resp = internal_error (lit "Failed to process response")).
Proof. apply post_api_chat_answers. Qed.

(* ================================================================== *)
(** * Start-up: failures and the seeded patterns *)

Section StartUp.

Lemma no_fault_in_3 (w : World) :
  no_fault_in 3 w =
  negb (hd false (faults w)) &&
  (negb (hd false (tl (faults w))) &&
   negb (hd false (tl (tl (faults w))))).
Proof.
  unfold no_fault_in.
  destruct (faults w) as [|a [|b [|c l]]]; cbn;
    now rewrite ?andb_true_r.
Qed.

End StartUp.

(** X9.  [initDb] never throws.  When one of its three statements fails,
    by a fault or because the store refuses the seeding of the responses,
    it logs [Database initialization error:] once and skips the statements
    that follow; when none fails it logs nothing.  A failure of the first
    or of the second statement leaves the store unchanged.  A seeding of
    the responses that the store refuses leaves the messages and the
    responses as they were, and the facts as the second statement has left
    them. *)
Theorem X9_initDb_never_throws (w : World) :
  fst (initDb w) = Return tt /\
  console (snd (initDb w)) =
    console w ++
    (if no_fault_in 3 w && seeds_accepted (store w) then []
     else [lit "Database initialization error:"]) /\
  (hd false (faults w) = true ->
   snd (initDb w) =
   logged (sent w createTables (store w))
     [lit "Database initialization error:"]) /\
  (hd false (faults w) = false -> hd false (tl (faults w)) = true ->
   snd (initDb w) =
   logged (sent (sent w createTables (store w)) seedUserData (store w))
     [lit "Database initialization error:"]) /\
  (no_fault_in 3 w = true -> seeds_accepted (store w) = false ->
   messages (store (snd (initDb w))) = messages (store w) /\
   responses (store (snd (initDb w))) = responses (store w) /\
   user_data (store (snd (initDb w))) =
     user_data (fold_left insert_user_data user_data_values (store w))).
Proof.
  destruct (no_fault_in 3 w) eqn:Hf.
  - pose proof Hf as Hf'. rewrite no_fault_in_3 in Hf'.
    apply andb_true_iff in Hf' as [H1 Hf'].
    apply andb_true_iff in Hf' as [H2 _].
    apply negb_true_iff in H1, H2.
    rewrite <- (seeds_accepted_facts (store w)). unfold seeds_accepted.
    set (s1 := fold_left insert_user_data user_data_values (store w)).
    destruct (seed_responses responses_values s1) as [n|s2] eqn:E.
    + rewrite (initDb_refused _ _ Hf E). fold s1.
      cbn [fst snd logged console sent store andb].
      destruct (rolled_back_tables seedResponses s1) as (-> & -> & ->).
      subst s1.
      destruct (seeding_facts_frame user_data_values (store w))
        as (-> & -> & _).
      repeat split; congruence.
    + rewrite (initDb_run _ _ Hf E). fold s1.
      cbn [fst snd console sent store andb]. rewrite app_nil_r.
      repeat split; congruence.
  - cbn [andb]. rewrite no_fault_in_3 in Hf.
    unfold initDb, try_catch, bind.
    destruct (hd false (faults w)) eqn:E1.
    + rewrite (pool_query_fault _ _ E1). cbn.
      repeat split; congruence.
    + rewrite (pool_query_run _ _ E1). cbn [exec].
      set (w1 := sent w createTables (store w)).
      change (hd false (tl (faults w))) with (hd false (faults w1)) in *.
      destruct (hd false (faults w1)) eqn:E2.
      * rewrite (pool_query_fault _ _ E2). cbn.
        repeat split; congruence.
      * rewrite (pool_query_run _ _ E2). cbn [exec].
        set (w2 := sent w1 seedUserData _).
        change (hd false (tl (tl (faults w))))
          with (hd false (faults w2)) in Hf.
        destruct (hd false (faults w2)) eqn:E3; [|discriminate].
        rewrite (pool_query_fault _ _ E3). cbn [fst snd negb andb].
        repeat split; congruence.
Qed.

Lemma X9_initDb_never_throws_witness :
  let taken := {| r_id := 1; pattern := lit "thanks";
                  response := lit "You are welcome." |} in
  store (snd (initDb (with_faults [false; true] fresh))) = store fresh /\
  console (snd (initDb (with_faults [false; true] fresh))) =
    [lit "Database initialization error:"] /\
  responses (store (snd (initDb (with_responses [taken] fresh)))) =
    [taken] /\
  console (snd (initDb (with_responses [taken] fresh))) =
    [lit "Database initialization error:"].
Proof.
  intro taken.
  destruct (X9_initDb_never_throws (with_faults [false; true] fresh))
    as (_ & _ & _ & H & _).
  destruct (X9_initDb_never_throws (with_responses [taken] fresh))
    as (_ & Hlog & _ & _ & Hkeep).
  rewrite (H eq_refl eq_refl).
  destruct (Hkeep eq_refl eq_refl) as (_ & -> & _).
  rewrite Hlog. repeat split; reflexivity.
Defined.

(** X10.  After a start-up that meets no fault, on any store in which the
    ids of the responses have all been drawn from their sequence, each of
    the five seed patterns is in the responses table and every row that
    carries a seed pattern has the seed response; a row with another
    pattern is still there, unchanged; and the ids of the table are still
    all drawn from the sequence, so that later start-ups are accepted as
    well. *)
Theorem X10_initDb_seeds_responses (w : World) :
  no_fault_in 3 w = true ->
  ids_from_sequence (store w) = true ->
  console (snd (initDb w)) = console w /\
  (forall p r, In (p, r) responses_values ->
     In p (patterns_of (store (snd (initDb w)))) /\
     forall row, In row (responses (store (snd (initDb w)))) ->
                 pattern row = p -> response row = r) /\
  (forall row, In row (responses (store w)) ->
     ~ In (pattern row) (map fst responses_values) ->
     In row (responses (store (snd (initDb w))))) /\
  ids_from_sequence (store (snd (initDb w))) = true.
Proof.
  intros Hf Hids.
  rewrite <- ids_from_sequence_facts in Hids.
  destruct (seeding_ids_from_sequence responses_values _ Hids)
    as (s2 & E & Hids2).
  rewrite (initDb_run _ _ Hf E). cbn [snd sent store console].
  split; [reflexivity|]. split; [|split; [|exact Hids2]].
  - assert (Hnd : NoDup (map fst responses_values)).
    { vm_compute.
      repeat (constructor; [cbn; intuition discriminate|]). constructor. }
    exact (seeding_sets_responses _ _ _ Hnd E).
  - intros row Hin Hnot.
    apply (seeding_keeps_other_rows _ _ _ _ Hnot E).
    now destruct (seeding_facts_frame user_data_values (store w)) as (-> & _).
Qed.

Lemma X10_initDb_seeds_responses_witness :
  let old := {| r_id := 1; pattern := lit "hello";
                response := lit "Hey." |} in
  let own := {| r_id := 2; pattern := lit "thanks";
                response := lit "You are welcome." |} in
  let w := with_store
             {| messages := []; responses := [old; own]; user_data := [];
                messages_id_seq := 1; responses_id_seq := 3;
                user_data_id_seq := 1 |} fresh in
  (forall row, In row (responses (store (snd (initDb w)))) ->
     pattern row = lit "hello" ->
     response row =
     lit "Hi there! I'm your chatbot assistant. How can I help you today?") /\
  In own (responses (store (snd (initDb w)))) /\
  map r_id (responses (store (snd (initDb w)))) = [2; 1; 4; 5; 6; 7]%N.
Proof.
  intros old own w.
  destruct (X10_initDb_seeds_responses w) as (_ & H1 & H2 & _);
    [reflexivity|reflexivity|].
  split; [|split].
  - apply (H1 (lit "hello")). vm_compute. tauto.
  - apply H2; [vm_compute; tauto|].
    vm_compute. intuition discriminate.
  - reflexivity.
Defined.

(* ================================================================== *)
(** * The resolver as a function of the tables *)

Section Refinement.

Lemma patternResponse_returns (message : str) (w : World) (a : Answer) :
  fst (patternResponse message w) = Return a ->
  a = pattern_answer message (store w).
Proof.
  unfold patternResponse, bind, pattern_answer. cbv zeta.
  set (m := toLowerCase message).
  destruct (hd false (faults w)) eqn:E1.
  - rewrite (pool_query_fault _ _ E1). discriminate.
  - rewrite (pool_query_run _ _ E1), exec_exactQuery.
    destruct (first_response (prefix_matches m) (store w)) as [|x l] eqn:Ep.
    + set (w1 := sent w (exactQuery m) (store w)).
      destruct (hd false (faults w1)) eqn:E2.
      * rewrite (pool_query_fault _ _ E2). discriminate.
      * rewrite (pool_query_run _ _ E2), exec_fuzzyQuery.
        cbn. congruence.
    + cbn. congruence.
Qed.

Lemma findResponse_returns_resolve (message : str) (w : World) (a : Answer) :
  fst (findResponse message w) = Return a -> a = resolve message (store w).
Proof.
  unfold findResponse, try_catch, bind, resolve, dataQuery.
  destruct (TriggerRe.re_match (toLowerCase message)) as [k|].
  - fold (search_term message). unfold bind.
    destruct (hd false (faults w)) eqn:E1.
    + unfold searchUserData, try_catch.
      rewrite (pool_query_fault _ _ E1). discriminate.
    + rewrite (searchUserData_run _ _ E1).
      destruct (filter _ _) as [|f data].
      * cbn [ret].
        set (w1 := sent w _ (store w)).
        pose proof (patternResponse_returns message w1) as Hp.
        destruct (patternResponse message w1) as [[b|e] w2];
          cbn [fst] in *; [|discriminate].
        intro H. injection H as <-. now apply Hp.
      * cbn. congruence.
  - cbn [ret].
    pose proof (patternResponse_returns message w) as Hp.
    destruct (patternResponse message w) as [[b|e] w2];
      cbn [fst] in *; [|discriminate].
    intro H. injection H as <-. now apply Hp.
Qed.

Lemma first_response_ext (f : ReplyPattern -> bool) (s s' : Store) :
  responses s = responses s' -> first_response f s = first_response f s'.
Proof. intro H. unfold first_response. now rewrite H. Qed.

Lemma resolve_ext (message : str) (s s' : Store) :
  responses s = responses s' -> user_data s = user_data s' ->
  resolve message s = resolve message s'.
Proof.
  intros Hr Hu. unfold resolve, pattern_answer. cbv zeta.
  now rewrite Hu, !(first_response_ext _ s s' Hr).
Qed.

Lemma prefix_matches_infix (m : str) (r : ReplyPattern) :
  prefix_matches m r = true -> infix_matches m r = true.
Proof.
  unfold prefix_matches, infix_matches, exact_cond, fuzzy_cond,
    Like.ilike, Like.like.
  rewrite !LOWER_app.
  change (Like.LOWER [Like.percent]) with [Like.percent].
  change ([Like.percent] ++ Like.LOWER (pattern r) ++ [Like.percent])
    with (Like.percent :: (Like.LOWER (pattern r) ++ [Like.percent])).
  cbn [Like.parse].
  change (Ascii.eqb Like.percent Like.backslash) with false.
  change (Ascii.eqb Like.percent Like.percent) with true. cbv iota.
  destruct (Like.parse (Like.LOWER (pattern r) ++ [Like.percent]))
    as [p|]; cbn [option_map Like.holds]; [|discriminate].
  intro H. rewrite <- (app_nil_l (Like.LOWER m)).
  now apply match_any_skip.
Qed.

Lemma first_response_sound (f : ReplyPattern -> bool) (s : Store) (x : str)
    (l : list str) :
  first_response f s = x :: l ->
  exists r, In r (responses s) /\ f r = true /\ x = response r.
Proof.
  unfold first_response.
  destruct (find f (responses s)) as [r|] eqn:E; [|discriminate].
  intro H. injection H as <- _.
  apply find_some in E as [Hin Hf]. now exists r.
Qed.

Lemma pattern_answer_sound (message : str) (s : Store) (text : str) :
  pattern_answer message s = TextAnswer text ->
  text = fallback \/
  exists r, In r (responses s) /\
            infix_matches (toLowerCase message) r = true /\
            text = response r.
Proof.
  unfold pattern_answer. cbv zeta. intro H. injection H as <-.
  destruct (first_response (prefix_matches _) s) as [|x l] eqn:Ep.
  - destruct (first_response (infix_matches _) s) as [|y l'] eqn:Ei;
      [now left|].
    apply first_response_sound in Ei as (r & Hin & Hm & ->).
    destruct (response r) eqn:Er; [now left|].
    right. exists r. cbn. now rewrite Er.
  - apply first_response_sound in Ep as (r & Hin & Hm & ->).
    destruct (response r) eqn:Er; [now left|].
    right. exists r. cbn. rewrite Er.
    repeat split; [exact Hin|now apply prefix_matches_infix].
Qed.

End Refinement.

(** X11.  Whenever [findResponse] returns, under any schedule of
    failures, its answer is [resolve] of the message and the store; when
    the store answers the at most three statements it does return.  The
    answer depends on the reply patterns and the facts only, not on the
    stored messages, the id sequences or the time. *)
Theorem X11_findResponse_computes_resolve (message : str) (w : World) :
  (forall a, fst (findResponse message w) = Return a ->
             a = resolve message (store w)) /\
  (no_fault_in 3 w = true ->
   fst (findResponse message w) = Return (resolve message (store w))) /\
  (forall s', responses (store w) = responses s' ->
              user_data (store w) = user_data s' ->
              resolve message (store w) = resolve message s').
Proof.
  split; [apply findResponse_returns_resolve|]. split.
  - intro Hf.
    destruct (findResponse_run 0 message w Hf) as (a & w' & Hrun & _).
    pose proof (findResponse_returns_resolve message w a) as H.
    rewrite Hrun in *. cbn [fst] in *. now rewrite (H eq_refl).
  - intros s'. apply resolve_ext.
Qed.

Lemma X11_findResponse_computes_resolve_witness :
  fst (findResponse (lit "find dark")
         (snd (post_api_chat (Some (lit "hello")) seeded))) =
  Return (resolve (lit "find dark") (store seeded)).
Proof.
  destruct (X11_findResponse_computes_resolve (lit "find dark")
              (snd (post_api_chat (Some (lit "hello")) seeded)))
    as (_ & H & _).
  rewrite (H eq_refl). reflexivity.
Defined.

(** X12.  What [findResponse] returns is sound.  A [DataAnswer] is
    returned only for a message with a trigger keyword, is never empty and
    holds exactly the facts of the table that satisfy the search
    condition.  The text of a [TextAnswer] is the fallback text or the
    response of a stored row whose pattern satisfies the containment
    condition for the message (a row found by the prefix pass satisfies
    it too). *)
Theorem X12_answers_are_sound (message : str) (w : World) :
  (forall rows,
     fst (findResponse message w) = Return (DataAnswer rows) ->
     TriggerRe.re_match (toLowerCase message) <> None /\
     rows <> [] /\
     forall f, In f rows <->
               In f (user_data (store w)) /\
               fact_matches (search_term message) f = true) /\
  (forall text,
     fst (findResponse message w) = Return (TextAnswer text) ->
     text = fallback \/
     exists r, In r (responses (store w)) /\
               infix_matches (toLowerCase message) r = true /\
               text = response r).
Proof.
  split.
  - intros rows H. apply findResponse_returns_resolve in H.
    unfold resolve in H.
    destruct (TriggerRe.re_match (toLowerCase message));
      [|discriminate H].
    destruct (filter _ _) as [|f0 data] eqn:E; [discriminate H|].
    injection H as ->.
    split; [discriminate|]. split; [discriminate|].
    intro f. rewrite <- E. apply filter_In.
  - intros text H. apply findResponse_returns_resolve in H.
    unfold resolve in H.
    destruct (TriggerRe.re_match (toLowerCase message)).
    + destruct (filter _ _); [|discriminate H].
      now apply pattern_answer_sound.
    + now apply pattern_answer_sound.
Qed.

Lemma X12_answers_are_sound_witness :
  exists r,
    In r (responses (store seeded)) /\
    infix_matches (toLowerCase (lit "well, BYE then")) r = true /\
    lit "Goodbye! Have a great day! Feel free to come back if you need anything."
    = response r.
Proof.
  destruct (X12_answers_are_sound (lit "well, BYE then") seeded)
    as [_ H].
  destruct (H (lit "Goodbye! Have a great day! Feel free to come back if you need anything.")
              eq_refl) as [E|E]; [discriminate E|exact E].
Defined.

(* ================================================================== *)
(** * Removing the trigger keywords *)

Section Replace.

Lemma replace_from_length (s : str) :
  forall n, List.length (TriggerRe.replace_from n s) <= List.length s.
Proof.
  induction s as [|c s IH]; intro n; [reflexivity|].
  cbn [TriggerRe.replace_from List.length].
  destruct n as [|n].
  - destruct (TriggerRe.match_at (c :: s)).
    + specialize (IH (List.length s0 - 1)). lia.
    + cbn [List.length]. specialize (IH 0). lia.
  - specialize (IH n). lia.
Qed.

Lemma replace_no_match (s : str) :
  TriggerRe.re_match s = None -> TriggerRe.replace_from 0 s = s.
Proof.
  induction s as [|c s IH]; [reflexivity|].
  cbn [TriggerRe.re_match TriggerRe.replace_from].
  destruct (TriggerRe.match_at (c :: s)); [discriminate|].
  intro H. now rewrite (IH H).
Qed.

Lemma re_match_nil : TriggerRe.re_match [] = None.
Proof. reflexivity. Qed.

Lemma replace_match_shorter (s : str) :
  TriggerRe.re_match s <> None ->
  List.length (TriggerRe.replace_from 0 s) < List.length s.
Proof.
  induction s as [|c s IH]; [now rewrite re_match_nil|].
  cbn [TriggerRe.re_match TriggerRe.replace_from List.length].
  destruct (TriggerRe.match_at (c :: s)) as [k|].
  - intros _. pose proof (replace_from_length s (List.length k - 1)). lia.
  - intro H. cbn [List.length]. specialize (IH H). lia.
Qed.

End Replace.

(** X13.  The removal of the trigger keywords never lengthens a text; it
    returns a text without a trigger keyword as it is, and makes a text
    with a trigger keyword strictly shorter. *)
Theorem X13_keyword_removal (s : str) :
  List.length (TriggerRe.re_replace_all s) <= List.length s /\
  (TriggerRe.re_match s = None -> TriggerRe.re_replace_all s = s) /\
  (TriggerRe.re_match s <> None ->
   List.length (TriggerRe.re_replace_all s) < List.length s).
Proof.
  unfold TriggerRe.re_replace_all.
  split; [apply replace_from_length|].
  split; [apply replace_no_match|apply replace_match_shorter].
Qed.

Lemma X13_keyword_removal_witness :
  TriggerRe.re_replace_all (lit "what is my name") = lit "what is my name" /\
  List.length (TriggerRe.re_replace_all (lit "get the query")) <
  List.length (lit "get the query").
Proof.
  split.
  - apply (X13_keyword_removal (lit "what is my name")). reflexivity.
  - apply (X13_keyword_removal (lit "get the query")).
    vm_compute. discriminate.
Defined.

(* ================================================================== *)
(** * What the routes leave to the resolver *)

Section Knowledge.

Lemma same_knowledge_refl (s : Store) : same_knowledge s s.
Proof. now split. Qed.

Lemma same_knowledge_trans (a b c : Store) :
  same_knowledge a b -> same_knowledge b c -> same_knowledge a c.
Proof. intros [H1 H2] [H3 H4]. split; congruence. Qed.

Lemma keeps_knowledge_read_only {A : Type} (c : Async A) :
  read_only c -> keeps_knowledge c.
Proof. intros H w. rewrite (H w). apply same_knowledge_refl. Qed.

Lemma keeps_knowledge_bind {A B : Type} (c : Async A) (k : A -> Async B) :
  keeps_knowledge c -> (forall a, keeps_knowledge (k a)) ->
  keeps_knowledge (bind c k).
Proof.
  intros Hc Hk w. unfold bind. specialize (Hc w).
  destruct (c w) as [[a|e] w1]; cbn [snd] in *; [|exact Hc].
  exact (same_knowledge_trans _ _ _ Hc (Hk a w1)).
Qed.

Lemma keeps_knowledge_try_catch {A : Type} (c : Async A)
    (h : str -> Async A) :
  keeps_knowledge c -> (forall e, keeps_knowledge (h e)) ->
  keeps_knowledge (try_catch c h).
Proof.
  intros Hc Hh w. unfold try_catch. specialize (Hc w).
  destruct (c w) as [[a|e] w1]; cbn [snd] in *; [exact Hc|].
  exact (same_knowledge_trans _ _ _ Hc (Hh e w1)).
Qed.

Lemma keeps_knowledge_pool_query (q : Query) :
  (forall now s rows s',
     exec q now s = inr (rows, s') -> same_knowledge s s') ->
  keeps_knowledge (pool_query q).
Proof.
  intros H w. unfold pool_query.
  destruct (hd false (faults w)); [apply same_knowledge_refl|].
  destruct (exec q (clock w) (store w)) as [e|[rows s']] eqn:E; cbn.
  - destruct (rolled_back_tables q (store w)) as (_ & Hr & Hu).
    unfold same_knowledge. now rewrite Hr, Hu.
  - exact (H _ _ _ _ E).
Qed.

Lemma keeps_knowledge_saveMessage (c sd : str) :
  keeps_knowledge (saveMessage c sd).
Proof.
  unfold saveMessage. apply keeps_knowledge_try_catch.
  - apply (keeps_knowledge_pool_query (insertMessage c sd)).
    intros now s rows s'. cbn [exec]. intro E. injection E as _ <-.
    now split.
  - intro. apply keeps_knowledge_read_only, read_only_log_throw.
Qed.

Lemma keeps_knowledge_handler (e : str) (tag : str) :
  keeps_knowledge (console_error tag ;; ret (internal_error e)).
Proof.
  apply keeps_knowledge_read_only, read_only_bind;
    [apply read_only_console_error|intro; apply read_only_ret].
Qed.

Lemma keeps_knowledge_post_api_chat (message : option str) :
  keeps_knowledge (post_api_chat message).
Proof.
  unfold post_api_chat. apply keeps_knowledge_try_catch.
  - destruct message as [[|c message]|];
      try (apply keeps_knowledge_read_only, read_only_ret).
    apply keeps_knowledge_bind; [apply keeps_knowledge_saveMessage|].
    intro. apply keeps_knowledge_bind.
    + apply keeps_knowledge_read_only, read_only_findResponse.
    + intro response. apply keeps_knowledge_bind;
        [apply keeps_knowledge_saveMessage|].
      intro. apply keeps_knowledge_read_only, read_only_ret.
  - intro e. apply keeps_knowledge_handler.
Qed.

Lemma keeps_knowledge_delete_api_messages :
  keeps_knowledge delete_api_messages.
Proof.
  unfold delete_api_messages. apply keeps_knowledge_try_catch.
  - apply keeps_knowledge_bind.
    + apply (keeps_knowledge_pool_query truncateMessages).
      intros now s rows s'. cbn [exec]. intro E. injection E as _ <-.
      now split.
    + intro. apply keeps_knowledge_read_only, read_only_ret.
  - intro e. apply keeps_knowledge_handler.
Qed.

End Knowledge.

(** X14.  No route changes what the resolver answers: after any request
    to the chat, history or clear route, under any schedule of failures,
    the reply patterns and the facts are the ones before it, and [resolve]
    gives every message the answer it gave before.  Clearing the history
    in particular does not change later answers. *)
Theorem X14_routes_keep_answers (req : Request) (w : World) :
  same_knowledge (store w) (store (snd (handle req w))) /\
  forall message,
    resolve message (store (snd (handle req w))) =
    resolve message (store w).
Proof.
  assert (H : same_knowledge (store w) (store (snd (handle req w)))).
  { destruct req as [message|qpage qlimit|]; cbn [handle].
    - apply keeps_knowledge_post_api_chat.
    - apply keeps_knowledge_read_only, read_only_get_api_messages.
    - apply keeps_knowledge_delete_api_messages. }
  split; [exact H|]. intro message.
  destruct H as [Hr Hu]. now apply resolve_ext.
Qed.

(** X15.  When the store answers its statements, a turn for a non-empty
    message answers with status 200 and [resolve] of the message on the
    store as it was before the turn, and the bot message that it persists
    holds the serialization of that same reply. *)
Theorem X15_turn_returns_resolve (message : str) (w : World) :
  message <> [] ->
  no_fault_in 5 w = true ->
  let reply := resolve message (store w) in
  fst (post_api_chat (Some message) w) = Return (json (reply_body reply)) /\
  map (fun m => (content m, sender m))
    (messages (store (snd (post_api_chat (Some message) w)))) =
  map (fun m => (content m, sender m)) (messages (store w)) ++
  [(message, lit "user"); (JSON_stringify reply, lit "bot")].
Proof.
  intros Hne Hf reply.
  destruct (post_api_chat_run message w Hne Hf)
    as (a & m1 & m2 & Hresp & Hmsgs & Hc1 & Hs1 & Hc2 & Hs2).
  assert (Ha : a = reply).
  { destruct (no_fault_in_S _ _ Hf) as [Hf1 Hrest].
    pose proof (post_api_chat_nonempty message w Hne) as Hrun.
    unfold try_catch, bind in Hrun.
    rewrite (saveMessage_run _ _ _ Hf1) in Hrun.
    set (w1 := sent w _ _) in Hrun.
    specialize (Hrest (insertMessage message (lit "user")) (store w1)).
    change (sent w (insertMessage message (lit "user")) (store w1))
      with w1 in Hrest.
    destruct (findResponse_run 1 message w1 Hrest)
      as (b & w2 & Hfind & Hstore & Hf2).
    pose proof (findResponse_returns_resolve message w1 b) as Hb.
    rewrite Hfind in Hb. specialize (Hb eq_refl).
    rewrite Hfind in Hrun.
    apply no_fault_in_S in Hf2 as [Hf2 _].
    rewrite (saveMessage_run _ _ _ Hf2) in Hrun.
    rewrite Hrun in Hresp. cbn [fst ret] in Hresp.
    injection Hresp as Hresp.
    assert (Eb : a = b) by (destruct b; cbn in Hresp; congruence).
    rewrite Eb, Hb. subst reply. apply resolve_ext; reflexivity. }
  subst a. split; [exact Hresp|].
  rewrite Hmsgs, map_app. cbn [map]. now rewrite Hc1, Hs1, Hc2, Hs2.
Qed.

Lemma X15_turn_returns_resolve_witness :
  fst (post_api_chat (Some (lit "Find english")) seeded) =
    Return (json (reply_body (resolve (lit "Find english") (store seeded))))
  /\
  resolve (lit "Find english") (store seeded) =
    DataAnswer [{| f_id := 4; category := lit "preferences";
                   data_key := lit "language";
                   data_value := lit "english" |}].
Proof.
  split; [|reflexivity].
  apply (X15_turn_returns_resolve (lit "Find english") seeded);
    [discriminate|reflexivity].
Defined.

(* ================================================================== *)
(** * The JSON parser always decides *)

Section ParserDecides.

Lemma within_le {A : Type} (n m : nat) (r : result A) :
  n <= m -> within n r -> within m r.
Proof. destruct r; cbn; lia. Qed.

Lemma within_and_then {A B : Type} (n m : nat) (r : result A)
    (k : A -> str -> result B) :
  within n r ->
  (forall a rest, List.length rest <= n -> within m (k a rest)) ->
  within m (and_then r k).
Proof. destruct r; cbn; auto. Qed.

Lemma within_cons_to {A : Type} (n : nat) (a : A) (r : result (list A)) :
  within n r -> within n (cons_to a r).
Proof. destruct r; cbn; auto. Qed.

Lemma skip_ws_length (s : str) : List.length (skip_ws s) <= List.length s.
Proof.
  induction s as [|c s IH]; [reflexivity|].
  cbn [skip_ws]. destruct (is_json_ws c); cbn [List.length]; lia.
Qed.

Lemma skip_ws_cons (s r : str) (c : ascii) :
  skip_ws s = c :: r -> List.length r < List.length s.
Proof.
  intro H. pose proof (skip_ws_length s) as L. rewrite H in L.
  cbn in L. lia.
Qed.

(** Each code unit of a string takes at least one character, and so does
    the closing quote. *)
Lemma parse_chars_within (s : str) :
  forall n, List.length s <= n ->
  match parse_chars s with
  | Parsed u rest => List.length u + List.length rest < List.length s
  | SyntaxError => True
  | OutOfFuel => False
  end.
Proof.
  intros n; revert s; induction n as [|n IH]; intros s Hn.
  - destruct s; [exact I|cbn in Hn; lia].
  - destruct s as [|c r]; [exact I|]. cbn [parse_chars].
    destruct (Ascii.eqb c Json.dquote); [cbn; lia|].
    destruct (Ascii.eqb c Like.backslash).
    + destruct r as [|e r1]; [exact I|].
      destruct (Ascii.eqb e "u"%char).
      * destruct r1 as [|h1 [|h2 [|h3 [|h4 r2]]]]; try exact I.
        destruct (hex_value h1), (hex_value h2), (hex_value h3),
          (hex_value h4); try exact I.
        specialize (IH r2 ltac:(cbn in Hn; lia)).
        destruct (parse_chars r2); cbn in *; try exact I; lia.
      * destruct (simple_escape e); [|exact I].
        specialize (IH r1 ltac:(cbn in Hn; lia)).
        destruct (parse_chars r1); cbn in *; try exact I; lia.
    + destruct (N_of_ascii c <? 32)%N; [exact I|].
      specialize (IH r ltac:(cbn in Hn; lia)).
      destruct (parse_chars r); cbn in *; try exact I; lia.
Qed.

Lemma parse_chars_shorter (s : str) :
  within (List.length s - 1) (parse_chars s).
Proof.
  pose proof (parse_chars_within s _ (le_n _)) as H.
  destruct (parse_chars s); cbn in *; auto; lia.
Qed.

Lemma take_digits_length (s : str) :
  List.length (snd (take_digits s)) <= List.length s.
Proof.
  induction s as [|c s IH]; [reflexivity|].
  cbn [take_digits]. destruct (is_digit c); [|reflexivity].
  destruct (take_digits s). cbn in *. lia.
Qed.

Lemma parse_exponent_within (lex s : str) :
  within (List.length s) (parse_exponent lex s).
Proof.
  unfold parse_exponent. destruct s as [|c r]; [cbn; lia|].
  destruct (Ascii.eqb c "e" || Ascii.eqb c "E"); [|cbn; lia].
  assert (H : forall r1 sign, List.length r1 <= List.length r ->
            within (List.length (c :: r))
              match take_digits r1 with
              | ([], _) => SyntaxError
              | (ds, rest) => Parsed (lex ++ [c] ++ sign ++ ds) rest
              end).
  { intros r1 sign Hr. pose proof (take_digits_length r1) as L.
    destruct (take_digits r1) as [[|d ds] rest]; cbn in *; [exact I|lia]. }
  destruct r as [|g r']; [exact I|].
  destruct (Ascii.eqb g "+" || Ascii.eqb g "-");
    [apply (H r' [g])|apply (H (g :: r') [])]; cbn; lia.
Qed.

Lemma parse_fraction_within (lex s : str) :
  within (List.length s) (parse_fraction lex s).
Proof.
  unfold parse_fraction. destruct s as [|c r]; [cbn; lia|].
  destruct (Ascii.eqb c "."); [|apply parse_exponent_within].
  pose proof (take_digits_length r) as L.
  destruct (take_digits r) as [[|d ds] rest]; [exact I|].
  eapply within_le; [|apply parse_exponent_within]. cbn in *. lia.
Qed.

Lemma parse_number_shorter (s : str) :
  within (List.length s - 1) (parse_number s).
Proof.
  unfold parse_number.
  assert (H : forall sign s1, List.length s1 <= List.length s ->
            within (List.length s - 1)
              match s1 with
              | [] => SyntaxError
              | c :: r =>
                  if Ascii.eqb c "0" then parse_fraction (sign ++ [c]) r
                  else if is_digit c
                       then let (ds, rest) := take_digits r in
                            parse_fraction (sign ++ c :: ds) rest
                       else SyntaxError
              end).
  { intros sign [|c r] Hs; [exact I|]. cbn in Hs.
    destruct (Ascii.eqb c "0").
    - eapply within_le; [|apply parse_fraction_within]. lia.
    - destruct (is_digit c); [|exact I].
      pose proof (take_digits_length r) as L.
      destruct (take_digits r) as [ds rest].
      eapply within_le; [|apply parse_fraction_within]. cbn in L. lia. }
  destruct s as [|c r]; [exact I|].
  destruct (Ascii.eqb c "-");
    [apply (H [c] r)|apply (H [] (c :: r))]; cbn; lia.
Qed.

Lemma parse_literal_shorter (word : str) (v : value) (s : str) :
  word <> [] -> within (List.length s - 1) (parse_literal word v s).
Proof.
  intro Hw. unfold parse_literal.
  destruct (starts_with word s) eqn:E; [|exact I].
  apply starts_with_split in E as [t ->]. cbn.
  rewrite length_skipn, length_app.
  destruct word; [congruence|]. cbn. lia.
Qed.

(** With fuel for twice the length of the text the parser never runs out
    of fuel, and what it leaves is shorter than the text. *)
Lemma parser_decides (fuel : nat) :
  (forall s, 2 * List.length s + 1 <= fuel ->
     within (List.length s - 1) (parse_value fuel s)) /\
  (forall s, 2 * List.length s + 2 <= fuel ->
     within (List.length s - 1) (parse_elements fuel s)) /\
  (forall s, 2 * List.length s + 2 <= fuel ->
     within (List.length s - 1) (parse_members fuel s)).
Proof.
  induction fuel as [|fuel (IHv & IHe & IHm)];
    [repeat split; intros s H; lia|].
  split; [|split]; intros s Hf.
  - cbn [parse_value].
    destruct (skip_ws s) as [|c r] eqn:Es; [exact I|].
    pose proof (skip_ws_cons _ _ _ Es) as Lr.
    destruct (Ascii.eqb c "{").
    { destruct (skip_ws r) as [|d r1] eqn:Er; [exact I|].
      pose proof (skip_ws_cons _ _ _ Er) as Lr1.
      destruct (Ascii.eqb d "}"); [cbn; lia|].
      eapply within_and_then; [apply IHm; lia|].
      intros ms rest Hrest. cbn. lia. }
    destruct (Ascii.eqb c "[").
    { destruct (skip_ws r) as [|d r1] eqn:Er; [exact I|].
      pose proof (skip_ws_cons _ _ _ Er) as Lr1.
      destruct (Ascii.eqb d "]"); [cbn; lia|].
      eapply within_and_then; [apply IHe; lia|].
      intros vs rest Hrest. cbn. lia. }
    destruct (Ascii.eqb c Json.dquote).
    { eapply within_and_then; [apply parse_chars_shorter|].
      intros u rest Hrest. cbn. lia. }
    assert (Hlit : forall word v, word <> [] ->
              within (List.length s - 1) (parse_literal word v (c :: r))).
    { intros word v Hw. eapply within_le;
        [|apply parse_literal_shorter; exact Hw]. cbn. lia. }
    destruct (Ascii.eqb c "t"); [apply Hlit; discriminate|].
    destruct (Ascii.eqb c "f"); [apply Hlit; discriminate|].
    destruct (Ascii.eqb c "n"); [apply Hlit; discriminate|].
    eapply within_and_then; [apply parse_number_shorter|].
    intros lex rest Hrest. cbn in *. lia.
  - cbn [parse_elements].
    eapply within_and_then; [apply IHv; lia|].
    intros v rest Hrest.
    destruct (skip_ws rest) as [|d r1] eqn:Er; [exact I|].
    pose proof (skip_ws_cons _ _ _ Er) as Lr1.
    destruct (Ascii.eqb d ",").
    { apply within_cons_to. eapply within_le; [|apply IHe; lia]. lia. }
    destruct (Ascii.eqb d "]"); [cbn; lia|exact I].
  - cbn [parse_members].
    destruct (skip_ws s) as [|q r] eqn:Es; [exact I|].
    pose proof (skip_ws_cons _ _ _ Es) as Lr.
    destruct (Ascii.eqb q Json.dquote); [|exact I].
    eapply within_and_then; [apply parse_chars_shorter|].
    intros k rest Hrest.
    destruct (skip_ws rest) as [|d r1] eqn:Er; [exact I|].
    pose proof (skip_ws_cons _ _ _ Er) as Lr1.
    destruct (Ascii.eqb d ":"); [|exact I].
    eapply within_and_then; [apply IHv; lia|].
    intros v rest' Hrest'.
    destruct (skip_ws rest') as [|g r2] eqn:Er2; [exact I|].
    pose proof (skip_ws_cons _ _ _ Er2) as Lr2.
    destruct (Ascii.eqb g ",").
    { apply within_cons_to. eapply within_le; [|apply IHm; lia]. lia. }
    destruct (Ascii.eqb g "}"); [cbn; lia|exact I].
Qed.

Lemma JSON_parse_fuel (text : str) :
  parse_value (2 * List.length text + 1) text <> OutOfFuel.
Proof.
  destruct (parser_decides (2 * List.length text + 1)) as [H _].
  specialize (H text (le_n _)).
  intro E. now rewrite E in H.
Qed.

End ParserDecides.

(* ================================================================== *)
(** * Parsing what JSON.stringify wrote *)

Section RoundTrip.

Lemma parse_chars_escape_char (c : ascii) (tail : str) :
  parse_chars (Json.escape_char c ++ tail) =
  cons_to (N_of_ascii c) (parse_chars tail).
Proof.
  destruct c as [[] [] [] [] [] [] [] []]; reflexivity.
Qed.

Lemma parse_chars_string (s rest : str) :
  parse_chars (flat_map Json.escape_char s ++ Json.dquote :: rest) =
  Parsed (units_of s) rest.
Proof.
  induction s as [|c s IH]; [reflexivity|].
  cbn [flat_map]. rewrite <- app_assoc, parse_chars_escape_char, IH.
  reflexivity.
Qed.

Lemma of_string_shape (s tail : str) :
  Json.of_string s ++ tail =
  Json.dquote :: (flat_map Json.escape_char s ++ Json.dquote :: tail).
Proof.
  unfold Json.of_string. cbn [app]. now rewrite <- app_assoc.
Qed.

Lemma parse_value_string (fuel : nat) (s tail : str) :
  1 <= fuel ->
  parse_value fuel (Json.of_string s ++ tail) =
  Parsed (JString (units_of s)) tail.
Proof.
  intro H. destruct fuel as [|fuel]; [lia|].
  rewrite of_string_shape. cbn [parse_value].
  change (skip_ws (Json.dquote :: ?x)) with (Json.dquote :: x).
  cbn. now rewrite parse_chars_string.
Qed.

Lemma take_digits_uint (d : Decimal.uint) (tail : str) :
  take_digits (list_ascii_of_string (NilEmpty.string_of_uint d)
               ++ ","%char :: tail) =
  (list_ascii_of_string (NilEmpty.string_of_uint d), ","%char :: tail).
Proof.
  induction d as [|d IH|d IH|d IH|d IH|d IH|d IH|d IH|d IH|d IH|d IH];
    [reflexivity|..];
    cbn [NilEmpty.string_of_uint list_ascii_of_string app take_digits];
    (change (is_digit _) with true; cbv iota; now rewrite IH).
Qed.

Lemma nzhead_not_D0 (d x : Decimal.uint) : Decimal.nzhead d <> Decimal.D0 x.
Proof. induction d; cbn; try discriminate; exact IHd. Qed.

Lemma unorm_D0 (d : Decimal.uint) :
  Decimal.unorm (Decimal.D0 d) = Decimal.D0 d -> d = Decimal.Nil.
Proof.
  unfold Decimal.unorm. cbn [Decimal.nzhead].
  destruct (Decimal.nzhead d) eqn:E; intro H;
    try (now injection H);
    try (exfalso; rewrite <- E in H; exact (nzhead_not_D0 _ _ H)).
Qed.

Lemma to_uint_normal (n : N) : Decimal.unorm (N.to_uint n) = N.to_uint n.
Proof.
  rewrite <- (DecimalN.Unsigned.to_of (N.to_uint n)).
  now rewrite DecimalN.Unsigned.of_to.
Qed.

(** A printed number, followed by a comma, is read back as its literal. *)
Lemma parse_value_number (fuel : nat) (n : N) (tail : str) :
  1 <= fuel ->
  parse_value fuel (Json.of_number n ++ ","%char :: tail) =
  Parsed (JNumber (Json.of_number n)) (","%char :: tail).
Proof.
  intro H. destruct fuel as [|fuel]; [lia|].
  unfold Json.of_number. pose proof (to_uint_normal n) as Hn.
  destruct (N.to_uint n) as [|d|d|d|d|d|d|d|d|d|d];
    [discriminate Hn| |..].
  - apply unorm_D0 in Hn. subst d. reflexivity.
  - cbn [NilEmpty.string_of_uint list_ascii_of_string app parse_value].
    cbn. now rewrite take_digits_uint.
  - cbn [NilEmpty.string_of_uint list_ascii_of_string app parse_value].
    cbn. now rewrite take_digits_uint.
  - cbn [NilEmpty.string_of_uint list_ascii_of_string app parse_value].
    cbn. now rewrite take_digits_uint.
  - cbn [NilEmpty.string_of_uint list_ascii_of_string app parse_value].
    cbn. now rewrite take_digits_uint.
  - cbn [NilEmpty.string_of_uint list_ascii_of_string app parse_value].
    cbn. now rewrite take_digits_uint.
  - cbn [NilEmpty.string_of_uint list_ascii_of_string app parse_value].
    cbn. now rewrite take_digits_uint.
  - cbn [NilEmpty.string_of_uint list_ascii_of_string app parse_value].
    cbn. now rewrite take_digits_uint.
  - cbn [NilEmpty.string_of_uint list_ascii_of_string app parse_value].
    cbn. now rewrite take_digits_uint.
  - cbn [NilEmpty.string_of_uint list_ascii_of_string app parse_value].
    cbn. now rewrite take_digits_uint.
Qed.

Lemma member_shape (k : string) (vt tail : str) :
  Json.member k vt ++ tail =
  Json.dquote ::
    (flat_map Json.escape_char (lit k) ++
     Json.dquote :: ":"%char :: (vt ++ tail)).
Proof.
  unfold Json.member. rewrite <- !app_assoc, of_string_shape.
  reflexivity.
Qed.

(** A member that is followed by another one. *)
Lemma parse_member_more (fuel : nat) (k : string) (vt : str) (v : value)
    (more : str) :
  parse_value fuel (vt ++ ","%char :: more) = Parsed v (","%char :: more) ->
  parse_members (S fuel) (Json.member k vt ++ ","%char :: more) =
  cons_to (units_of (lit k), v) (parse_members fuel more).
Proof.
  intro Hv. rewrite member_shape. cbn [parse_members].
  change (skip_ws (Json.dquote :: ?x)) with (Json.dquote :: x).
  change (Ascii.eqb Json.dquote Json.dquote) with true. cbv iota.
  rewrite parse_chars_string. cbn [and_then].
  change (skip_ws (":"%char :: ?x)) with (":"%char :: x).
  change (Ascii.eqb ":" ":") with true. cbv iota.
  rewrite Hv. reflexivity.
Qed.

(** The last member of an object. *)
Lemma parse_member_last (fuel : nat) (k : string) (vt : str) (v : value)
    (rest : str) :
  parse_value fuel (vt ++ "}"%char :: rest) = Parsed v ("}"%char :: rest) ->
  parse_members (S fuel) (Json.member k vt ++ "}"%char :: rest) =
  Parsed [(units_of (lit k), v)] rest.
Proof.
  intro Hv. rewrite member_shape. cbn [parse_members].
  change (skip_ws (Json.dquote :: ?x)) with (Json.dquote :: x).
  change (Ascii.eqb Json.dquote Json.dquote) with true. cbv iota.
  rewrite parse_chars_string. cbn [and_then].
  change (skip_ws (":"%char :: ?x)) with (":"%char :: x).
  change (Ascii.eqb ":" ":") with true. cbv iota.
  rewrite Hv. reflexivity.
Qed.

(** An object with at least one member. *)
Lemma parse_value_object (fuel : nat) (k : string) (body : str)
    (ms : list (list N * value)) (rest : str) :
  parse_members fuel (Json.member k body) = Parsed ms rest ->
  parse_value (S fuel) ("{"%char :: Json.member k body) =
  Parsed (JObject ms) rest.
Proof.
  intro Hm. cbn [parse_value].
  change (skip_ws ("{"%char :: ?x)) with ("{"%char :: x).
  change (Ascii.eqb "{" "{") with true. cbv iota.
  rewrite <- (app_nil_r (Json.member k body)) at 1.
  rewrite member_shape.
  change (skip_ws (Json.dquote :: ?x)) with (Json.dquote :: x).
  change (Ascii.eqb Json.dquote "}") with false. cbv iota.
  now rewrite Hm.
Qed.

Lemma of_fact_shape (f : Fact) (rest : str) :
  Json.of_fact f ++ rest =
  "{"%char ::
    (Json.member "id" (Json.of_number (f_id f)) ++ ","%char ::
     (Json.member "category" (Json.of_string (category f)) ++ ","%char ::
      (Json.member "data_key" (Json.of_string (data_key f)) ++ ","%char ::
       (Json.member "data_value" (Json.of_string (data_value f)) ++
        "}"%char :: rest)))).
Proof.
  unfold Json.of_fact, Json.object. cbn [Json.join].
  change (lit "{") with ["{"%char]. change (lit ",") with [","%char].
  change (lit "}") with ["}"%char].
  cbn [app]. repeat (rewrite <- app_assoc; cbn [app]). reflexivity.
Qed.

Lemma parse_value_fact (fuel : nat) (f : Fact) (rest : str) :
  6 <= fuel ->
  parse_value fuel (Json.of_fact f ++ rest) = Parsed (value_of_fact f) rest.
Proof.
  intro H. destruct fuel as [|[|[|[|[|[|fuel]]]]]]; try lia.
  rewrite of_fact_shape.
  set (m4 := Json.member "data_value" _ ++ _).
  set (m3 := Json.member "data_key" _ ++ _).
  set (m2 := Json.member "category" _ ++ _).
  cbn [parse_value].
  change (skip_ws ("{"%char :: ?x)) with ("{"%char :: x).
  change (Ascii.eqb "{" "{") with true. cbv iota.
  rewrite (member_shape "id").
  change (skip_ws (Json.dquote :: ?x)) with (Json.dquote :: x).
  change (Ascii.eqb Json.dquote "}") with false. cbv iota.
  rewrite <- (member_shape "id").
  rewrite (parse_member_more _ "id" _ (JNumber (Json.of_number (f_id f))));
    [|apply parse_value_number; lia].
  subst m2.
  rewrite (parse_member_more _ "category" _
             (JString (units_of (category f))));
    [|apply parse_value_string; lia].
  subst m3.
  rewrite (parse_member_more _ "data_key" _
             (JString (units_of (data_key f))));
    [|apply parse_value_string; lia].
  subst m4.
  rewrite (parse_member_last _ "data_value" _
             (JString (units_of (data_value f))));
    [|apply parse_value_string; lia].
  reflexivity.
Qed.

Lemma of_fact_starts (f : Fact) : exists tail, Json.of_fact f = "{"%char :: tail.
Proof.
  eexists. rewrite <- (app_nil_r (Json.of_fact f)), of_fact_shape.
  reflexivity.
Qed.

(** The elements of a non-empty array of facts, after the opening
    bracket. *)
Lemma parse_elements_facts (rows : list Fact) :
  forall (f0 : Fact) (fuel : nat) (rest : str),
  List.length rows + 7 <= fuel ->
  parse_elements fuel
    (Json.join (lit ",") (map Json.of_fact (f0 :: rows)) ++ "]"%char :: rest)
  = Parsed (map value_of_fact (f0 :: rows)) rest.
Proof.
  induction rows as [|f1 rows IH]; intros f0 fuel rest H.
  - destruct fuel as [|fuel]; [cbn in H; lia|].
    cbn [map Json.join parse_elements].
    rewrite (parse_value_fact fuel f0); [|cbn in H; lia].
    reflexivity.
  - destruct fuel as [|fuel]; [cbn in H; lia|].
    change (Json.join (lit ",") (map Json.of_fact (f0 :: f1 :: rows)))
      with (Json.of_fact f0 ++ lit "," ++
            Json.join (lit ",") (map Json.of_fact (f1 :: rows))).
    change (lit ",") with [","%char] at 1.
    rewrite <- !app_assoc. cbn [parse_elements].
    rewrite (parse_value_fact fuel f0); [|cbn in H; lia].
    cbn [and_then app].
    change (skip_ws (","%char :: ?x)) with (","%char :: x).
    change (Ascii.eqb "," ",") with true. cbv iota.
    rewrite (IH f1 fuel rest); [reflexivity|cbn in H |- *; lia].
Qed.

Lemma join_facts_length (rows : list Fact) :
  List.length rows <=
  List.length (Json.join (lit ",") (map Json.of_fact rows)).
Proof.
  induction rows as [|f0 rows IH]; [reflexivity|].
  destruct (of_fact_starts f0) as [tail E].
  destruct rows as [|f1 rows].
  - cbn [map Json.join]. rewrite E. cbn. lia.
  - change (Json.join (lit ",") (map Json.of_fact (f0 :: f1 :: rows)))
      with (Json.of_fact f0 ++ lit "," ++
            Json.join (lit ",") (map Json.of_fact (f1 :: rows))).
    rewrite E, !length_app. cbn [List.length] in *. lia.
Qed.

Lemma parse_value_array (fuel : nat) (rows : list Fact) (rest : str) :
  List.length rows + 8 <= fuel ->
  parse_value fuel (Json.array (map Json.of_fact rows) ++ rest) =
  Parsed (JArray (map value_of_fact rows)) rest.
Proof.
  intro H. destruct fuel as [|fuel]; [lia|].
  unfold Json.array. change (lit "[") with ["["%char].
  change (lit "]") with ["]"%char]. rewrite <- !app_assoc. cbn [app].
  destruct rows as [|f0 rows]; [reflexivity|].
  cbn [parse_value].
  change (skip_ws ("["%char :: ?x)) with ("["%char :: x).
  change (Ascii.eqb "[" "{") with false.
  change (Ascii.eqb "[" "[") with true. cbv iota.
  rewrite (parse_elements_facts rows f0 fuel rest); [|cbn in H; lia].
  destruct (of_fact_starts f0) as [tail E].
  assert (Hs : exists tail', Json.join (lit ",") (map Json.of_fact (f0 :: rows))
                             ++ "]"%char :: rest = "{"%char :: tail').
  { destruct rows as [|f1 rows].
    - cbn [map Json.join]. rewrite E. eexists; reflexivity.
    - change (Json.join (lit ",") (map Json.of_fact (f0 :: f1 :: rows)))
        with (Json.of_fact f0 ++ lit "," ++
              Json.join (lit ",") (map Json.of_fact (f1 :: rows))).
      rewrite E. eexists; reflexivity. }
  destruct Hs as [tail' ->]. reflexivity.
Qed.

Lemma reply_shape (kind : string) (vt : str) :
  Json.object [ Json.member "type" (Json.of_string (lit kind));
                Json.member "content" vt ] =
  "{"%char ::
    (Json.member "type" (Json.of_string (lit kind)) ++ ","%char ::
     (Json.member "content" vt ++ ["}"%char])).
Proof.
  unfold Json.object. cbn [Json.join].
  change (lit "{") with ["{"%char]. change (lit ",") with [","%char].
  change (lit "}") with ["}"%char].
  cbn [app]. repeat (rewrite <- app_assoc; cbn [app]). reflexivity.
Qed.

Lemma parse_value_reply (fuel : nat) (kind : string) (vt : str) (v : value) :
  parse_value fuel (vt ++ ["}"%char]) = Parsed v ["}"%char] ->
  1 <= fuel ->
  parse_value (3 + fuel)
    (Json.object [ Json.member "type" (Json.of_string (lit kind));
                   Json.member "content" vt ]) =
  Parsed (JObject [ (units_of (lit "type"), JString (units_of (lit kind)));
                    (units_of (lit "content"), v) ]) [].
Proof.
  intros Hv Hf. rewrite reply_shape.
  change (3 + fuel) with (S (S (S fuel))).
  cbn [parse_value].
  change (skip_ws ("{"%char :: ?x)) with ("{"%char :: x).
  change (Ascii.eqb "{" "{") with true. cbv iota.
  rewrite (member_shape "type").
  change (skip_ws (Json.dquote :: ?x)) with (Json.dquote :: x).
  change (Ascii.eqb Json.dquote "}") with false. cbv iota.
  rewrite <- (member_shape "type").
  rewrite (parse_member_more _ "type" _ (JString (units_of (lit kind))));
    [|apply parse_value_string; lia].
  rewrite (parse_member_last _ "content" _ v); [reflexivity|exact Hv].
Qed.

Lemma array_length (rows : list Fact) :
  List.length rows + 2 <=
  List.length (Json.array (map Json.of_fact rows)).
Proof.
  unfold Json.array. change (lit "[") with ["["%char].
  change (lit "]") with ["]"%char]. rewrite !length_app.
  pose proof (join_facts_length rows). cbn [List.length]. lia.
Qed.

Lemma reply_length (kind : string) (vt : str) :
  List.length vt + 5 <=
  List.length (Json.object [ Json.member "type" (Json.of_string (lit kind));
                             Json.member "content" vt ]).
Proof.
  rewrite reply_shape. cbn [List.length]. rewrite length_app.
  cbn [List.length]. rewrite (member_shape "content").
  cbn [List.length]. rewrite length_app. cbn [List.length].
  rewrite length_app. lia.
Qed.

Lemma JSON_parse_stringify (reply : Answer) :
  JSON_parse (JSON_stringify reply) = Some (value_of_reply reply).
Proof.
  unfold JSON_parse.
  destruct reply as [rows|text]; cbn [JSON_stringify value_of_reply].
  - pose proof (reply_length "data" (Json.array (map Json.of_fact rows)))
      as L.
    pose proof (array_length rows) as La.
    set (t := Json.object _) in *.
    replace (2 * List.length t + 1)
      with (3 + (2 * List.length t - 2)) by lia.
    subst t.
    rewrite (parse_value_reply _ "data" _ (JArray (map value_of_fact rows)));
      [reflexivity| |lia].
    apply parse_value_array. lia.
  - pose proof (reply_length "text" (Json.of_string text)) as L.
    set (t := Json.object _) in *.
    replace (2 * List.length t + 1)
      with (3 + (2 * List.length t - 2)) by lia.
    subst t.
    rewrite (parse_value_reply _ "text" _ (JString (units_of text)));
      [reflexivity| |lia].
    apply parse_value_string. lia.
Qed.

(** A text that does not start, after whitespace, like a JSON value is
    refused. *)
Lemma JSON_parse_bad_start (text : str) :
  match skip_ws text with
  | [] => True
  | c :: _ => json_start c = false
  end ->
  JSON_parse text = None.
Proof.
  intro H. unfold JSON_parse.
  replace (2 * List.length text + 1) with (S (2 * List.length text)) by lia.
  cbn [parse_value].
  destruct (skip_ws text) as [|c r]; [reflexivity|].
  destruct c as [[] [] [] [] [] [] [] []];
    first [discriminate H | reflexivity].
Qed.

(** A text that parses to a string is longer than that string. *)
Lemma JSON_parse_string_longer (text : str) (u : list N) :
  JSON_parse text = Some (JString u) ->
  List.length u < List.length text.
Proof.
  unfold JSON_parse.
  replace (2 * List.length text + 1) with (S (2 * List.length text)) by lia.
  cbn [parse_value].
  destruct (skip_ws text) as [|c r] eqn:Es; [discriminate|].
  pose proof (skip_ws_length text) as Lt. rewrite Es in Lt. cbn in Lt.
  destruct (Ascii.eqb c "{").
  { destruct (skip_ws r) as [|d r1]; [discriminate|].
    destruct (Ascii.eqb d "}");
      [destruct (skip_ws r1); discriminate|].
    destruct (parse_members _ _); cbn; try discriminate.
    destruct (skip_ws rest); discriminate. }
  destruct (Ascii.eqb c "[").
  { destruct (skip_ws r) as [|d r1]; [discriminate|].
    destruct (Ascii.eqb d "]");
      [destruct (skip_ws r1); discriminate|].
    destruct (parse_elements _ _); cbn; try discriminate.
    destruct (skip_ws rest); discriminate. }
  destruct (Ascii.eqb c Json.dquote).
  { pose proof (parse_chars_within r _ (le_n _)) as Hc.
    destruct (parse_chars r) as [u' rest| |]; cbn; try discriminate.
    destruct (skip_ws rest); [|discriminate].
    intro E. injection E as <-. lia. }
  assert (Hlit : forall word v, (forall u', v <> JString u') ->
            match parse_literal word v (c :: r) with
            | Parsed v0 rest =>
                match skip_ws rest with [] => Some v0 | _ :: _ => None end
            | _ => None
            end <> Some (JString u)).
  { intros word v Hv. unfold parse_literal.
    destruct (starts_with word (c :: r)); cbv iota; [|discriminate].
    destruct (skip_ws (skipn _ _)); [|discriminate].
    intro E. injection E as E. exact (Hv _ E). }
  destruct (Ascii.eqb c "t"); [intro E; now apply Hlit in E|].
  destruct (Ascii.eqb c "f"); [intro E; now apply Hlit in E|].
  destruct (Ascii.eqb c "n"); [intro E; now apply Hlit in E|].
  destruct (parse_number (c :: r)); cbn; try discriminate.
  destruct (skip_ws rest); discriminate.
Qed.

End RoundTrip.

(** X16.  What the chat route stores for the bot and what the page reads
    back agree: for every reply, [JSON.parse] of [JSON.stringify] of the
    reply is the reply's value, so a history row that holds a serialized
    reply is loaded with the very content that [sendMessage] showed when
    the reply arrived. *)
Theorem X16_reply_round_trip (reply : Answer) (row : Message) :
  JSON_parse (JSON_stringify reply) = Some (value_of_reply reply) /\
  (content row = JSON_stringify reply ->
   exists loaded,
     Client.parse_rows [row] = Some [loaded] /\
     Client.c_content loaded = Client.data_of (reply_body reply)).
Proof.
  split; [apply JSON_parse_stringify|].
  intro H. cbn [Client.parse_rows]. rewrite H, JSON_parse_stringify.
  eexists. split; reflexivity.
Qed.

Lemma X16_reply_round_trip_witness :
  let reply := resolve (lit "find john") (store seeded) in
  let row := {| m_id := 2; content := JSON_stringify reply;
                sender := lit "bot"; timestamp := 7 |} in
  exists loaded,
    Client.parse_rows [row] = Some [loaded] /\
    Client.c_content loaded = Client.data_of (reply_body reply).
Proof.
  intros reply row.
  apply (X16_reply_round_trip reply row). reflexivity.
Defined.

(* ================================================================== *)
(** * The page and the server *)

Section Page.

Lemma handle_returns (req : Request) (w : World) :
  exists resp, fst (handle req w) = Return resp.
Proof.
  destruct req as [message|qpage qlimit|]; cbn [handle].
  - destruct (post_api_chat_answers message w) as (resp & H & _).
    now exists resp.
  - unfold get_api_messages, try_catch.
    destruct (bind _ _ w) as [[resp|e] w1]; eexists; reflexivity.
  - unfold delete_api_messages, try_catch.
    destruct (bind _ _ w) as [[resp|e] w1]; eexists; reflexivity.
Qed.

Lemma parse_rows_none (rows : list Message) :
  Client.parse_rows rows = None <->
  exists m, In m rows /\ JSON_parse (content m) = None.
Proof.
  induction rows as [|m rows IH]; cbn [Client.parse_rows].
  - split; [discriminate|]. intros (m & [] & _).
  - destruct (JSON_parse (content m)) as [v|] eqn:E.
    + destruct (Client.parse_rows rows) as [out|].
      * split; [discriminate|].
        intros (m' & [<-|Hin] & Hm'); [congruence|].
        destruct IH as [_ IH]. discriminate IH. now exists m'.
      * split; [|reflexivity]. intros _.
        destruct IH as [IH _]. destruct (IH eq_refl) as (m' & Hin & Hm').
        exists m'. split; [now right|exact Hm'].
    + split; [|reflexivity]. intros _. exists m. split; [now left|exact E].
Qed.

Lemma parse_rows_some (rows : list Message) (l : list Client.ChatMessage) :
  Client.parse_rows rows = Some l ->
  map Client.c_id l = map (fun m => Some (m_id m)) rows /\
  map (fun c => Some (Client.c_content c)) l =
    map (fun m => JSON_parse (content m)) rows /\
  map Client.c_sender l = map sender rows.
Proof.
  revert l; induction rows as [|m rows IH]; intros l;
    cbn [Client.parse_rows map].
  - intro H. injection H as <-. repeat split.
  - destruct (JSON_parse (content m)) as [v|]; [|discriminate].
    destruct (Client.parse_rows rows) as [out|]; [|discriminate].
    intro H. injection H as <-.
    destruct (IH out eq_refl) as (H1 & H2 & H3).
    cbn. now rewrite H1, H2, H3.
Qed.

Lemma axios_get_run (b : Client.Browser) :
  Client.online b = true ->
  no_fault_in 2 (Client.server b) = true ->
  exists total count w,
    Client.axios (GET_api_messages None None) b =
    (inl (json (messages_body (page_rows 50 1 (store (Client.server b))) 1
                  total count)),
     Client.with_server w b) /\
    store w = store (Client.server b).
Proof.
  intros Ho Hf. unfold Client.axios. rewrite Ho. cbn [handle].
  rewrite (get_api_messages_run None None _ Hf); [|cbn; lia|cbn; lia].
  cbn. do 3 eexists. split; reflexivity.
Qed.

End Page.

Lemma loadChatHistory_outcome (b : Client.Browser) :
  let rows := page_rows 50 1 (store (Client.server b)) in
  let after := Client.loadChatHistory b in
  Client.online b = true ->
  no_fault_in 2 (Client.server b) = true ->
  Client.loading (Client.ui after) = false /\
  store (Client.server after) = store (Client.server b) /\
  (forall l, Client.parse_rows rows = Some l ->
     Client.messages (Client.ui after) = l /\
     Client.error (Client.ui after) = Client.error (Client.ui b)) /\
  ((exists m, In m rows /\ JSON_parse (content m) = None) ->
     Client.messages (Client.ui after) = Client.messages (Client.ui b) /\
     Client.error (Client.ui after) =
       Some (lit "Failed to load chat history")).
Proof.
  intros rows after Ho Hf. subst after. unfold Client.loadChatHistory.
  destruct (axios_get_run b Ho Hf) as (total & count & w & -> & Hs).
  cbn [json status body]. fold rows.
  split; [|split; [|split]].
  - now destruct (Client.parse_rows rows).
  - now destruct (Client.parse_rows rows).
  - intros l ->. split; reflexivity.
  - intro H. apply parse_rows_none in H. rewrite H. split; reflexivity.
Qed.

(** X17.  [loadChatHistory], when the server answers: if the content of
    every row of the first page (the 50 oldest messages) parses as JSON,
    the messages shown are those rows with their contents parsed, and the
    error is left as it was; if the content of one row does not parse,
    the messages shown stay as they were and the error becomes [Failed to
    load chat history].  [loading] ends false and the store of the server
    is unchanged. *)
Theorem X17_loadChatHistory_needs_json_contents (b : Client.Browser) :
  let rows := page_rows 50 1 (store (Client.server b)) in
  let after := Client.loadChatHistory b in
  Client.online b = true ->
  no_fault_in 2 (Client.server b) = true ->
  Client.loading (Client.ui after) = false /\
  store (Client.server after) = store (Client.server b) /\
  (forall l, Client.parse_rows rows = Some l ->
     Client.messages (Client.ui after) = l /\
     Client.error (Client.ui after) = Client.error (Client.ui b)) /\
  ((exists m, In m rows /\ JSON_parse (content m) = None) ->
     Client.messages (Client.ui after) = Client.messages (Client.ui b) /\
     Client.error (Client.ui after) =
       Some (lit "Failed to load chat history")).
Proof. apply loadChatHistory_outcome. Qed.

Lemma X17_loadChatHistory_needs_json_contents_witness :
  let w := snd (post_api_chat (Some (lit "hello")) seeded) in
  let after := Client.loadChatHistory (Client.opened w) in
  Client.messages (Client.ui after) = [] /\
  Client.error (Client.ui after) = Some (lit "Failed to load chat history").
Proof.
  intros w after.
  destruct (X17_loadChatHistory_needs_json_contents (Client.opened w))
    as (_ & _ & _ & H); [reflexivity|reflexivity|].
  apply H.
  exists {| m_id := 1; content := lit "hello"; sender := lit "user";
            timestamp := 3 |}.
  split; [vm_compute; tauto|reflexivity].
Defined.

Section PageTurns.

Lemma trim_nonempty (s : str) : trim s <> [] -> s <> [].
Proof. intros H ->. now apply H. Qed.

(** A turn on a store that answers, with the faults that remain. *)
Lemma post_api_chat_run_resolve (n : nat) (message : str) (w : World) :
  message <> [] ->
  no_fault_in (5 + n) w = true ->
  exists w',
    post_api_chat (Some message) w =
      (Return (json (reply_body (resolve message (store w)))), w') /\
    no_fault_in n w' = true /\
    exists m1 m2,
      messages (store w') = messages (store w) ++ [m1; m2] /\
      content m1 = message /\ sender m1 = lit "user" /\
      content m2 = JSON_stringify (resolve message (store w)) /\
      sender m2 = lit "bot".
Proof.
  intros Hne Hf.
  destruct (no_fault_in_S _ _ Hf) as [Hf1 Hrest].
  rewrite (post_api_chat_nonempty _ _ Hne). unfold try_catch, bind.
  rewrite (saveMessage_run _ _ _ Hf1).
  set (w1 := sent w _ _).
  specialize (Hrest (insertMessage message (lit "user")) (store w1)).
  change (sent w (insertMessage message (lit "user")) (store w1))
    with w1 in Hrest.
  destruct (findResponse_run (1 + n) message w1 Hrest)
    as (a & w2 & Hfind & Hstore & Hf2).
  pose proof (findResponse_returns_resolve message w1 a) as Ha.
  rewrite Hfind in Ha. specialize (Ha eq_refl).
  assert (Ea : a = resolve message (store w)).
  { rewrite Ha. apply resolve_ext; reflexivity. }
  rewrite Hfind.
  assert (Hreply : match a with
                   | DataAnswer rows => DataAnswer rows
                   | TextAnswer text => TextAnswer text
                   end = a) by now destruct a.
  rewrite Hreply.
  apply no_fault_in_S in Hf2 as [Hf2 Hf3].
  rewrite (saveMessage_run _ _ _ Hf2). subst a.
  eexists. split; [reflexivity|]. split; [apply Hf3|].
  do 2 eexists. cbn. rewrite Hstore. cbn. rewrite <- app_assoc.
  split; [reflexivity|]. repeat split.
Qed.

End PageTurns.

(** X18.  [sendMessage] with an input that is not blank, in front of a
    server that answers: the page shows the text as a user message and
    then the reply, which is [resolve] of the input on the store; the
    input is cleared, no error is shown, and the server has persisted the
    text and the serialized reply. *)
Theorem X18_sendMessage_shows_reply (now1 now2 : N) (b : Client.Browser) :
  let input := Client.inputMessage (Client.ui b) in
  let reply := resolve input (store (Client.server b)) in
  let after := Client.sendMessage now1 now2 b in
  trim input <> [] ->
  Client.online b = true ->
  no_fault_in 5 (Client.server b) = true ->
  Client.ui after =
    {| Client.messages :=
         Client.messages (Client.ui b) ++
         [ Client.typed input (lit "user") now1;
           {| Client.c_id := None;
              Client.c_content := value_of_reply reply;
              Client.c_sender := lit "bot";
              Client.c_timestamp := now2 |} ];
       Client.inputMessage := [];
       Client.loading := false;
       Client.error := None |} /\
  map (fun m => (content m, sender m))
    (messages (store (Client.server after))) =
  map (fun m => (content m, sender m))
    (messages (store (Client.server b))) ++
  [(input, lit "user"); (JSON_stringify reply, lit "bot")].
Proof.
  intros input reply after Ht Ho Hf. subst after.
  unfold Client.sendMessage. fold input.
  destruct (trim input) as [|c t] eqn:Et; [congruence|].
  assert (Hne : input <> []) by (apply trim_nonempty; congruence).
  destruct (post_api_chat_run_resolve 0 input _ Hne Hf)
    as (w' & Hrun & _ & m1 & m2 & Hm & Hc1 & Hs1 & Hc2 & Hs2).
  unfold Client.axios. rewrite Ho. cbn [handle]. rewrite Hrun.
  cbn. split; [reflexivity|].
  rewrite Hm, map_app. cbn [map]. now rewrite Hc1, Hs1, Hc2, Hs2.
Qed.

Lemma X18_sendMessage_shows_reply_witness :
  let b := Client.type_input (lit "hello there") (Client.opened seeded) in
  Client.messages (Client.ui (Client.sendMessage 10 11 b)) =
  [ Client.typed (lit "hello there") (lit "user") 10;
    {| Client.c_id := None;
       Client.c_content :=
         value_of_reply (resolve (lit "hello there") (store seeded));
       Client.c_sender := lit "bot";
       Client.c_timestamp := 11 |} ].
Proof.
  intro b.
  destruct (X18_sendMessage_shows_reply 10 11 b) as [H _];
    [vm_compute; discriminate|reflexivity|reflexivity|].
  now rewrite H.
Defined.

Lemma sendMessage_outcomes (now1 now2 : N) (b : Client.Browser) :
  let input := Client.inputMessage (Client.ui b) in
  let after := Client.ui (Client.sendMessage now1 now2 b) in
  trim input <> [] ->
  exists last,
    Client.messages after =
      Client.messages (Client.ui b) ++
      [Client.typed input (lit "user") now1; last] /\
    Client.inputMessage after = [] /\
    Client.loading after = false /\
    ((Client.error after = None /\
      exists reply,
        last = {| Client.c_id := None;
                  Client.c_content := value_of_reply reply;
                  Client.c_sender := lit "bot";
                  Client.c_timestamp := now2 |}) \/
     (exists text,
        (text = lit "Internal server error" \/ text = lit "Network Error") /\
        Client.error after = Some text /\
        last = Client.typed text (lit "bot") now2)).
Proof.
  intros input after Ht. subst after.
  unfold Client.sendMessage. fold input.
  destruct (trim input) as [|c t] eqn:Et; [congruence|].
  assert (Hne : input <> []) by (apply trim_nonempty; congruence).
  unfold Client.axios. destruct (Client.online b).
  - cbn [handle].
    destruct (post_api_chat_answers_nonempty input (Client.server b) Hne)
      as (resp & Hresp & Hcases).
    destruct (post_api_chat (Some input) (Client.server b)) as [o w'].
    cbn [fst] in Hresp. subst o.
    destruct Hcases as [[reply ->]|[->| ->]].
    + eexists. cbn. repeat split. left. split; [reflexivity|].
      now exists reply.
    + eexists. cbn. repeat split. right.
      exists (lit "Internal server error"). repeat split. now left.
    + eexists. cbn. repeat split. right.
      exists (lit "Internal server error"). repeat split. now left.
  - eexists. cbn. repeat split. right.
    exists (lit "Network Error"). repeat split. now right.
Qed.

(** X19.  What [sendMessage] can end with, for an input that is not blank
    and whatever fails: the text is shown as a user message, the input is
    cleared, [loading] is false, and then either the reply is shown and
    no error, or one of the texts [Internal server error] and [Network
    Error] is shown as a bot message and as the error.  The page never
    sees the answer [Message is required], and the message of a status
    500 answer ([Failed to save message], [Failed to process response])
    is not shown. *)
Theorem X19_sendMessage_outcomes (now1 now2 : N) (b : Client.Browser) :
  let input := Client.inputMessage (Client.ui b) in
  let after := Client.ui (Client.sendMessage now1 now2 b) in
  trim input <> [] ->
  exists last,
    Client.messages after =
      Client.messages (Client.ui b) ++
      [Client.typed input (lit "user") now1; last] /\
    Client.inputMessage after = [] /\
    Client.loading after = false /\
    ((Client.error after = None /\
      exists reply,
        last = {| Client.c_id := None;
                  Client.c_content := value_of_reply reply;
                  Client.c_sender := lit "bot";
                  Client.c_timestamp := now2 |}) \/
     (exists text,
        (text = lit "Internal server error" \/ text = lit "Network Error") /\
        Client.error after = Some text /\
        last = Client.typed text (lit "bot") now2)).
Proof. apply sendMessage_outcomes. Qed.

Lemma X19_sendMessage_outcomes_witness :
  let b := Client.type_input (lit "hello")
             (Client.opened (with_faults [false; false; true] seeded)) in
  Client.error (Client.ui (Client.sendMessage 10 11 b)) =
    Some (lit "Internal server error") /\
  Client.inputMessage (Client.ui (Client.sendMessage 10 11 b)) = [] /\
  Client.loading (Client.ui (Client.sendMessage 10 11 b)) = false.
Proof.
  intro b.
  destruct (X19_sendMessage_outcomes 10 11 b) as (last & _ & H2 & H3 & _);
    [vm_compute; discriminate|].
  split; [reflexivity|]. split; [exact H2|exact H3].
Defined.

(** X20.  A page opened again after a send.  When the input is not blank
    and is not a JSON text (as [hello] is not), and the history has room
    for the turn on its first page, [sendMessage] ends without error; but
    the page that is opened anew after it, whose mount effect calls
    [loadChatHistory] on the initial state, fails on the stored user
    message: it shows no message at all and sets the error [Failed to load
    chat history]. *)
Theorem X20_reload_after_send_fails (now1 now2 : N) (b : Client.Browser) :
  let input := Client.inputMessage (Client.ui b) in
  let sent_b := Client.sendMessage now1 now2 b in
  let reopened :=
    Client.loadChatHistory (Client.opened (Client.server sent_b)) in
  trim input <> [] ->
  JSON_parse input = None ->
  Client.online b = true ->
  no_fault_in 7 (Client.server b) = true ->
  List.length (messages (store (Client.server b))) + 2 <= 50 ->
  Client.error (Client.ui sent_b) = None /\
  List.length (messages (store (Client.server sent_b))) =
    List.length (messages (store (Client.server b))) + 2 /\
  Client.messages (Client.ui reopened) = [] /\
  Client.error (Client.ui reopened) =
    Some (lit "Failed to load chat history").
Proof.
  intros input sent_b reopened Ht Hj Ho Hf Hlen.
  assert (Hne : input <> []) by now apply trim_nonempty.
  destruct (post_api_chat_run_resolve 2 input _ Hne Hf)
    as (w' & Hrun & Hf' & m1 & m2 & Hm & Hc1 & _).
  assert (Hsent : Client.server sent_b = w' /\
                  Client.error (Client.ui sent_b) = None).
  { subst sent_b. unfold Client.sendMessage. fold input.
    destruct (trim input) as [|c t]; [congruence|].
    unfold Client.axios. rewrite Ho. cbn [handle]. rewrite Hrun.
    cbn. split; reflexivity. }
  destruct Hsent as [Hs' Herr]. split; [exact Herr|].
  subst reopened. rewrite Hs'.
  split; [rewrite Hm, length_app; reflexivity|].
  destruct (loadChatHistory_outcome (Client.opened w') eq_refl Hf')
    as (_ & _ & _ & H).
  apply H. exists m1. split; [|now rewrite Hc1].
  cbn [Client.opened Client.server].
  unfold page_rows.
  change (Z.to_nat ((1 - 1) * 50)) with 0%nat.
  change (Z.to_nat 50) with 50%nat. cbn [skipn].
  rewrite firstn_all2.
  - apply (Permutation_in _ (order_by_timestamp_perm _)).
    rewrite Hm. apply in_or_app. right. now left.
  - rewrite order_by_timestamp_length, Hm, length_app.
    cbn [List.length]. lia.
Qed.

Lemma X20_reload_after_send_fails_witness :
  let b := Client.type_input (lit "hello") (Client.opened seeded) in
  let sent_b := Client.sendMessage 10 11 b in
  let reopened :=
    Client.loadChatHistory (Client.opened (Client.server sent_b)) in
  Client.error (Client.ui sent_b) = None /\
  Client.messages (Client.ui reopened) = [] /\
  Client.error (Client.ui reopened) =
    Some (lit "Failed to load chat history").
Proof.
  intros b sent_b reopened.
  destruct (X20_reload_after_send_fails 10 11 b) as (H1 & _ & H2 & H3);
    [vm_compute; discriminate | reflexivity | reflexivity | reflexivity
    | vm_compute; lia |].
  split; [exact H1|]. split; [exact H2|exact H3].
Defined.

(** X21.  No history row is loaded as the text it holds: when the content
    of a row parses as JSON at all, the parsed content differs from the
    string content that the page shows for a typed message with that
    text.  A user message therefore never looks after a reload as it did
    when it was sent. *)
Theorem X21_loaded_row_differs_from_typed
    (row : Message) (loaded : Client.ChatMessage) :
  Client.parse_rows [row] = Some [loaded] ->
  Client.c_content loaded <> JString (units_of (content row)).
Proof.
  cbn [Client.parse_rows].
  destruct (JSON_parse (content row)) as [v|] eqn:E; [|discriminate].
  intro H. injection H as <-. cbn [Client.c_content]. intros ->.
  apply JSON_parse_string_longer in E.
  unfold units_of in E. rewrite length_map in E. lia.
Qed.

Lemma X21_loaded_row_differs_from_typed_witness :
  let text := Json.dquote :: lit "hi" ++ [Json.dquote] in
  let row := {| m_id := 1; content := text; sender := lit "user";
                timestamp := 3 |} in
  let loaded := {| Client.c_id := Some 1%N;
                   Client.c_content := JString (units_of (lit "hi"));
                   Client.c_sender := lit "user";
                   Client.c_timestamp := 3 |} in
  Client.parse_rows [row] = Some [loaded] /\
  Client.c_content loaded <> JString (units_of text).
Proof.
  intros text row loaded.
  assert (H : Client.parse_rows [row] = Some [loaded]) by reflexivity.
  split; [exact H|].
  exact (X21_loaded_row_differs_from_typed row loaded H).
Defined.

(** X22.  [clearHistory].  When the page is online and the server's
    statement succeeds, the page shows no message, the messages table of
    the server is empty and the error is left as it was.  When the page is
    offline or the statement fails, the messages shown and the store stay
    as they were and the error becomes [Failed to clear chat history]. *)
Theorem X22_clearHistory_outcomes (b : Client.Browser) :
  let cleared := Client.clearHistory b in
  (Client.online b = true -> hd false (faults (Client.server b)) = false ->
   Client.messages (Client.ui cleared) = [] /\
   messages (store (Client.server cleared)) = [] /\
   Client.error (Client.ui cleared) = Client.error (Client.ui b)) /\
  (Client.online b = false \/ hd false (faults (Client.server b)) = true ->
   Client.messages (Client.ui cleared) = Client.messages (Client.ui b) /\
   store (Client.server cleared) = store (Client.server b) /\
   Client.error (Client.ui cleared) =
     Some (lit "Failed to clear chat history")).
Proof.
  intro cleared. subst cleared. unfold Client.clearHistory, Client.axios.
  split.
  - intros Ho Hf. rewrite Ho. cbn [handle].
    rewrite (delete_api_messages_run _ Hf). cbn. repeat split.
  - intros [Ho|Hf].
    + rewrite Ho. cbn. repeat split.
    + destruct (Client.online b); [|cbn; repeat split].
      cbn [handle]. unfold delete_api_messages, try_catch, bind.
      rewrite (pool_query_fault _ _ Hf). cbn. repeat split.
Qed.

Lemma X22_clearHistory_outcomes_witness :
  let w := snd (post_api_chat (Some (lit "hello")) seeded) in
  messages (store w) <> [] /\
  messages (store (Client.server (Client.clearHistory (Client.opened w))))
    = [] /\
  Client.error
    (Client.ui (Client.clearHistory
                  (Client.opened (with_faults [true] w)))) =
    Some (lit "Failed to clear chat history").
Proof.
  intro w. split; [vm_compute; discriminate|]. split.
  - destruct (X22_clearHistory_outcomes (Client.opened w)) as [H _].
    now destruct (H eq_refl eq_refl) as (_ & H2 & _).
  - destruct (X22_clearHistory_outcomes
                (Client.opened (with_faults [true] w))) as [_ H].
    now destruct (H (or_intror eq_refl)) as (_ & _ & H3).
Defined.

(* ================================================================== *)
(** * Rendering *)

Section Rendering.

Lemma render_items_facts (rows : list Fact) :
  Client.render_items (map value_of_fact rows) =
  Some (map Client.cells_of_fact rows).
Proof.
  induction rows as [|f rows IH]; [reflexivity|].
  cbn [map Client.render_items]. rewrite IH. reflexivity.
Qed.

Lemma render_reply (reply : Answer) (id : option N) (sender : str) (now : N) :
  Client.renderMessageContent
    {| Client.c_id := id; Client.c_content := value_of_reply reply;
       Client.c_sender := sender; Client.c_timestamp := now |} =
  Some (Client.element_of_reply reply).
Proof.
  destruct reply as [rows|text].
  - unfold Client.renderMessageContent.
    cbn [Client.c_content value_of_reply].
    change (Client.property (lit "type") (JObject _))
      with (Some (JString (units_of (lit "data")))).
    destruct (list_eq_dec N.eq_dec (units_of (lit "data"))
                (units_of (lit "data"))) as [_|n]; [|now destruct n].
    change (Client.property (lit "content") (JObject _))
      with (Some (JArray (map value_of_fact rows))).
    cbn [Client.renderDataTable]. now rewrite render_items_facts.
  - reflexivity.
Qed.

Lemma render_typed (text sender : str) (now : N) :
  Client.renderMessageContent (Client.typed text sender now) <> None.
Proof. discriminate. Qed.

End Rendering.

(** X23.  Every reply of the server can be rendered: in a message whose
    content is the reply as the chat route sends it, [renderMessageContent]
    raises no TypeError; it gives for a data reply the table with one row
    per fact, in the order of the reply, with the category, the key and
    the value of the fact, and for a text reply the paragraph with the
    text.  The id of a fact is not shown. *)
Theorem X23_replies_render
    (reply : Answer) (id : option N) (sender : str) (now : N) :
  Client.renderMessageContent
    {| Client.c_id := id; Client.c_content := value_of_reply reply;
       Client.c_sender := sender; Client.c_timestamp := now |} =
  Some (Client.element_of_reply reply).
Proof. apply render_reply. Qed.

(** X24.  [sendMessage] keeps the page renderable: when every message of
    the page can be rendered before it, every message can be rendered
    after it, whatever the input is and whatever fails on the way. *)
Theorem X24_sendMessage_keeps_renderable
    (now1 now2 : N) (b : Client.Browser) :
  Client.renderable (Client.ui b) ->
  Client.renderable (Client.ui (Client.sendMessage now1 now2 b)).
Proof.
  intro Hb.
  destruct (trim (Client.inputMessage (Client.ui b))) as [|c t] eqn:Et.
  - unfold Client.sendMessage. now rewrite Et.
  - destruct (sendMessage_outcomes now1 now2 b)
      as (last & Hm & _ & _ & Hlast); [congruence|].
    unfold Client.renderable. rewrite Hm.
    apply Forall_app. split; [exact Hb|].
    constructor; [apply render_typed|].
    constructor; [|constructor].
    destruct Hlast as [[_ [reply ->]]|(text & _ & _ & ->)].
    + now rewrite render_reply.
    + apply render_typed.
Qed.

Lemma X24_sendMessage_keeps_renderable_witness :
  let b := Client.type_input (lit "show me the skills")
             (Client.opened seeded) in
  Client.renderable (Client.ui b) /\
  Client.renderable (Client.ui (Client.sendMessage 10 11 b)).
Proof.
  intro b.
  assert (H : Client.renderable (Client.ui b)) by constructor.
  split; [exact H|].
  exact (X24_sendMessage_keeps_renderable 10 11 b H).
Defined.
